(** * Convolutional STFT engine and APC-SNR loss compositor

    A shallow embedding of [models/conv_stft.py] (class [STFT]) and of
    [models/APC_SNR/apc_snr.py] ([stft_snr], [APC_SNR_multi_filter],
    [APC_SNR]).

    Conventions of the embedding:
    - Python integers are [Z]; [//] is [Z.div] (both round towards minus
      infinity and give the remainder the sign of the divisor).
    - float32 / float64 values are idealised as real numbers [R]: every
      statement below is about the exact-arithmetic reading of the code.
    - a tensor is a (nested) list; the leading batch axis of the STFT
      engine and of the voice-activity mask is carried pointwise by every
      torch operation involved, so those functions are written for one
      batch item.
    - a Python exception is a value [Raise e] of the type [result].  *)

From Stdlib Require Import ZArith String List Bool Lia Reals Lra Psatz.
Import ListNotations.

Set Implicit Arguments.

(** ** Exceptions *)

Inductive PyError : Set :=
| NameError
| ValueError
| AttributeError
| RuntimeError
| ZeroDivisionError.

Inductive result (A : Type) : Type :=
| Ok (a : A)
| Raise (e : PyError).

Arguments Ok {A} a.
Arguments Raise {A} e.

Definition bind {A B : Type} (m : result A) (k : A -> result B) : result B :=
  match m with
  | Ok a => k a
  | Raise e => Raise e
  end.

Notation "x <- m ;; k" := (bind m (fun x => k))
  (at level 61, m at next level, right associativity).

Definition raises {A : Type} (m : result A) : Prop := exists e, m = Raise e.

(** ** Indexed construction and finite sums *)

Definition tabulate {A : Type} (n : nat) (f : nat -> A) : list A :=
  map f (seq 0 n).

Definition Rsum (l : list R) : R := fold_right Rplus 0%R l.

Definition sum_n (n : nat) (f : nat -> R) : R := Rsum (tabulate n f).

(** Element [i] of row [r] of a matrix stored as a list of rows. *)
Definition at2 (m : list (list R)) (r i : nat) : R := nth i (nth r m []) 0%R.

(** ** Python slices *)

(** A slice bound is clipped the way Python clips it: a negative bound counts
    from the end, and both are clamped into [0, len]. *)
Definition clip (len i : Z) : nat :=
  Z.to_nat (if (i <? 0)%Z then Z.max 0 (len + i) else Z.min i len).

(** [l[a:b]] *)
Definition py_slice {A : Type} (a b : Z) (l : list A) : list A :=
  let len := Z.of_nat (length l) in
  skipn (clip len a) (firstn (clip len b) l).

(** [l[:b]] *)
Definition py_slice_to {A : Type} (b : Z) (l : list A) : list A :=
  firstn (clip (Z.of_nat (length l)) b) l.

Module ConvStft.

(** *** [STFT.__init__], the default transform size

    [int(2 ** np.ceil(np.log2(nframe)))].  For a positive integer
    [np.ceil(np.log2 n)] is the least [k] with [n <= 2^k], which is
    [Z.log2_up n].  [np.log2 0] is [-inf] and [2 ** -inf] is [0.0]; the log
    of a negative number is [nan], and [int(nan)] raises [ValueError]. *)
Definition default_nfft (nframe : Z) : result Z :=
  if (nframe <? 0)%Z then Raise ValueError
  else if (nframe =? 0)%Z then Ok 0%Z
  else Ok (2 ^ Z.log2_up nframe)%Z.

(** The [win] argument: a window name or an explicit [np.ndarray]. *)
Inductive win_arg : Type :=
| WinName (name : string)
| WinArray (w : list R).

(** The registered buffers and attributes of an [STFT] module.  [weight] and
    [inv_weight] have the singleton in-channel axis dropped: row [c] is the
    filter of output channel [c]; [window] has its two singleton axes
    dropped. *)
Record STFT : Type := mkSTFT {
  nframe : Z;
  nhop : Z;
  pad : Z;
  nfft : Z;
  weight : list (list R);
  inv_weight : list (list R);
  window : list R;
  enframe : list (list R)
}.

(** The periodic Hann window, [get_window("hann", n, fftbins=True)], and its
    square root: the window the ["hann sqrt"] branch is written to compute
    (scipy returns all ones for a length of at most one). *)
Definition hann (n : nat) : list R :=
  if (n <=? 1)%nat then repeat 1%R n
  else tabulate n (fun k => (1 / 2 - 1 / 2 * cos (2 * PI * INR k / INR n))%R).

Definition hann_sqrt (n : nat) : list R := map sqrt (hann n).

(** [np.fft.rfft(np.eye(N))]: row [t] is the one-sided transform of the unit
    vector [e_t], that is [exp(-2 pi i f t / N)] for [f = 0 .. N//2]. *)
Definition rfft_eye_re (N : Z) : list (list R) :=
  tabulate (Z.to_nat N) (fun t =>
    tabulate (Z.to_nat (N / 2 + 1)) (fun f =>
      cos (2 * PI * INR f * INR t / IZR N)%R)).

Definition rfft_eye_im (N : Z) : list (list R) :=
  tabulate (Z.to_nat N) (fun t =>
    tabulate (Z.to_nat (N / 2 + 1)) (fun f =>
      (- sin (2 * PI * INR f * INR t / IZR N))%R)).

(** [np.concatenate([a, b], axis=1)] on matrices with the same row count. *)
Definition concat_axis1 (a b : list (list R)) : list (list R) :=
  map (fun p => fst p ++ snd p) (combine a b).

(** [m.T] for a matrix with [cols] columns. *)
Definition transpose (cols : nat) (m : list (list R)) : list (list R) :=
  tabulate cols (fun j => map (fun row => nth j row 0%R) m).

(** Elementwise product of a kernel row and a window of the same length. *)
Definition mul_window (row w : list R) : list R :=
  map (fun p => (fst p * snd p)%R) (combine row w).

(** [row * window] under numpy broadcasting of the last axis. *)
Definition np_mul_row (row w : list R) : result (list R) :=
  if (length row =? length w)%nat then Ok (mul_window row w)
  else if (length w =? 1)%nat then
    Ok (map (fun r => (r * hd 0 w)%R) row)
  else if (length row =? 1)%nat then
    Ok (map (fun v => (hd 0 row * v)%R) w)
  else Raise ValueError.

(** The unwindowed forward kernel for transform size [N >= 1]: the first
    [nframe] rows of the Fourier basis, real parts next to imaginary parts,
    transposed to [(2 * (N//2 + 1), nframe)]. *)
Definition fourier_kernel (self_nframe N : Z) : list (list R) :=
  let kernel_r := py_slice_to self_nframe (rfft_eye_re N) in
  let kernel_i := py_slice_to self_nframe (rfft_eye_im N) in
  transpose (2 * Z.to_nat (N / 2 + 1)) (concat_axis1 kernel_r kernel_i).

Fixpoint mapM {A B : Type} (f : A -> result B) (l : list A) : result (list B) :=
  match l with
  | [] => Ok []
  | a :: l' => b <- f a ;; bs <- mapM f l' ;; Ok (b :: bs)
  end.

Section Engine.

(** [scipy.signal.get_window(name, n, fftbins=True)]. *)
Variable get_window : string -> Z -> result (list R).

(** [np.linalg.pinv]. *)
Variable pinv : list (list R) -> list (list R).

(** [STFT.init_conv_stft_kernels].  In the ["hann sqrt"] branch the
    arguments of [get_window] mention the name [nframe], which is bound
    neither in the method nor in the module: evaluating them raises
    [NameError] before [get_window] is entered. *)
Definition init_conv_stft_kernels (self_nframe self_nfft : Z)
    (win : win_arg) (inverse : bool) : result (list (list R) * list R) :=
  window <- match win with
            | WinName name =>
                if String.eqb name "hann sqrt" then Raise NameError
                else get_window name self_nframe
            | WinArray w => Ok w
            end ;;
  let N := self_nfft in
  if (N <=? 0)%Z then Raise ValueError
  else
    let kernel := fourier_kernel self_nframe N in
    let kernel :=
      if inverse
      then transpose (2 * Z.to_nat (N / 2 + 1)) (pinv kernel)
      else kernel in
    kernel <- mapM (fun row => np_mul_row row window) kernel ;;
    Ok (kernel, window).

(** [torch.eye(n)]. *)
Definition torch_eye (n : Z) : result (list (list R)) :=
  if (n <? 0)%Z then Raise RuntimeError
  else Ok (tabulate (Z.to_nat n) (fun i =>
             tabulate (Z.to_nat n) (fun j =>
               if (i =? j)%nat then 1%R else 0%R))).

(** [STFT.__init__]; [nfft = None] is [None]. *)
Definition STFT_init (nframe nhop : Z) (nfft : option Z) (win : win_arg)
    (center : bool) : result STFT :=
  let pad := if center then (nframe / 2)%Z else 0%Z in
  nfft <- match nfft with
          | None => default_nfft nframe
          | Some n => Ok n
          end ;;
  kw <- init_conv_stft_kernels nframe nfft win false ;;
  ik <- init_conv_stft_kernels nframe nfft win true ;;
  eye <- torch_eye nframe ;;
  Ok (mkSTFT nframe nhop pad nfft (fst kw) (fst ik) (snd kw) eye).

End Engine.

(** The engine [self] with its hop replaced. *)
Definition with_nhop (self : STFT) (h : Z) : STFT :=
  mkSTFT (nframe self) h (pad self) (nfft self) (weight self)
    (inv_weight self) (window self) (enframe self).

(** [p] is a left inverse of [k] on the [n] frame samples: [p] has [n] rows
    and [sum_c p[t][c] * k[c][t'] = (t == t')]. *)
Definition left_inverse (p k : list (list R)) (n : nat) : Prop :=
  length p = n /\
  forall t t' : nat, (t < n)%nat -> (t' < n)%nat ->
    sum_n (length k) (fun c => (at2 p t c * at2 k c t')%R)
    = if (t =? t')%nat then 1%R else 0%R.

(** The first Moore-Penrose identity, [k p k = k], for a [p] with [n] rows:
    what [np.linalg.pinv] guarantees of its result. *)
Definition penrose_identity (p k : list (list R)) (n : nat) : Prop :=
  length p = n /\
  forall c t' : nat, (c < length k)%nat -> (t' < n)%nat ->
    sum_n n (fun t =>
      (at2 k c t
       * sum_n (length k) (fun c' => (at2 p t c' * at2 k c' t')%R))%R)
    = at2 k c t'.

(** The weight of bin [f] in the inverse real transform of size [N]: bin 0
    and, for an even [N], bin [N/2] occur once in the full spectrum, every
    other bin twice. *)
Definition bin_weight (N f : nat) : R :=
  if (f =? 0)%nat then 1%R else if (2 * f =? N)%nat then 1%R else 2%R.

(** The inverse real transform of size [N] restricted to the first [n]
    samples, in the layout of the kernel: row [t] holds the coefficient of
    every real and imaginary channel in sample [t]. *)
Definition irfft_matrix (n N : Z) : list (list R) :=
  tabulate (Z.to_nat n) (fun t =>
    tabulate (Z.to_nat (N / 2 + 1)) (fun f =>
      (bin_weight (Z.to_nat N) f
       * cos (2 * PI * INR f * INR t / IZR N) / IZR N)%R)
    ++ tabulate (Z.to_nat (N / 2 + 1)) (fun f =>
      (bin_weight (Z.to_nat N) f
       * (- sin (2 * PI * INR f * INR t / IZR N)) / IZR N)%R)).

(** [F.pad(x, (p, p))]: [p] zeros on each side (every engine built by
    [STFT_init] has [0 <= pad]). *)
Definition F_pad (p : Z) (x : list R) : list R :=
  repeat 0%R (Z.to_nat p) ++ x ++ repeat 0%R (Z.to_nat p).

(** [F.conv1d(x, w, stride=stride)] for a one-channel input [x] and filters
    [w] of width [ksize]: output channel [c], frame [k] is
    [sum_t w[c][t] * x[k * stride + t]].  torch rejects a non-positive stride
    and an input shorter than the kernel. *)
Definition conv1d (x : list R) (w : list (list R)) (ksize : nat) (stride : Z)
  : result (list (list R)) :=
  if (stride <=? 0)%Z then Raise RuntimeError
  else if (length x <? ksize)%nat then Raise RuntimeError
  else
    let s := Z.to_nat stride in
    let frames := S ((length x - ksize) / s) in
    Ok (map (fun wc =>
          tabulate frames (fun k =>
            sum_n ksize (fun t => (nth t wc 0 * nth (k * s + t) x 0)%R))) w).

(** The filter tap that frame offset [off] contributes to output sample [j]. *)
Definition tap (w : list R) (j off : nat) : R :=
  if (off <=? j)%nat then nth (j - off) w 0%R else 0%R.

(** [F.conv_transpose1d(inputs, w, stride=stride)] with one output channel:
    [inputs] has one row per input channel and [frames] columns, [w] one
    filter of width [ksize] per input channel; output sample [j] is
    [sum_k sum_c inputs[c][k] * w[c][j - k * stride]] (overlap-add).  torch
    rejects a channel mismatch and a non-positive stride; an empty time axis
    is never passed by [forward] and is taken to be rejected too. *)
Definition conv_transpose1d (inputs : list (list R)) (frames : nat)
    (w : list (list R)) (ksize : nat) (stride : Z) : result (list R) :=
  if negb (length inputs =? length w)%nat then Raise RuntimeError
  else if (stride <=? 0)%Z then Raise RuntimeError
  else if (frames =? 0)%nat then Raise RuntimeError
  else
    let s := Z.to_nat stride in
    Ok (tabulate ((frames - 1) * s + ksize) (fun j =>
          sum_n frames (fun k =>
            sum_n (length inputs) (fun c =>
              (at2 inputs c k * tap (nth c w []) j (k * s))%R)))).

(** The normalisation curve of the synthesis at output sample [j]: the
    overlap-added sum of the squared window over the frames. *)
Definition window_power (w : list R) (frames stride j : nat) : R :=
  sum_n frames (fun k => tap (map (fun v => (v ^ 2)%R) w) j (k * stride)).

(** The number of frames the analysis of a [T]-sample signal yields, and
    the length of the forward pass's output. *)
Definition frames_for (self : STFT) (T : nat) : nat :=
  S ((T + 2 * Z.to_nat (pad self) - Z.to_nat (nframe self))
     / Z.to_nat (nhop self)).

Definition output_length (self : STFT) (T : nat) : nat :=
  (frames_for self T - 1) * Z.to_nat (nhop self) + Z.to_nat (nframe self)
  - 2 * Z.to_nat (pad self).

(** The kernel width, [weight.shape[2]]. *)
Definition ksize_of (w : list (list R)) : nat := length (hd [] w).

(** [STFT.transform] on one batch item.  The result is the pair of the
    real and the imaginary channel (axis 1 of [B,2,T,F]), each a list of
    frames of [F] bins. *)
Definition transform (self : STFT) (x : list R)
  : result (list (list R) * list (list R)) :=
  let x := F_pad (pad self) x in
  out_complex <- conv1d x (weight self) (ksize_of (weight self)) (nhop self) ;;
  let frames := length (hd [] out_complex) in
  let dim := Z.to_nat (nfft self / 2 + 1) in
  let real := firstn dim out_complex in
  let imag := skipn dim out_complex in
  if (length real =? length imag)%nat
  then Ok (transpose frames real, transpose frames imag)
  else Raise RuntimeError.

(** [STFT.inverse] on one batch item. *)
Definition inverse (self : STFT) (spec : list (list R) * list (list R))
  : result (list R) :=
  let (r, i) := spec in
  if negb (length r =? length i)%nat then Raise RuntimeError
  else
    let frames := length r in
    let inputs := transpose (length (hd [] r) + length (hd [] i))
                    (concat_axis1 r i) in
    outputs <- conv_transpose1d inputs frames (inv_weight self)
                 (ksize_of (inv_weight self)) (nhop self) ;;
    let t := map (fun wn => repeat (wn ^ 2)%R frames) (window self) in
    coff <- conv_transpose1d t frames (enframe self)
              (ksize_of (enframe self)) (nhop self) ;;
    if negb (length outputs =? length coff)%nat then Raise RuntimeError
    else
      let outputs :=
        map (fun p => (fst p / (snd p + 1e-8))%R) (combine outputs coff) in
      Ok (if (pad self =? 0)%Z then outputs
          else py_slice (pad self) (- pad self) outputs).

(** [STFT.forward]. *)
Definition forward (self : STFT) (x : list R) : result (list R) :=
  spec <- transform self x ;;
  inverse self spec.

(** [STFT.nLen] on an [int] (Python integers are unbounded):
    [(nlen // nhop) * nhop]; the floor division raises for a zero hop.  The
    list form of the argument, which goes through [torch.tensor], is not
    part of the embedding. *)
Definition nLen (self : STFT) (nlen : Z) : result Z :=
  if (nhop self =? 0)%Z then Raise ZeroDivisionError
  else Ok (nlen / nhop self * nhop self)%Z.

End ConvStft.

Module ApcSnr.

Local Open Scope R_scope.

(** A [B, C, T] tensor: batch, channel (real bins stacked on imaginary bins),
    frame. *)
Definition tensor3 : Type := list (list (list R)).

Definition log10 (x : R) : R := ln x / ln 10.

Definition zipWith {A B C : Type} (f : A -> B -> C) (a : list A) (b : list B)
  : list C :=
  map (fun p => f (fst p) (snd p)) (combine a b).

(** Elementwise product of two tensors of the same shape (both call sites
    multiply a spectrum by the scale tensor the scaler returns for it,
    which has the spectrum's shape; torch's shape errors and singleton
    broadcasting are not part of the embedding). *)
Definition mul3 (a b : tensor3) : tensor3 := zipWith (zipWith (zipWith Rmult)) a b.

(** [x.reshape(x.size(0), -1)]: every batch item flattened, row-major. *)
Definition reshape_rows (x : tensor3) : list (list R) := map (@concat R) x.

(** [torch.sum(a * b, -1, keepdim=True)] on [B, n] tensors. *)
Definition sum_prod (a b : list (list R)) : list R :=
  zipWith (fun r1 r2 => Rsum (zipWith Rmult r1 r2)) a b.

(** [torch.mean] over all elements; the mean of an empty tensor is [nan] in
    torch and is [0 / 0] here. *)
Definition mean (l : list R) : R := Rsum l / INR (length l).

Definition eps_default : R := 1e-8.

(** A tensor of shape [(B, C, T)]. *)
Definition has_shape (x : tensor3) (B C T : nat) : Prop :=
  length x = B /\
  Forall (fun xb => length xb = C /\ Forall (fun row => length row = T) xb) x.

(** The size two axis sizes broadcast to: they are equal, or one of them is
    one; torch raises otherwise. *)
Definition broadcast_dim (a b : nat) : result nat :=
  if (a =? b)%nat then Ok a
  else if (a =? 1)%nat then Ok b
  else if (b =? 1)%nat then Ok a
  else Raise RuntimeError.

(** The position read along an axis of size [len] for the output position
    [i]: an axis of size one is repeated. *)
Definition broadcast_index (len i : nat) : nat :=
  if (len =? 1)%nat then 0%nat else i.

(** One axis of a binary operation under broadcasting: [f] combines the
    two slices met at every output position. *)
Definition broadcast_axis {A B C : Type} (f : A -> B -> result C)
    (da : A) (db : B) (a : list A) (b : list B) : result (list C) :=
  n <- broadcast_dim (length a) (length b) ;;
  ConvStft.mapM
    (fun i => f (nth (broadcast_index (length a) i) a da)
                (nth (broadcast_index (length b) i) b db))
    (seq 0 n).

(** [f(a, b)] elementwise on two tensors of two axes, the way torch
    broadcasts [a * b], [a - b] and [a / b]. *)
Definition broadcast2 (f : R -> R -> R) (a b : list (list R))
  : result (list (list R)) :=
  broadcast_axis (broadcast_axis (fun x y => Ok (f x y)) 0 0) [] [] a b.

(** [torch.sum(x, -1, keepdim=True)]. *)
Definition sum_keepdim (x : list (list R)) : list (list R) :=
  map (fun row => [Rsum row]) x.

(** [x.reshape(x.size(0), -1)] with its error: for an empty batch the size
    that [-1] stands for is ambiguous, and torch raises. *)
Definition reshape_batch (x : tensor3) : result (list (list R)) :=
  if (length x =? 0)%nat then Raise RuntimeError else Ok (reshape_rows x).

(** [stft_snr(est, clean, eps)], line by line, up to the local [snr], a
    tensor of shape [(B, 1)]; its entries are returned in order. *)
Definition snr_local (est clean : tensor3) (eps : R) : result (list R) :=
  s1 <- reshape_batch est ;;
  s2 <- reshape_batch clean ;;
  s1_s2 <- broadcast2 Rmult s1 s2 ;;
  let s1_s2_norm := sum_keepdim s1_s2 in
  s2_s2 <- broadcast2 Rmult s2 s2 ;;
  let s2_s2_norm := sum_keepdim s2_s2 in
  ratio <- broadcast2 (fun a b => a / (b + eps)) s1_s2_norm s2_s2_norm ;;
  s_target <- broadcast2 Rmult ratio s2 ;;
  e_nosie <- broadcast2 Rminus s1 s_target ;;
  target_sq <- broadcast2 Rmult s_target s_target ;;
  let target_norm := sum_keepdim target_sq in
  noise_sq <- broadcast2 Rmult e_nosie e_nosie ;;
  let noise_norm := sum_keepdim noise_sq in
  snr <- broadcast2 (fun t n => 10 * log10 (t / (n + eps) + eps))
           target_norm noise_norm ;;
  Ok (concat snr).

(** [stft_snr(est, clean, eps)]: the negative mean of the local [snr]. *)
Definition stft_snr (est clean : tensor3) (eps : R) : result R :=
  snr <- snr_local est clean eps ;;
  Ok (- mean snr).

(** The local [snr] of [stft_snr] for [est] and [clean] of the same shape,
    where nothing is broadcast and every operation is elementwise: one
    entry per batch item. *)
Definition snr_tensor (est clean : tensor3) (eps : R) : list R :=
  let s1 := reshape_rows est in
  let s2 := reshape_rows clean in
  let s1_s2_norm := sum_prod s1 s2 in
  let s2_s2_norm := sum_prod s2 s2 in
  let s_target :=
    zipWith (fun c row => map (fun v => c * v) row)
      (zipWith (fun a b => a / (b + eps)) s1_s2_norm s2_s2_norm) s2 in
  let e_nosie := zipWith (zipWith Rminus) s1 s_target in
  let target_norm := sum_prod s_target s_target in
  let noise_norm := sum_prod e_nosie e_nosie in
  zipWith (fun t n => 10 * log10 (t / (n + eps) + eps))
    target_norm noise_norm.

(** [a * x] and [-x] on a tensor. *)
Definition scale3 (a : R) (x : tensor3) : tensor3 :=
  map (map (map (fun v => a * v))) x.


(** [power(x)]: the channel axis is cut in two chunks of [ceil(C/2)] rows,
    which are stacked, squared and summed.  With an odd [C >= 3] the chunks
    differ in size and [torch.stack] raises; with [C = 1] there is a single
    chunk. *)
Definition power1 (x : list (list R)) : result (list (list R)) :=
  let C := length x in
  let cs := Nat.div2 (C + 1) in
  let re := firstn cs x in
  let im := skipn cs x in
  if (C =? 1)%nat then Ok (map (map (fun v => v ^ 2)) re)
  else if (length re =? length im)%nat
  then Ok (zipWith (zipWith (fun a b => a ^ 2 + b ^ 2)) re im)
  else Raise RuntimeError.

Definition power (x : tensor3) : result tensor3 := ConvStft.mapM power1 x.

(** The configuration of one [ConvSTFT] engine (window length, hop, FFT
    length; window name and feature type are the same for all of them). *)
Record conv_cfg : Type := mkCfg {
  win_len : Z;
  win_inc : Z;
  fft_len : Z
}.

(** A Python sequence passed as [hops]: a list or a tuple (the default is the
    empty tuple). *)
Inductive py_seq : Type :=
| PyList (l : list Z)
| PyTuple (l : list Z).

Definition seq_items (s : py_seq) : list Z :=
  match s with PyList l | PyTuple l => l end.

(** [x in s]. *)
Definition py_in (x : Z) (l : list Z) : bool := existsb (Z.eqb x) l.

(** [list.remove(x)]: drops the first item equal to [x]. *)
Fixpoint list_remove (x : Z) (l : list Z) : list Z :=
  match l with
  | [] => []
  | y :: l' => if (y =? x)%Z then l' else y :: list_remove x l'
  end.

(** The state of an [APC_SNR_multi_filter] module that [forward] reads. *)
Record APC_SNR_multi_filter : Type := mkMulti {
  multi_hop : py_seq;
  model_stft : conv_cfg;
  stfts : list conv_cfg
}.

(** [APC_SNR_multi_filter.__init__]: the hops of the engines it builds (the
    constructors of the scaler, the scorer and the engines are taken to
    succeed).  A tuple has no [remove] method. *)
Definition APC_SNR_multi_filter_init (model_hop model_winlen mag_bins : Z)
    (hops : py_seq) : result APC_SNR_multi_filter :=
  let model := mkCfg model_winlen model_hop (mag_bins * 2) in
  multi_hop <-
    (if py_in model_hop (seq_items hops) then
       match hops with
       | PyList l => Ok (PyList (list_remove model_hop l))
       | PyTuple _ => Raise AttributeError
       end
     else Ok hops) ;;
  Ok (mkMulti multi_hop model
        (map (fun hop => mkCfg model_winlen hop (mag_bins * 2))
             (seq_items multi_hop))).

(** Hop sizes of the auxiliary engines, and of all engines (the resolution
    set: model first). *)
Definition aux_hops (m : APC_SNR_multi_filter) : list Z :=
  map win_inc (stfts m).

Definition resolution_hops (m : APC_SNR_multi_filter) : list Z :=
  win_inc (model_stft m) :: aux_hops m.

(** The state of an [APC_SNR] module (the voice-activity variant). *)
Record APC_SNR : Type := mkApc {
  winlen : Z;
  hop : Z;
  apc_model_stft : conv_cfg
}.

Definition APC_SNR_init (model_hop model_winlen mag_bins : Z) : APC_SNR :=
  mkApc model_winlen model_hop (mkCfg model_winlen model_hop (mag_bins * 2)).

(** An assignment [dst[...] = src] along one axis of width [width]: the
    source must have that width, or width one (it is then broadcast). *)
Definition assign_row (width : nat) (src : list R) : result (list R) :=
  if (length src =? width)%nat then Ok src
  else if (length src =? 1)%nat then Ok (repeat (hd 0 src) width)
  else Raise RuntimeError.

(** The voice-activity part of [APC_SNR.forward] for one batch item:
    [mix_vad] is the item's row, [est_frames] is [est.shape[2]].  The result
    is the item's row of [vad_mask] (trailing singleton axis dropped). *)
Definition vad_mask_row (self : APC_SNR) (mix_vad : list R)
    (est_frames : nat) : result (list R) :=
  if (hop self =? 0)%Z then Raise ZeroDivisionError
  else
    let frame_num :=
      (1 + (Z.of_nat (length mix_vad) - winlen self) / hop self)%Z in
    if ((frame_num <? 0) || (winlen self <? 0))%Z then Raise RuntimeError
    else
      frames <-
        ConvStft.mapM
          (fun index : nat =>
             assign_row (Z.to_nat (winlen self))
               (py_slice (Z.of_nat index * hop self)
                         (Z.of_nat index * hop self + winlen self) mix_vad))
          (seq 0 (Z.to_nat frame_num)) ;;
      let vad_frames := map Rsum frames in
      let vad_label :=
        map (fun v => if Rlt_dec 0 v then 1 else 0.1) vad_frames in
      let n := Nat.min (length vad_label) est_frames in
      vad_label <- assign_row n vad_label ;;
      Ok (vad_label ++ repeat 0 (est_frames - n)).

Section Compositor.

(** The forward pass of the [ConvSTFT] engine with a given configuration,
    on a [B, T] batch of signals; the result is [B, 2F, T']. *)
Variable ConvSTFT : conv_cfg -> list (list R) -> tensor3.

(** [AcousticScaler.forward]: the two scale tensors. *)
Variable scaler : tensor3 -> tensor3 -> tensor3 * tensor3.

(** [SingleSrcPMSQE.forward], its result flattened; without and with a
    frame mask. *)
Variable pmsqe : tensor3 -> tensor3 -> list R.
Variable pmsqe_vad : tensor3 -> tensor3 -> list (list R) -> list R.

(** [APC_SNR_multi_filter.pmsqe_score]. *)
Definition pmsqe_score (est_stft clean_stft : tensor3) : result R :=
  mag_est <- power est_stft ;;
  mag_clean <- power clean_stft ;;
  Ok (mean (pmsqe mag_est mag_clean)).

(** One pass of the loop body of [forward]: both accumulators updated at
    the resolution [filter]. *)
Definition accumulate (est_time_domain clean : list (list R))
    (acc : result (R * R)) (filter : conv_cfg) : result (R * R) :=
  a <- acc ;;
  let clean_stft := ConvSTFT filter clean in
  let est_stft := ConvSTFT filter est_time_domain in
  p <- pmsqe_score est_stft clean_stft ;;
  let scales := scaler est_stft clean_stft in
  l <- stft_snr (mul3 est_stft (fst scales))
                (mul3 clean_stft (snd scales)) eps_default ;;
  Ok (fst a + l, snd a + p).

(** [APC_SNR_multi_filter.forward]. *)
Definition multi_forward (self : APC_SNR_multi_filter)
    (est_time_domain clean : list (list R)) : result (R * R) :=
  let est := ConvSTFT (model_stft self) est_time_domain in
  let clean_stft := ConvSTFT (model_stft self) clean in
  pmsqe_score0 <- pmsqe_score est clean_stft ;;
  let scales := scaler est clean_stft in
  let est := mul3 est (fst scales) in
  let clean_stft := mul3 clean_stft (snd scales) in
  stft_scaled_snr <- stft_snr est clean_stft eps_default ;;
  acc <- fold_left (accumulate est_time_domain clean) (stfts self)
           (Ok (stft_scaled_snr, pmsqe_score0)) ;;
  Ok (fst acc / INR (length (stfts self) + 1),
      snd acc / INR (length (stfts self) + 1)).

(** Steps 1 to 3 of the specification's [score] at one resolution: the
    scaled SNR loss and the perceptual score of that resolution alone. *)
Definition resolution_score (est_time_domain clean : list (list R))
    (cfg : conv_cfg) : result (R * R) :=
  let est := ConvSTFT cfg est_time_domain in
  let clean_stft := ConvSTFT cfg clean in
  p <- pmsqe_score est clean_stft ;;
  let scales := scaler est clean_stft in
  l <- stft_snr (mul3 est (fst scales)) (mul3 clean_stft (snd scales))
         eps_default ;;
  Ok (l, p).

(** [APC_SNR.pmsqe_score] and [APC_SNR.forward]. *)
Definition pmsqe_score_vad (est_stft clean_stft : tensor3)
    (vad_mask : list (list R)) : result R :=
  mag_est <- power est_stft ;;
  mag_clean <- power clean_stft ;;
  Ok (mean (pmsqe_vad mag_est mag_clean vad_mask)).

Definition apc_forward (self : APC_SNR)
    (est_time_domain clean mix_vad : list (list R)) : result (R * R) :=
  let clean_stft := ConvSTFT (apc_model_stft self) clean in
  let est := ConvSTFT (apc_model_stft self) est_time_domain in
  let est_frames := length (hd [] (hd [] est)) in
  vad_mask <-
    ConvStft.mapM (fun row => vad_mask_row self row est_frames) mix_vad ;;
  pmsqe_score <- pmsqe_score_vad est clean_stft vad_mask ;;
  let scales := scaler est clean_stft in
  let est := mul3 est (fst scales) in
  let clean_stft := mul3 clean_stft (snd scales) in
  stft_scaled_snr <- stft_snr est clean_stft eps_default ;;
  Ok (stft_scaled_snr, pmsqe_score).

End Compositor.

End ApcSnr.

(** ** The SNR loss as the specification words it *)

Module SnrSpec.

Local Open Scope R_scope.

(** Inner product and squared norm of flattened spectra. *)
Definition dot (a b : list R) : R :=
  Rsum (map (fun p => fst p * snd p) (combine a b)).

Definition norm2 (a : list R) : R := dot a a.

(** [target = (est . clean) / (clean . clean + eps) * clean]. *)
Definition target (est clean : list R) (eps : R) : list R :=
  map (fun v => dot est clean / (dot clean clean + eps) * v) clean.

(** [error = est - target]. *)
Definition error (est clean : list R) (eps : R) : list R :=
  map (fun p => fst p - snd p) (combine est (target est clean eps)).

(** [snr = 10 log10 (|target|^2 / (|error|^2 + eps) + eps)]. *)
Definition snr (est clean : list R) (eps : R) : R :=
  10 * ApcSnr.log10
         (norm2 (target est clean eps) / (norm2 (error est clean eps) + eps)
          + eps).

End SnrSpec.

(** ** The SNR loss of a batch as the specification words it

    Written with the Standard Library alone, so that it shares nothing
    with the embedding of [stft_snr] it is compared with. *)

Module LossFormula.

Local Open Scope R_scope.

Definition eps : R := 1e-8.

(** [a . b] and [|a|^2]. *)
Definition inner (a b : list R) : R :=
  fold_right (fun p acc => fst p * snd p + acc) 0 (combine a b).

Definition sq_norm (a : list R) : R := inner a a.

(** [target = (est . clean) / (clean . clean + eps) * clean]. *)
Definition target (est clean : list R) : list R :=
  map (fun v => inner est clean / (inner clean clean + eps) * v) clean.

(** [error = est - target]. *)
Definition error (est clean : list R) : list R :=
  map (fun p => fst p - snd p) (combine est (target est clean)).

(** [snr = 10 log10 (|target|^2 / (|error|^2 + eps) + eps)]. *)
Definition snr (est clean : list R) : R :=
  10 * (ln (sq_norm (target est clean) / (sq_norm (error est clean) + eps)
            + eps) / ln 10).

(** The loss of a batch: minus the sum of the items' [snr] divided by the
    number of items. *)
Definition loss (est clean : list (list R)) : R :=
  - (fold_right (fun p acc => snr (fst p) (snd p) + acc) 0
       (combine est clean)
     / INR (length clean)).

End LossFormula.

(** ** Concrete library instances used to run the engine *)

Module Lib.

(** [scipy.signal.get_window] restricted to the Hann family: any other name
    is rejected, as is a negative length. *)
Definition get_window_hann (name : string) (n : Z) : result (list R) :=
  if (n <? 0)%Z then Raise ValueError
  else if (String.eqb name "hann" || String.eqb name "hanning")%bool
  then Ok (ConvStft.hann (Z.to_nat n))
  else Raise ValueError.

(** The pseudo-inverse of a matrix whose columns are orthogonal with squared
    norm [c]: its transpose divided by [c]. *)
Definition pinv_orth (c : R) (cols : nat) (k : list (list R)) : list (list R) :=
  map (map (fun v => (v / c)%R)) (ConvStft.transpose cols k).

(** Stand-ins for the three collaborators of the compositor, to run it: an
    engine with one bin whose real channel is the signal, a scaler that
    returns all-one scales, and a perceptual scorer that scores every batch
    item zero. *)
Definition one_bin_stft (cfg : ApcSnr.conv_cfg) (x : list (list R))
  : ApcSnr.tensor3 :=
  map (fun sig => [sig; map (fun _ => 0%R) sig]) x.

Definition unit_scaler (a b : ApcSnr.tensor3)
  : ApcSnr.tensor3 * ApcSnr.tensor3 :=
  (map (map (map (fun _ => 1%R))) a, map (map (map (fun _ => 1%R))) b).

Definition zero_pmsqe (a b : ApcSnr.tensor3) : list R :=
  map (fun _ => 0%R) a.

Definition zero_pmsqe_vad (a b : ApcSnr.tensor3) (mask : list (list R))
  : list R :=
  map (fun _ => 0%R) a.

(** A malformed engine that returns three channels for every signal, to
    run the compositor into the failure of [power]. *)
Definition three_channel_stft (cfg : ApcSnr.conv_cfg) (x : list (list R))
  : ApcSnr.tensor3 :=
  map (fun sig => [sig; sig; sig]) x.

End Lib.

Import ConvStft ApcSnr.

Unset Implicit Arguments.

(** * Properties *)

(** ** Generic lemmas *)

Lemma mapM_Ok {A B : Type} (f : A -> result B) (g : A -> B) (l : list A) :
  (forall x, In x l -> f x = Ok (g x)) -> mapM f l = Ok (map g l).
Proof.
  induction l as [|a l IH]; intros H; [reflexivity|].
  cbn [mapM map]. rewrite (H a) by now left. cbn [bind].
  rewrite IH by (intros x Hx; apply H; now right). reflexivity.
Qed.

Lemma length_tabulate {A : Type} (n : nat) (f : nat -> A) :
  length (tabulate n f) = n.
Proof. unfold tabulate. now rewrite length_map, length_seq. Qed.

Lemma nth_tabulate {A : Type} (n i : nat) (f : nat -> A) (d : A) :
  (i < n)%nat -> nth i (tabulate n f) d = f i.
Proof.
  intros Hi. unfold tabulate.
  rewrite (nth_indep _ d (f 0%nat)) by now rewrite length_map, length_seq.
  rewrite map_nth, seq_nth; auto.
Qed.

Lemma bind_Ok {A B : Type} (m : result A) (k : A -> result B) (b : B) :
  bind m k = Ok b -> exists a, m = Ok a /\ k a = Ok b.
Proof. destruct m as [a|e]; simpl; [eauto | discriminate]. Qed.

(** ** C8: the default transform size *)

(** C8.  For every frame length [nframe >= 1], when [nfft] is not given the
    engine's transform size is a power of two, is at least [nframe], is no
    larger than any other power of two that is at least [nframe], and equals
    [nframe] when [nframe] is itself a power of two. *)
Theorem default_nfft_smallest_pow2
    (get_window : string -> Z -> result (list R))
    (pinv : list (list R) -> list (list R)) (nframe : Z) :
  (1 <= nframe)%Z ->
  exists m : Z,
    default_nfft nframe = Ok m /\
    (exists k, 0 <= k /\ m = 2 ^ k)%Z /\
    (nframe <= m)%Z /\
    (forall k, 0 <= k -> nframe <= 2 ^ k -> m <= 2 ^ k)%Z /\
    (forall k, 0 <= k -> nframe = 2 ^ k -> m = nframe)%Z /\
    (forall nhop win center s,
        STFT_init get_window pinv nframe nhop None win center = Ok s ->
        nfft s = m).
Proof.
  intros Hn. exists (2 ^ Z.log2_up nframe)%Z.
  assert (Hd : default_nfft nframe = Ok (2 ^ Z.log2_up nframe)%Z).
  { unfold default_nfft.
    destruct (Z.ltb_spec nframe 0); [lia|].
    destruct (Z.eqb_spec nframe 0); [lia|]. reflexivity. }
  split; [exact Hd|].
  split; [exists (Z.log2_up nframe); split; [apply Z.log2_up_nonneg | reflexivity]|].
  split; [apply Z.log2_up_le_pow2; lia|].
  split.
  { intros k Hk Hle. apply Z.pow_le_mono_r; [lia|].
    apply Z.log2_up_le_pow2; lia. }
  split.
  { intros k Hk ->. now rewrite Z.log2_up_pow2. }
  intros nhop win center s. unfold STFT_init. rewrite Hd. simpl.
  intros H.
  apply bind_Ok in H as (kw & _ & H).
  apply bind_Ok in H as (ik & _ & H).
  apply bind_Ok in H as (eye & _ & H).
  injection H as <-. reflexivity.
Qed.

Lemma default_nfft_smallest_pow2_witness :
  exists m : Z,
    default_nfft 400 = Ok m /\
    (exists k, 0 <= k /\ m = 2 ^ k)%Z /\
    (400 <= m)%Z /\
    (forall k, 0 <= k -> 400 <= 2 ^ k -> m <= 2 ^ k)%Z /\
    (forall k, 0 <= k -> 400 = 2 ^ k -> m = 400)%Z /\
    (forall nhop win center s,
        STFT_init Lib.get_window_hann (Lib.pinv_orth 2 2) 400 nhop None win
          center = Ok s ->
        nfft s = m).
Proof.
  apply (default_nfft_smallest_pow2 Lib.get_window_hann (Lib.pinv_orth 2 2) 400).
  lia.
Defined.

Example default_nfft_400 : default_nfft 400 = Ok 512%Z.
Proof. reflexivity. Qed.

Example default_nfft_512 : default_nfft 512 = Ok 512%Z.
Proof. reflexivity. Qed.

(** ** C10: the window name ["hann sqrt"] *)

(** C10.  For every [nframe], [nhop], [nfft] and [center], building the
    kernels for the window name ["hann sqrt"] raises [NameError] at the
    window step, before any kernel is computed, and so constructing the
    engine with that name raises: no engine, hence no square-root window, is
    ever produced from the name. *)
Theorem hann_sqrt_name_raises
    (get_window : string -> Z -> result (list R))
    (pinv : list (list R) -> list (list R)) :
  (forall nframe nfft inverse,
      init_conv_stft_kernels get_window pinv nframe nfft
        (WinName "hann sqrt") inverse = Raise NameError) /\
  (forall nframe nhop nfft center,
      raises (STFT_init get_window pinv nframe nhop nfft
                (WinName "hann sqrt") center)) /\
  (forall nframe nhop nfft center,
      STFT_init get_window pinv nframe nhop (Some nfft)
        (WinName "hann sqrt") center = Raise NameError).
Proof.
  assert (K : forall nframe nfft inverse,
             init_conv_stft_kernels get_window pinv nframe nfft
               (WinName "hann sqrt") inverse = Raise NameError).
  { intros. unfold init_conv_stft_kernels. reflexivity. }
  split; [exact K|]. split.
  - intros nframe nhop nfft center. unfold STFT_init.
    destruct nfft as [n|]; cbn [bind].
    + rewrite K. now exists NameError.
    + destruct (default_nfft nframe) as [m|e]; cbn [bind].
      * rewrite K. now exists NameError.
      * now exists e.
  - intros. unfold STFT_init. cbn [bind]. now rewrite K.
Qed.

(** ** C3: the resolution set of the multi-filter compositor *)

Lemma py_in_spec (x : Z) (l : list Z) : py_in x l = true <-> In x l.
Proof.
  unfold py_in. rewrite existsb_exists. split.
  - intros (y & Hy & E). apply Z.eqb_eq in E. now subst.
  - intros H. exists x. split; [assumption | apply Z.eqb_refl].
Qed.

Lemma list_remove_absent (x : Z) (l : list Z) :
  ~ In x l -> list_remove x l = l.
Proof.
  induction l as [|y l IH]; simpl; intros H; [reflexivity|].
  destruct (Z.eqb_spec y x) as [->|Hne]; [exfalso; auto|].
  f_equal. apply IH. tauto.
Qed.

Lemma list_remove_In (x y : Z) (l : list Z) :
  In y (list_remove x l) -> In y l.
Proof.
  induction l as [|z l IH]; simpl; [tauto|].
  destruct (Z.eqb_spec z x); simpl; intuition.
Qed.

Lemma list_remove_In_neq (x y : Z) (l : list Z) :
  y <> x -> In y l -> In y (list_remove x l).
Proof.
  intros Hne. induction l as [|z l IH]; simpl; [tauto|].
  destruct (Z.eqb_spec z x) as [->|Hz]; simpl; intuition congruence.
Qed.

Lemma list_remove_once (x : Z) (l : list Z) :
  (count_occ Z.eq_dec l x <= 1)%nat -> ~ In x (list_remove x l).
Proof.
  induction l as [|y l IH]; simpl; [tauto|].
  destruct (Z.eq_dec y x) as [->|Hne]; intros Hc.
  - rewrite Z.eqb_refl. apply (count_occ_not_In Z.eq_dec). lia.
  - destruct (Z.eqb_spec y x) as [E|_]; [contradiction|].
    simpl. intros [E|Hin]; [contradiction | now apply IH].
Qed.

Lemma list_remove_NoDup (x : Z) (l : list Z) :
  NoDup l -> NoDup (list_remove x l).
Proof.
  induction 1 as [|y l Hy Hl IH]; simpl; [constructor|].
  destruct (Z.eqb_spec y x); [assumption|].
  constructor; [|assumption].
  intros Hin. apply Hy. eapply list_remove_In, Hin.
Qed.

Lemma list_remove_NoDup_inv (x : Z) (l : list Z) :
  (count_occ Z.eq_dec l x <= 1)%nat ->
  NoDup (list_remove x l) -> NoDup l.
Proof.
  induction l as [|y l IH]; simpl; [constructor|].
  destruct (Z.eq_dec y x) as [->|Hne]; intros Hc.
  - rewrite Z.eqb_refl. intros Hl. constructor; [|assumption].
    apply (count_occ_not_In Z.eq_dec). lia.
  - destruct (Z.eqb_spec y x) as [E|_]; [contradiction|].
    intros H. inversion H as [|? ? Hy Hl]; subst.
    constructor; [|now apply IH].
    intros Hin. apply Hy. now apply list_remove_In_neq.
Qed.

Lemma aux_hops_init (winlen fft : Z) (l : list Z) :
  map win_inc (map (fun hop => mkCfg winlen hop fft) l) = l.
Proof. rewrite map_map. simpl. apply map_id. Qed.

(** The constructor applied to a list of hops: the auxiliary engines are the
    hops left after one [remove]. *)
Lemma multi_init_list (model_hop model_winlen mag_bins : Z) (hops : list Z) :
  exists m,
    APC_SNR_multi_filter_init model_hop model_winlen mag_bins (PyList hops)
      = Ok m /\
    win_inc (model_stft m) = model_hop /\
    aux_hops m = list_remove model_hop hops.
Proof.
  unfold APC_SNR_multi_filter_init, aux_hops. simpl seq_items.
  destruct (py_in model_hop hops) eqn:Hin; cbn [bind].
  - eexists. split; [reflexivity|]. simpl. split; [reflexivity|].
    apply aux_hops_init.
  - eexists. split; [reflexivity|]. simpl. split; [reflexivity|].
    rewrite aux_hops_init. symmetry. apply list_remove_absent.
    intros H. apply py_in_spec in H. congruence.
Qed.

(** C3, as stated, fails: the constructor only removes [model_hop]; a hop
    size repeated in [hops] yields one auxiliary engine per occurrence, so
    with [hops = [8, 8]] and [model_hop = 128] the hop size 8 is counted
    twice in the resolution set. *)
Lemma multi_init_repeated_hop_counted_twice :
  exists m,
    APC_SNR_multi_filter_init 128 512 256 (PyList [8; 8]%Z) = Ok m /\
    resolution_hops m = [128; 8; 8]%Z /\
    ~ NoDup (resolution_hops m).
Proof.
  eexists. split; [reflexivity|]. split; [reflexivity|].
  unfold resolution_hops, aux_hops. simpl. intros H.
  inversion H as [|? ? _ H1]; subst.
  inversion H1 as [|? ? H2 _]; subst.
  apply H2. now left.
Qed.

(** [list.remove] drops one occurrence only: with [model_hop] listed twice,
    an auxiliary engine at the model's hop size remains. *)
Example multi_init_model_hop_listed_twice :
  exists m,
    APC_SNR_multi_filter_init 128 512 256 (PyList [128; 64; 128]%Z) = Ok m /\
    aux_hops m = [64; 128]%Z.
Proof. eexists. split; reflexivity. Qed.

(** The default [hops = ()]: no auxiliary engine. *)
Example multi_init_default_hops :
  exists m,
    APC_SNR_multi_filter_init 128 512 256 (PyTuple []) = Ok m /\
    stfts m = [].
Proof. eexists. split; reflexivity. Qed.

(** A tuple that contains [model_hop] cannot be edited in place. *)
Example multi_init_tuple_with_model_hop :
  APC_SNR_multi_filter_init 128 512 256 (PyTuple [64; 128]%Z)
  = Raise AttributeError.
Proof. reflexivity. Qed.

(** C3 (amended).  For every list [hops] in which [model_hop] occurs at most
    once, construction succeeds, the auxiliary engines are built for [hops]
    with that occurrence removed, none of them has the model's hop size, and
    the resolution set (model plus auxiliaries) is free of repeated hop sizes
    exactly when [hops] is. *)
Theorem multi_init_resolution_set
    (model_hop model_winlen mag_bins : Z) (hops : list Z) :
  (count_occ Z.eq_dec hops model_hop <= 1)%nat ->
  exists m,
    APC_SNR_multi_filter_init model_hop model_winlen mag_bins (PyList hops)
      = Ok m /\
    aux_hops m = list_remove model_hop hops /\
    ~ In model_hop (aux_hops m) /\
    (NoDup (resolution_hops m) <-> NoDup hops).
Proof.
  intros Hc.
  destruct (multi_init_list model_hop model_winlen mag_bins hops)
    as (m & Hm & Hmodel & Haux).
  exists m. split; [exact Hm|]. split; [exact Haux|].
  assert (Hnot : ~ In model_hop (aux_hops m)).
  { rewrite Haux. now apply list_remove_once. }
  split; [exact Hnot|].
  unfold resolution_hops. rewrite Hmodel. split.
  - intros H. inversion H as [|? ? _ Hl]; subst.
    rewrite Haux in Hl. now apply list_remove_NoDup_inv in Hl.
  - intros H. constructor; [exact Hnot|].
    rewrite Haux. now apply list_remove_NoDup.
Qed.

Lemma multi_init_resolution_set_witness :
  exists m,
    APC_SNR_multi_filter_init 128 512 256 (PyList [8; 16; 128; 64]%Z)
      = Ok m /\
    aux_hops m = list_remove 128 [8; 16; 128; 64]%Z /\
    ~ In 128%Z (aux_hops m) /\
    (NoDup (resolution_hops m) <-> NoDup [8; 16; 128; 64]%Z).
Proof.
  apply (multi_init_resolution_set 128 512 256 [8; 16; 128; 64]%Z).
  simpl. lia.
Defined.

(** ** C7: the compositor's score is the unweighted mean over resolutions *)

Section Averaging.

Variable ConvSTFT : conv_cfg -> list (list R) -> tensor3.
Variable scaler : tensor3 -> tensor3 -> tensor3 * tensor3.
Variable pmsqe : tensor3 -> tensor3 -> list R.

Let score := resolution_score ConvSTFT scaler pmsqe.
Let step := accumulate ConvSTFT scaler pmsqe.

Lemma accumulate_score (et cl : list (list R)) (a b : R) (cfg : conv_cfg) :
  step et cl (Ok (a, b)) cfg =
  bind (score et cl cfg) (fun r => Ok ((a + fst r)%R, (b + snd r)%R)).
Proof.
  unfold step, score, accumulate, resolution_score. cbn [bind fst snd].
  destruct (pmsqe_score pmsqe (ConvSTFT cfg et) (ConvSTFT cfg cl));
    cbn [bind]; [|reflexivity].
  destruct (stft_snr _ _ eps_default); reflexivity.
Qed.

Lemma fold_accumulate_raise (et cl : list (list R)) (e : PyError)
    (l : list conv_cfg) :
  fold_left (step et cl) l (Raise e) = Raise e.
Proof. induction l as [|c l IH]; simpl; [reflexivity | exact IH]. Qed.

Lemma fold_accumulate (et cl : list (list R)) (l : list conv_cfg) :
  forall a b : R,
    fold_left (step et cl) l (Ok (a, b)) =
    bind (mapM (score et cl) l) (fun rs =>
      Ok ((a + Rsum (map fst rs))%R, (b + Rsum (map snd rs))%R)).
Proof.
  induction l as [|c l IH]; intros a b.
  - simpl. now rewrite !Rplus_0_r.
  - cbn [fold_left mapM]. rewrite accumulate_score.
    destruct (score et cl c) as [[s p]|e]; cbn [bind fst snd].
    + rewrite IH. destruct (mapM (score et cl) l) as [rs|e]; cbn [bind].
      * cbn [map Rsum fold_right fst snd]. unfold Rsum.
        f_equal. f_equal; ring.
      * reflexivity.
    + apply fold_accumulate_raise.
Qed.

(** C7.  [forward] returns both accumulators divided by the number of
    resolutions: the arithmetic means of the per-resolution SNR losses and
    of the per-resolution perceptual scores over the model engine and the
    auxiliary engines; with no auxiliary engine the result is exactly the
    single-resolution computation at the model engine. *)
Theorem multi_forward_mean (self : APC_SNR_multi_filter)
    (et cl : list (list R)) :
  multi_forward ConvSTFT scaler pmsqe self et cl =
    bind (mapM (score et cl) (model_stft self :: stfts self)) (fun rs =>
      Ok ((Rsum (map fst rs) / INR (length (model_stft self :: stfts self)))%R,
          (Rsum (map snd rs) / INR (length (model_stft self :: stfts self)))%R))
  /\
  (stfts self = [] ->
   multi_forward ConvSTFT scaler pmsqe self et cl
     = score et cl (model_stft self)).
Proof.
  assert (E : multi_forward ConvSTFT scaler pmsqe self et cl =
    bind (mapM (score et cl) (model_stft self :: stfts self)) (fun rs =>
      Ok ((Rsum (map fst rs) / INR (length (model_stft self :: stfts self)))%R,
          (Rsum (map snd rs) / INR (length (model_stft self :: stfts self)))%R))).
  { unfold multi_forward. cbn [mapM]. unfold score at 1, resolution_score.
    destruct (pmsqe_score pmsqe (ConvSTFT (model_stft self) et)
                (ConvSTFT (model_stft self) cl)) as [p0|e];
      cbn [bind]; [|reflexivity].
    destruct (stft_snr _ _ eps_default) as [l0|e];
      cbn [bind]; [|reflexivity].
    fold step. rewrite fold_accumulate. fold score.
    destruct (mapM (score et cl) (stfts self)) as [rs|e];
      cbn [bind]; [|reflexivity].
    cbn [map fst snd length Rsum fold_right].
    replace (length (stfts self) + 1)%nat with (S (length (stfts self)))
      by lia.
    reflexivity. }
  split; [exact E|].
  intros Hnil. rewrite E, Hnil. cbn [mapM].
  destruct (score et cl (model_stft self)) as [[s p]|e];
    cbn [bind]; [|reflexivity].
  cbn [map fst snd length Rsum fold_right INR].
  f_equal. f_equal; field.
Qed.

End Averaging.

Lemma multi_forward_mean_witness :
  multi_forward Lib.one_bin_stft Lib.unit_scaler Lib.zero_pmsqe
    (mkMulti (PyList []) (mkCfg 512 128 512) []) [[1; 2]%R] [[1; 2]%R]
  = resolution_score Lib.one_bin_stft Lib.unit_scaler Lib.zero_pmsqe
      [[1; 2]%R] [[1; 2]%R] (mkCfg 512 128 512).
Proof.
  apply (proj2 (multi_forward_mean Lib.one_bin_stft Lib.unit_scaler
                  Lib.zero_pmsqe
                  (mkMulti (PyList []) (mkCfg 512 128 512) [])
                  [[1; 2]%R] [[1; 2]%R])).
  reflexivity.
Defined.

(** ** The elementwise SNR and its closed form *)

Lemma combine_map_concat (a b : tensor3) :
  combine (reshape_rows a) (reshape_rows b) =
  map (fun p => (concat (fst p), concat (snd p))) (combine a b).
Proof.
  unfold reshape_rows. revert b.
  induction a as [|x a IH]; intros [|y b]; simpl; try reflexivity.
  now rewrite IH.
Qed.

Lemma zipWith_cons {A B C : Type} (f : A -> B -> C) (a : A) (b : B)
    (l : list A) (m : list B) :
  zipWith f (a :: l) (b :: m) = f a b :: zipWith f l m.
Proof. reflexivity. Qed.

Lemma sum_prod_cons (a b : list R) (l m : list (list R)) :
  sum_prod (a :: l) (b :: m) = Rsum (zipWith Rmult a b) :: sum_prod l m.
Proof. reflexivity. Qed.

(** The local [snr] of the code, row by row, is the specification's [snr]
    of the flattened rows. *)
Lemma snr_rows (s1 s2 : list (list R)) (eps : R) :
  zipWith (fun t n => (10 * log10 (t / (n + eps) + eps))%R)
    (sum_prod
       (zipWith (fun c row => map (fun v => (c * v)%R) row)
          (zipWith (fun a b => (a / (b + eps))%R)
             (sum_prod s1 s2) (sum_prod s2 s2)) s2)
       (zipWith (fun c row => map (fun v => (c * v)%R) row)
          (zipWith (fun a b => (a / (b + eps))%R)
             (sum_prod s1 s2) (sum_prod s2 s2)) s2))
    (sum_prod
       (zipWith (zipWith Rminus) s1
          (zipWith (fun c row => map (fun v => (c * v)%R) row)
             (zipWith (fun a b => (a / (b + eps))%R)
                (sum_prod s1 s2) (sum_prod s2 s2)) s2))
       (zipWith (zipWith Rminus) s1
          (zipWith (fun c row => map (fun v => (c * v)%R) row)
             (zipWith (fun a b => (a / (b + eps))%R)
                (sum_prod s1 s2) (sum_prod s2 s2)) s2)))
  = map (fun p => SnrSpec.snr (fst p) (snd p) eps) (combine s1 s2).
Proof.
  revert s2. induction s1 as [|a s1 IH]; intros [|b s2]; try reflexivity.
  rewrite !sum_prod_cons, !zipWith_cons, !sum_prod_cons, !zipWith_cons.
  rewrite IH. reflexivity.
Qed.

Lemma snr_tensor_spec (est clean : tensor3) (eps : R) :
  snr_tensor est clean eps =
  map (fun p => SnrSpec.snr (concat (fst p)) (concat (snd p)) eps)
      (combine est clean).
Proof.
  unfold snr_tensor. cbv zeta. rewrite snr_rows, combine_map_concat, map_map.
  reflexivity.
Qed.

(** ** Broadcasting *)

Lemma mapM_map {A B C : Type} (g : A -> B) (f : B -> result C)
    (l : list A) :
  mapM f (map g l) = mapM (fun a => f (g a)) l.
Proof.
  induction l as [|a l IH]; [reflexivity|].
  cbn [map mapM]. now rewrite IH.
Qed.

Lemma mapM_ext_in {A B : Type} (f g : A -> result B) (l : list A) :
  (forall a, In a l -> f a = g a) -> mapM f l = mapM g l.
Proof.
  induction l as [|a l IH]; intros H; [reflexivity|].
  cbn [mapM]. rewrite (H a) by now left.
  rewrite IH by (intros x Hx; apply H; now right). reflexivity.
Qed.

Lemma seq_nth_self {A : Type} (l : list A) (d : A) :
  map (fun i => nth i l d) (seq 0 (length l)) = l.
Proof.
  induction l as [|a l IH]; [reflexivity|].
  cbn [length seq map nth]. f_equal.
  rewrite <- seq_shift, map_map. exact IH.
Qed.

Lemma combine_seq_nth {A B : Type} (a : list A) (b : list B)
    (da : A) (db : B) :
  length a = length b ->
  map (fun i => (nth i a da, nth i b db)) (seq 0 (length a)) = combine a b.
Proof.
  revert b. induction a as [|x a IH]; intros [|y b] H;
    try discriminate H; [reflexivity|].
  cbn [length seq map nth combine]. f_equal.
  rewrite <- seq_shift, map_map. apply IH. now injection H.
Qed.

Lemma broadcast_dim_same (n : nat) : broadcast_dim n n = Ok n.
Proof. unfold broadcast_dim. now rewrite Nat.eqb_refl. Qed.

Lemma broadcast_dim_one_l (n : nat) : broadcast_dim 1 n = Ok n.
Proof.
  unfold broadcast_dim. destruct (Nat.eqb_spec 1 n) as [<-|_]; reflexivity.
Qed.

Lemma broadcast_index_lt (len i : nat) :
  (i < len)%nat -> broadcast_index len i = i.
Proof.
  intros Hi. unfold broadcast_index.
  destruct (Nat.eqb_spec len 1); [lia | reflexivity].
Qed.

Lemma broadcast_axis_same {A B C : Type} (f : A -> B -> result C)
    (da : A) (db : B) (a : list A) (b : list B) :
  length a = length b ->
  broadcast_axis f da db a b = mapM (fun p => f (fst p) (snd p)) (combine a b).
Proof.
  intros Hab. unfold broadcast_axis.
  rewrite <- Hab, broadcast_dim_same. cbn [bind].
  rewrite <- (combine_seq_nth a b da db Hab), mapM_map. cbn [fst snd].
  apply mapM_ext_in. intros i Hi. apply in_seq in Hi.
  now rewrite broadcast_index_lt by lia.
Qed.

Lemma broadcast_axis_single {A B C : Type} (f : A -> B -> result C)
    (da : A) (db : B) (x : A) (b : list B) :
  broadcast_axis f da db [x] b = mapM (fun y => f x y) b.
Proof.
  unfold broadcast_axis. cbn [length]. rewrite broadcast_dim_one_l.
  cbn [bind].
  transitivity (mapM (fun y => f x y)
                  (map (fun i => nth i b db) (seq 0 (length b))));
    [|now rewrite seq_nth_self].
  rewrite mapM_map.
  apply mapM_ext_in. intros i Hi. apply in_seq in Hi.
  rewrite (broadcast_index_lt (length b)) by lia. reflexivity.
Qed.

Lemma broadcast_row_same (f : R -> R -> R) (r1 r2 : list R) :
  length r1 = length r2 ->
  broadcast_axis (fun x y => Ok (f x y)) 0%R 0%R r1 r2
  = Ok (zipWith f r1 r2).
Proof.
  intros H. rewrite broadcast_axis_same by exact H.
  now apply mapM_Ok.
Qed.

Lemma broadcast2_same (f : R -> R -> R) (a b : list (list R)) (n : nat) :
  length a = length b ->
  Forall (fun r => length r = n) a ->
  Forall (fun r => length r = n) b ->
  broadcast2 f a b = Ok (zipWith (zipWith f) a b).
Proof.
  intros Hab Ha Hb. unfold broadcast2.
  rewrite broadcast_axis_same by exact Hab.
  apply mapM_Ok. intros [r1 r2] Hin. cbn [fst snd].
  apply broadcast_row_same.
  rewrite Forall_forall in Ha, Hb.
  rewrite (Ha r1 (in_combine_l _ _ _ _ Hin)).
  now rewrite (Hb r2 (in_combine_r _ _ _ _ Hin)).
Qed.

Lemma broadcast2_self (f : R -> R -> R) (a : list (list R)) :
  broadcast2 f a a = Ok (map (map (fun v => f v v)) a).
Proof.
  unfold broadcast2. rewrite broadcast_axis_same by reflexivity.
  assert (E : forall {X : Type} (l : list X),
             combine l l = map (fun x => (x, x)) l).
  { intros X l. induction l as [|x l IH]; [reflexivity|].
    cbn [combine map]. now rewrite IH. }
  rewrite E, mapM_map. cbn [fst snd].
  apply mapM_Ok. intros r _.
  rewrite broadcast_axis_same by reflexivity.
  rewrite E, mapM_map. cbn [fst snd]. now apply mapM_Ok.
Qed.

Lemma broadcast2_scalar_rows (f : R -> R -> R) (q : list R)
    (b : list (list R)) :
  length q = length b ->
  broadcast2 f (map (fun c => [c]) q) b
  = Ok (zipWith (fun c row => map (f c) row) q b).
Proof.
  intros H. unfold broadcast2.
  rewrite broadcast_axis_same by now rewrite length_map.
  unfold zipWith.
  assert (E : combine (map (fun c : R => [c]) q) b
              = map (fun p => ([fst p], snd p)) (combine q b)).
  { clear H. revert b. induction q as [|c q IH]; intros [|r b];
      try reflexivity. cbn [map combine fst snd]. now rewrite IH. }
  rewrite E, mapM_map. cbn [fst snd].
  apply mapM_Ok. intros [c row] _. cbn [fst snd].
  rewrite broadcast_axis_single. now apply mapM_Ok.
Qed.

Lemma sum_keepdim_zip (a b : list (list R)) :
  sum_keepdim (zipWith (zipWith Rmult) a b)
  = map (fun v => [v]) (sum_prod a b).
Proof.
  unfold sum_keepdim, sum_prod, zipWith. rewrite !map_map. reflexivity.
Qed.

Lemma length_sum_prod (a b : list (list R)) :
  length a = length b -> length (sum_prod a b) = length a.
Proof.
  intros H. unfold sum_prod, zipWith.
  rewrite length_map, length_combine. lia.
Qed.

Lemma Forall_zipWith {A B C : Type} (P : C -> Prop) (f : A -> B -> C)
    (a : list A) (b : list B) :
  (forall x y, In (x, y) (combine a b) -> P (f x y)) ->
  Forall P (zipWith f a b).
Proof.
  intros H. apply Forall_forall. intros z Hz. unfold zipWith in Hz.
  apply in_map_iff in Hz as ([x y] & <- & Hin). now apply H.
Qed.

Lemma length_zipWith {A B C : Type} (f : A -> B -> C) (a : list A)
    (b : list B) :
  length a = length b -> length (zipWith f a b) = length a.
Proof.
  intros H. unfold zipWith. rewrite length_map, length_combine. lia.
Qed.

Lemma concat_singletons {A : Type} (l : list A) :
  concat (map (fun v => [v]) l) = l.
Proof. induction l as [|a l IH]; [reflexivity|]. cbn. now rewrite IH. Qed.

Lemma reshape_batch_Ok (x : tensor3) :
  x <> [] -> reshape_batch x = Ok (reshape_rows x).
Proof.
  intros H. unfold reshape_batch. destruct x; [contradiction | reflexivity].
Qed.

Lemma nonempty_length {A B : Type} (a : list A) (b : list B) :
  a <> [] -> length a = length b -> b <> [].
Proof. intros Ha H ->. destruct a; [contradiction | discriminate H]. Qed.

(** For spectra of one shape nothing is broadcast: the local [snr] is the
    elementwise computation. *)
Lemma snr_local_rows (est clean : tensor3) (eps : R) (n : nat) :
  est <> [] ->
  length est = length clean ->
  Forall (fun xb => length (concat xb) = n) est ->
  Forall (fun xb => length (concat xb) = n) clean ->
  snr_local est clean eps = Ok (snr_tensor est clean eps).
Proof.
  intros Hne Hlen He Hc. unfold snr_local.
  rewrite !reshape_batch_Ok by (try assumption; now apply nonempty_length
                                with (a := est)).
  cbn [bind].
  set (s1 := reshape_rows est). set (s2 := reshape_rows clean).
  assert (L12 : length s1 = length s2)
    by (unfold s1, s2, reshape_rows; now rewrite !length_map).
  assert (R1 : Forall (fun r => length r = n) s1)
    by (unfold s1, reshape_rows; now apply Forall_map).
  assert (R2 : Forall (fun r => length r = n) s2)
    by (unfold s2, reshape_rows; now apply Forall_map).
  rewrite (broadcast2_same Rmult s1 s2 n L12 R1 R2). cbn [bind].
  rewrite (broadcast2_same Rmult s2 s2 n eq_refl R2 R2). cbn [bind].
  rewrite !sum_keepdim_zip.
  rewrite (broadcast2_same _ _ _ 1%nat);
    [ | rewrite !length_map, !length_sum_prod; lia
      | apply Forall_map, Forall_forall; reflexivity
      | apply Forall_map, Forall_forall; reflexivity ].
  cbn [bind].
  assert (E1 : forall (g : R -> R -> R) (u v : list R),
             zipWith (zipWith g) (map (fun x => [x]) u)
                                 (map (fun x => [x]) v)
             = map (fun x => [x]) (zipWith g u v)).
  { intros g u. induction u as [|x u IH]; intros [|y v]; try reflexivity.
    unfold zipWith in *. cbn [map combine fst snd]. now rewrite IH. }
  rewrite E1.
  set (ratio := zipWith (fun a b => (a / (b + eps))%R)
                  (sum_prod s1 s2) (sum_prod s2 s2)).
  assert (Lr : length ratio = length s2).
  { unfold ratio. rewrite length_zipWith; rewrite !length_sum_prod; lia. }
  rewrite (broadcast2_scalar_rows Rmult ratio s2 Lr). cbn [bind].
  set (s_target := zipWith (fun c row => map (Rmult c) row) ratio s2).
  assert (Rt : Forall (fun r => length r = n) s_target).
  { unfold s_target. apply Forall_zipWith. intros c row Hin.
    rewrite length_map. rewrite Forall_forall in R2.
    apply R2. eapply in_combine_r. exact Hin. }
  assert (Lt : length s1 = length s_target).
  { unfold s_target. rewrite length_zipWith; lia. }
  rewrite (broadcast2_same Rminus s1 s_target n Lt R1 Rt). cbn [bind].
  set (e_nosie := zipWith (zipWith Rminus) s1 s_target).
  assert (Rn : Forall (fun r => length r = n) e_nosie).
  { unfold e_nosie. apply Forall_zipWith. intros r1 r2 Hin.
    rewrite length_zipWith.
    - rewrite Forall_forall in R1. apply R1. eapply in_combine_l. exact Hin.
    - rewrite Forall_forall in R1, Rt.
      rewrite (R1 r1 (in_combine_l _ _ _ _ Hin)).
      now rewrite (Rt r2 (in_combine_r _ _ _ _ Hin)). }
  rewrite (broadcast2_same Rmult s_target s_target n eq_refl Rt Rt).
  cbn [bind].
  rewrite (broadcast2_same Rmult e_nosie e_nosie n eq_refl Rn Rn).
  cbn [bind]. rewrite !sum_keepdim_zip.
  rewrite (broadcast2_same _ _ _ 1%nat);
    [ | rewrite !length_map, !length_sum_prod;
        [unfold e_nosie; rewrite length_zipWith; lia | reflexivity
         | reflexivity]
      | apply Forall_map, Forall_forall; reflexivity
      | apply Forall_map, Forall_forall; reflexivity ].
  cbn [bind]. rewrite E1, concat_singletons.
  reflexivity.
Qed.

Lemma has_shape_rows (x : tensor3) (B C T : nat) :
  has_shape x B C T ->
  length x = B /\ Forall (fun xb => length (concat xb) = (C * T)%nat) x.
Proof.
  intros [HB Hall]. split; [exact HB|].
  eapply Forall_impl; [|exact Hall].
  intros xb [HC Hrows]. subst C. clear Hall HB.
  induction xb as [|row xb IH]; [reflexivity|].
  cbn [concat length]. rewrite length_app.
  rewrite (Forall_inv Hrows), (IH (Forall_inv_tail Hrows)). lia.
Qed.

Lemma has_shape_nonempty (x : tensor3) (B C T : nat) :
  (1 <= B)%nat -> has_shape x B C T -> x <> [].
Proof. intros HB [Hl _] ->. simpl in Hl. lia. Qed.

(** For spectra of one shape [stft_snr] returns, and what it returns is
    the negative mean of the elementwise [snr]. *)
Lemma stft_snr_same_shape (est clean : tensor3) (eps : R) (B C T : nat) :
  (1 <= B)%nat -> has_shape est B C T -> has_shape clean B C T ->
  stft_snr est clean eps = Ok (- mean (snr_tensor est clean eps))%R.
Proof.
  intros HB He Hc. unfold stft_snr.
  destruct (has_shape_rows _ _ _ _ He) as [Le Re].
  destruct (has_shape_rows _ _ _ _ Hc) as [Lc Rc].
  rewrite (snr_local_rows est clean eps (C * T));
    [reflexivity | now apply (has_shape_nonempty est B C T)
     | congruence | assumption | assumption].
Qed.

Lemma stft_snr_empty (est clean : tensor3) (eps : R) :
  est = [] \/ clean = [] -> stft_snr est clean eps = Raise RuntimeError.
Proof.
  intros H. unfold stft_snr, snr_local, reshape_batch.
  destruct est as [|e est]; [reflexivity|].
  destruct H as [H | E]; [discriminate H | now rewrite E].
Qed.

(** ** C6: the SNR loss formula *)

Section LossFormulaAgrees.

Local Open Scope R_scope.

Lemma inner_dot (a b : list R) : LossFormula.inner a b = SnrSpec.dot a b.
Proof.
  unfold LossFormula.inner, SnrSpec.dot.
  induction (combine a b) as [|p l IH]; [reflexivity|].
  cbn [fold_right map]. rewrite IH. reflexivity.
Qed.

Lemma formula_snr (a b : list R) :
  LossFormula.snr a b = SnrSpec.snr a b eps_default.
Proof.
  unfold LossFormula.snr, SnrSpec.snr, LossFormula.sq_norm, SnrSpec.norm2,
    LossFormula.error, SnrSpec.error, LossFormula.target, SnrSpec.target,
    log10.
  rewrite !inner_dot.
  replace (map (fun v => LossFormula.inner a b
                         / (LossFormula.inner b b + LossFormula.eps) * v) b)
    with (map (fun v => SnrSpec.dot a b
                        / (SnrSpec.dot b b + eps_default) * v) b)
    by (now rewrite !inner_dot).
  reflexivity.
Qed.

Lemma formula_loss (est clean : tensor3) :
  length est = length clean ->
  LossFormula.loss (map (@concat R) est) (map (@concat R) clean)
  = - mean (snr_tensor est clean eps_default).
Proof.
  intros Hlen. unfold LossFormula.loss, mean.
  rewrite snr_tensor_spec, !length_map, length_combine, Hlen, Nat.min_id.
  f_equal. f_equal.
  change (map (@concat R) est) with (reshape_rows est).
  change (map (@concat R) clean) with (reshape_rows clean).
  rewrite combine_map_concat.
  induction (combine est clean) as [|p l IH]; [reflexivity|].
  cbn [map fold_right fst snd Rsum]. rewrite IH, formula_snr.
  reflexivity.
Qed.

(** C6.  For every non-empty batch of estimate and clean spectra of one
    shape, the loss returned by [stft_snr] with its default [eps = 1e-8]
    is the negative mean over the batch of
    [10 log10 (|target|^2 / (|error|^2 + eps) + eps)], where
    [target = (est . clean) / (clean . clean + eps) * clean] and
    [error = est - target]; for an empty batch [stft_snr] raises. *)
Theorem stft_snr_formula (est clean : tensor3) (B C T : nat) :
  ((1 <= B)%nat -> has_shape est B C T -> has_shape clean B C T ->
   stft_snr est clean eps_default
   = Ok (LossFormula.loss (map (@concat R) est) (map (@concat R) clean))) /\
  (est = [] \/ clean = [] ->
   stft_snr est clean eps_default = Raise RuntimeError).
Proof.
  split; [|apply stft_snr_empty].
  intros HB He Hc.
  rewrite (stft_snr_same_shape est clean eps_default B C T HB He Hc).
  rewrite formula_loss; [reflexivity|].
  destruct He as [-> _]. now destruct Hc as [-> _].
Qed.

End LossFormulaAgrees.

Lemma stft_snr_formula_witness :
  stft_snr [[[1; 2]; [0; 1]]; [[3; 1]; [1; 1]]]%R
           [[[2; 1]; [1; 0]]; [[1; 1]; [2; 2]]]%R eps_default
  = Ok (LossFormula.loss [[1; 2; 0; 1]; [3; 1; 1; 1]]%R
                         [[2; 1; 1; 0]; [1; 1; 2; 2]]%R).
Proof.
  apply (proj1 (stft_snr_formula
                  [[[1; 2]; [0; 1]]; [[3; 1]; [1; 1]]]%R
                  [[[2; 1]; [1; 0]]; [[1; 1]; [2; 2]]]%R 2 2 2)).
  - lia.
  - split; [reflexivity|]. repeat constructor.
  - split; [reflexivity|]. repeat constructor.
Defined.

(** ** Real-number lemmas for the SNR claims *)

Section SnrAlgebra.

Local Open Scope R_scope.
Import SnrSpec.

Lemma div_le_l (a b d : R) : 0 < d -> a <= b * d -> a / d <= b.
Proof.
  intros Hd H. apply Rmult_le_reg_r with d; [assumption|].
  unfold Rdiv. rewrite Rmult_assoc, Rinv_l, Rmult_1_r; lra.
Qed.

Lemma div_le_r (a b d : R) : 0 < d -> a * d <= b -> a <= b / d.
Proof.
  intros Hd H. apply Rmult_le_reg_r with d; [assumption|].
  unfold Rdiv. rewrite Rmult_assoc, Rinv_l, Rmult_1_r; lra.
Qed.

Lemma ln10_pos : 0 < ln 10.
Proof. rewrite <- ln_1. apply ln_increasing; lra. Qed.

Lemma log10_lt (a b : R) : 0 < a -> a < b -> log10 a < log10 b.
Proof.
  intros Ha Hab. unfold log10, Rdiv.
  apply Rmult_lt_compat_r; [apply Rinv_0_lt_compat, ln10_pos|].
  now apply ln_increasing.
Qed.

Lemma log10_le (a b : R) : 0 < a -> a <= b -> log10 a <= log10 b.
Proof.
  intros Ha [Hlt | E]; [left; now apply log10_lt | right; now rewrite E].
Qed.

Lemma log10_pow10 (k : nat) : log10 (10 ^ k) = INR k.
Proof.
  unfold log10. rewrite ln_pow by lra. field.
  apply Rgt_not_eq, ln10_pos.
Qed.

Lemma eps_default_pos : 0 < eps_default.
Proof. unfold eps_default. lra. Qed.

Lemma dot_scale_l (k : R) (a b : list R) :
  dot (map (fun v => k * v) a) b = k * dot a b.
Proof.
  unfold dot. revert b.
  induction a as [|x a IH]; intros [|y b]; simpl; try ring.
  rewrite IH. ring.
Qed.

Lemma dot_scale_r (k : R) (a b : list R) :
  dot a (map (fun v => k * v) b) = k * dot a b.
Proof.
  unfold dot. revert b.
  induction a as [|x a IH]; intros [|y b]; simpl; try ring.
  rewrite IH. ring.
Qed.

Lemma norm2_scale (k : R) (a : list R) :
  norm2 (map (fun v => k * v) a) = k ^ 2 * norm2 a.
Proof. unfold norm2. rewrite dot_scale_l, dot_scale_r. ring. Qed.

Lemma norm2_nonneg (a : list R) : 0 <= norm2 a.
Proof.
  unfold norm2, dot. induction a as [|x a IH]; simpl; [lra|].
  pose proof (Rle_0_sqr x) as Hx. unfold Rsqr in Hx. lra.
Qed.

Lemma combine_map_map {A B C D : Type} (f : A -> C) (g : B -> D)
    (a : list A) (b : list B) :
  combine (map f a) (map g b) =
  map (fun p => (f (fst p), g (snd p))) (combine a b).
Proof.
  revert b. induction a as [|x a IH]; intros [|y b]; simpl; try reflexivity.
  now rewrite IH.
Qed.

Lemma combine_same {A : Type} (a : list A) :
  combine a a = map (fun v => (v, v)) a.
Proof. induction a as [|x a IH]; simpl; [reflexivity | now rewrite IH]. Qed.

(** Scaling the estimate scales target and error alike. *)
Lemma target_scale (a : R) (est clean : list R) (eps : R) :
  target (map (fun v => a * v) est) clean eps =
  map (fun v => a * v) (target est clean eps).
Proof.
  unfold target. rewrite dot_scale_l, map_map.
  apply map_ext. intros v. unfold Rdiv. ring.
Qed.

Lemma error_scale (a : R) (est clean : list R) (eps : R) :
  error (map (fun v => a * v) est) clean eps =
  map (fun v => a * v) (error est clean eps).
Proof.
  unfold error. rewrite target_scale, combine_map_map, !map_map.
  apply map_ext. intros [x t]. simpl. ring.
Qed.

(** The SNR of an estimate that is [a] times another one: the noise guard
    [eps] is the only term that does not scale. *)
Lemma snr_scale (a : R) (est clean : list R) :
  a <> 0 ->
  snr (map (fun v => a * v) est) clean eps_default =
  10 * log10 (norm2 (target est clean eps_default) /
              (norm2 (error est clean eps_default) + eps_default / a ^ 2)
              + eps_default).
Proof.
  intros Ha. unfold snr. rewrite target_scale, error_scale, !norm2_scale.
  pose proof (norm2_nonneg (error est clean eps_default)) as HE.
  pose proof eps_default_pos as He.
  assert (Ha2 : 0 < a ^ 2).
  { assert (a ^ 2 <> 0) by (apply pow_nonzero; assumption).
    pose proof (pow2_ge_0 a). lra. }
  assert (Hq : 0 < eps_default / a ^ 2).
  { apply Rdiv_lt_0_compat; assumption. }
  assert (Hm : 0 <= a ^ 2 * norm2 (error est clean eps_default)).
  { apply Rmult_le_pos; lra. }
  f_equal. f_equal. f_equal. field. repeat split; lra.
Qed.

(** The SNR of [k x] against [x]. *)
Lemma snr_parallel (k : R) (x : list R) (eps : R) :
  snr (map (fun v => k * v) x) x eps =
  10 * log10 ((k * (norm2 x / (norm2 x + eps))) ^ 2 * norm2 x /
              ((k - k * (norm2 x / (norm2 x + eps))) ^ 2 * norm2 x + eps)
              + eps).
Proof.
  unfold snr.
  assert (Ht : target (map (fun v => k * v) x) x eps =
               map (fun v => k * (norm2 x / (norm2 x + eps)) * v) x).
  { unfold target, norm2. rewrite dot_scale_l.
    apply map_ext. intros v. unfold Rdiv. ring. }
  assert (He : error (map (fun v => k * v) x) x eps =
               map (fun v => (k - k * (norm2 x / (norm2 x + eps))) * v) x).
  { unfold error. rewrite Ht, combine_map_map, combine_same, !map_map.
    apply map_ext. intros v. simpl. ring. }
  rewrite He, Ht, !norm2_scale. reflexivity.
Qed.

Lemma map_scale_one (x : list R) : map (fun v => 1 * v) x = x.
Proof.
  rewrite <- (map_id x) at 2. apply map_ext. intros v. ring.
Qed.


(** The SNR of a spectrum against itself, and of its negation against it. *)
Lemma snr_self (x : list R) (eps : R) :
  snr x x eps =
  10 * log10 ((norm2 x / (norm2 x + eps)) ^ 2 * norm2 x /
              ((1 - norm2 x / (norm2 x + eps)) ^ 2 * norm2 x + eps) + eps).
Proof.
  rewrite <- (map_scale_one x) at 1. rewrite snr_parallel.
  f_equal. f_equal. f_equal. f_equal; ring.
Qed.


Lemma snr_ratio_upper (n eps : R) :
  0 <= n -> 0 < eps ->
  (n / (n + eps)) ^ 2 * n / ((1 - n / (n + eps)) ^ 2 * n + eps) + eps
  <= n / eps + eps.
Proof.
  intros Hn He.
  set (c := n / (n + eps)).
  assert (Hc0 : 0 <= c). { unfold c. apply div_le_r; lra. }
  assert (Hc1 : c <= 1). { unfold c. apply div_le_l; lra. }
  assert (HD : eps <= (1 - c) ^ 2 * n + eps).
  { assert (0 <= (1 - c) ^ 2 * n)
      by (apply Rmult_le_pos; [apply pow2_ge_0 | assumption]). lra. }
  apply Rplus_le_compat_r.
  apply div_le_l; [lra|].
  assert (Hq : 0 <= n / eps) by (apply div_le_r; lra).
  assert (Hq' : n / eps * eps = n) by (field; lra).
  assert (H1 : 0 <= n / eps * ((1 - c) ^ 2 * n)).
  { apply Rmult_le_pos; [assumption|].
    apply Rmult_le_pos; [apply pow2_ge_0 | assumption]. }
  assert (H2 : c ^ 2 * n <= 1 * n).
  { apply Rmult_le_compat_r; [assumption|]. nra. }
  rewrite Rmult_plus_distr_l, Hq'. lra.
Qed.


Lemma snr_ratio_pos (n eps : R) :
  0 <= n -> 0 < eps ->
  0 < (n / (n + eps)) ^ 2 * n / ((1 - n / (n + eps)) ^ 2 * n + eps) + eps.
Proof.
  intros Hn He.
  assert (0 <= (n / (n + eps)) ^ 2 * n)
    by (apply Rmult_le_pos; [apply pow2_ge_0 | assumption]).
  assert (0 < (1 - n / (n + eps)) ^ 2 * n + eps).
  { assert (0 <= (1 - n / (n + eps)) ^ 2 * n)
      by (apply Rmult_le_pos; [apply pow2_ge_0 | assumption]). lra. }
  assert (0 <= (n / (n + eps)) ^ 2 * n / ((1 - n / (n + eps)) ^ 2 * n + eps)).
  { apply div_le_r; lra. }
  lra.
Qed.

(** Bounds on the SNR of a spectrum against itself. *)
Lemma snr_self_upper (x : list R) :
  snr x x eps_default <=
  10 * log10 (norm2 x / eps_default + eps_default).
Proof.
  rewrite snr_self. apply Rmult_le_compat_l; [lra|].
  apply log10_le.
  - apply snr_ratio_pos; [apply norm2_nonneg | apply eps_default_pos].
  - apply snr_ratio_upper; [apply norm2_nonneg | apply eps_default_pos].
Qed.


End SnrAlgebra.

(** ** C2: the SNR of identical and of negated signals *)

Section SnrSanity.

Local Open Scope R_scope.
Import SnrSpec.

Lemma norm2_single (v : R) : norm2 [v] = v * v.
Proof. unfold norm2, dot. simpl. ring. Qed.



Lemma snr_tensor_self (x : tensor3) :
  snr_tensor x x eps_default =
  map (fun xb => snr (concat xb) (concat xb) eps_default) x.
Proof.
  rewrite snr_tensor_spec, combine_same, map_map. reflexivity.
Qed.


(** Nor is the SNR of a nonzero spectrum against itself always above 80 dB:
    it is below for [x = 1/2]. *)
Example snr_identical_quiet_signal :
  exists v,
    snr_tensor [[[1 / 2]]] [[[1 / 2]]] eps_default = [v] /\ v < 80.
Proof.
  rewrite snr_tensor_self. cbn [map concat app].
  eexists. split; [reflexivity|].
  eapply Rle_lt_trans; [apply snr_self_upper|].
  rewrite norm2_single.
  replace 80 with (10 * INR 8) by (simpl; lra).
  apply Rmult_lt_compat_l; [lra|].
  rewrite <- log10_pow10. unfold eps_default.
  apply log10_lt; lra.
Qed.



End SnrSanity.

(** ** C4: scaling the estimate *)

Section SnrScaling.

Local Open Scope R_scope.
Import SnrSpec.

Lemma scale3_rows (a : R) (est clean : tensor3) :
  combine (scale3 a est) clean =
  map (fun p => (map (map (fun v => a * v)) (fst p), snd p))
      (combine est clean).
Proof.
  unfold scale3. revert clean.
  induction est as [|e est IH]; intros [|c clean]; simpl; try reflexivity.
  now rewrite IH.
Qed.

Lemma has_shape_scale3 (a : R) (x : tensor3) (B C T : nat) :
  has_shape x B C T -> has_shape (scale3 a x) B C T.
Proof.
  intros [HB Hall]. unfold scale3. split; [now rewrite length_map|].
  apply Forall_map. eapply Forall_impl; [|exact Hall].
  intros xb [HC Hrows]. split; [now rewrite length_map|].
  apply Forall_map. eapply Forall_impl; [|exact Hrows].
  intros row Hrow. now rewrite length_map.
Qed.

Lemma snr_tensor_scaled (a : R) (est clean : tensor3) :
  a <> 0 ->
  snr_tensor (scale3 a est) clean eps_default =
  map (fun p =>
         10 * log10
           (norm2 (target (concat (fst p)) (concat (snd p)) eps_default) /
            (norm2 (error (concat (fst p)) (concat (snd p)) eps_default)
             + eps_default / a ^ 2)
            + eps_default))
      (combine est clean).
Proof.
  intros Ha. rewrite snr_tensor_spec, scale3_rows, map_map.
  apply map_ext. intros [e c]. cbn [fst snd].
  rewrite <- concat_map. now apply snr_scale.
Qed.

(** Doubling an estimate that is parallel to the clean spectrum raises the
    ratio under the logarithm. *)
Lemma ratio_doubling (A B eps : R) :
  0 < A -> 0 <= B -> 0 < eps ->
  A / (B + eps) < 2 ^ 2 * A / (2 ^ 2 * B + eps).
Proof.
  intros HA HB He.
  replace (A / (B + eps)) with (2 ^ 2 * A / (2 ^ 2 * B + 4 * eps))
    by (field; lra).
  unfold Rdiv. apply Rmult_lt_compat_l; [lra|].
  apply Rinv_lt_contravar; [|lra].
  apply Rmult_lt_0_compat; lra.
Qed.

(** C4, as stated, fails: with [est = clean = 1] (one batch item, one
    sample) and [a = 2], [stft_snr] of the doubled estimate differs from
    [stft_snr] of the estimate. *)
Lemma stft_snr_changes_under_scaling :
  stft_snr (scale3 2 [[[1]]]) [[[1]]] eps_default
  <> stft_snr [[[1]]] [[[1]]] eps_default.
Proof.
  rewrite (stft_snr_same_shape (scale3 2 [[[1]]]) [[[1]]] eps_default 1 1 1),
          (stft_snr_same_shape [[[1]]] [[[1]]] eps_default 1 1 1);
    try lia; try (split; [reflexivity | repeat constructor]).
  intros Heq. injection Heq as Heq. revert Heq.
  rewrite !snr_tensor_spec.
  cbn [scale3 map combine fst snd concat app]. unfold mean.
  cbn [length Rsum fold_right INR].
  change [2 * 1] with (map (fun v => 2 * v) [1]).
  rewrite <- (map_scale_one [1]) at 3.
  rewrite !snr_parallel, norm2_single.
  set (c := 1 * 1 / (1 * 1 + eps_default)).
  pose proof eps_default_pos as He.
  assert (Hc0 : 0 < c).
  { unfold c. apply Rdiv_lt_0_compat; lra. }
  assert (HA : 0 < c ^ 2 * (1 * 1)).
  { apply Rmult_lt_0_compat; [apply pow_lt; exact Hc0 | lra]. }
  assert (HB : 0 <= (1 - c) ^ 2 * (1 * 1)).
  { apply Rmult_le_pos; [apply pow2_ge_0 | lra]. }
  assert (Hlt :
    log10 ((1 * c) ^ 2 * (1 * 1) / ((1 - 1 * c) ^ 2 * (1 * 1) + eps_default)
           + eps_default) <
    log10 ((2 * c) ^ 2 * (1 * 1) / ((2 - 2 * c) ^ 2 * (1 * 1) + eps_default)
           + eps_default)).
  { apply log10_lt.
    - assert (0 <= (1 * c) ^ 2 * (1 * 1) /
                   ((1 - 1 * c) ^ 2 * (1 * 1) + eps_default)).
      { apply div_le_r.
        - replace (1 - 1 * c) with (1 - c) by ring. lra.
        - replace (1 * c) with c by ring. lra. }
      lra.
    - apply Rplus_lt_compat_r.
      replace ((1 * c) ^ 2 * (1 * 1)) with (c ^ 2 * (1 * 1)) by ring.
      replace ((1 - 1 * c) ^ 2 * (1 * 1)) with ((1 - c) ^ 2 * (1 * 1))
        by ring.
      replace ((2 * c) ^ 2 * (1 * 1)) with (2 ^ 2 * (c ^ 2 * (1 * 1)))
        by ring.
      replace ((2 - 2 * c) ^ 2 * (1 * 1))
        with (2 ^ 2 * ((1 - c) ^ 2 * (1 * 1))) by ring.
      apply ratio_doubling; assumption. }
  lra.
Qed.

(** C4 (amended).  For every batch of estimate and clean spectra and every
    positive scalar [a], the SNR that [stft_snr] computes for [(a est,
    clean)] is, item by item, [10 log10 (|target|^2 / (|error|^2 + eps /
    a^2) + eps)] with the target and the error of [(est, clean)]: the value
    for [(est, clean)] except that the [eps] added to the noise power is
    divided by [a^2].  The loss returned for a non-empty batch of spectra
    of one shape is the negative mean of these. *)
Theorem snr_under_estimate_scaling (a : R) (est clean : tensor3) :
  0 < a ->
  snr_tensor (scale3 a est) clean eps_default =
    map (fun p =>
           10 * log10
             (norm2 (target (concat (fst p)) (concat (snd p)) eps_default) /
              (norm2 (error (concat (fst p)) (concat (snd p)) eps_default)
               + eps_default / a ^ 2)
              + eps_default))
        (combine est clean) /\
  (forall B C T : nat,
     (1 <= B)%nat -> has_shape est B C T -> has_shape clean B C T ->
     stft_snr (scale3 a est) clean eps_default =
       Ok (- mean
          (map (fun p =>
             10 * log10
               (norm2 (target (concat (fst p)) (concat (snd p)) eps_default) /
                (norm2 (error (concat (fst p)) (concat (snd p)) eps_default)
                 + eps_default / a ^ 2)
                + eps_default))
          (combine est clean)))).
Proof.
  intros Ha. assert (Hne : a <> 0) by lra.
  split; [now apply snr_tensor_scaled|].
  intros B C T HB He Hc.
  rewrite (stft_snr_same_shape _ _ _ B C T HB (has_shape_scale3 a _ _ _ _ He)
             Hc).
  now rewrite snr_tensor_scaled.
Qed.

Lemma snr_under_estimate_scaling_witness :
  0 < 2 /\
  snr_tensor (scale3 2 [[[1; 0]]]) [[[1; 1]]] eps_default =
    [10 * log10
       (norm2 (target [1; 0] [1; 1] eps_default) /
        (norm2 (error [1; 0] [1; 1] eps_default) + eps_default / 2 ^ 2)
        + eps_default)] /\
  exists l, stft_snr (scale3 2 [[[1; 0]]]) [[[1; 1]]] eps_default = Ok l.
Proof.
  split; [lra|].
  destruct (snr_under_estimate_scaling 2 [[[1; 0]]] [[[1; 1]]] ltac:(lra))
    as [Hsnr Hloss].
  split; [exact Hsnr|].
  eexists. apply (Hloss 1%nat 1%nat 2%nat);
    [lia | |]; (split; [reflexivity | repeat constructor]).
Defined.

End SnrScaling.

(** ** C9: the voice-activity frame mask *)

Lemma length_py_slice {A : Type} (a b : Z) (l : list A) :
  (0 <= a <= b)%Z -> (b <= Z.of_nat (length l))%Z ->
  length (py_slice a b l) = Z.to_nat (b - a).
Proof.
  intros Hab Hb. unfold py_slice, clip.
  destruct (Z.ltb_spec a 0); [lia|]. destruct (Z.ltb_spec b 0); [lia|].
  rewrite length_skipn, length_firstn. lia.
Qed.

Section VadMask.

Local Open Scope R_scope.

(** The voice-activity sum of frame [t]:
    [sum(mix_vad[t * hop : t * hop + winlen])]. *)
Let frame_sum (self : APC_SNR) (mix_vad : list R) (t : nat) : R :=
  Rsum (py_slice (Z.of_nat t * hop self)
                 (Z.of_nat t * hop self + winlen self) mix_vad).

(** C9.  For a positive hop, a non-negative window length and a computed
    mask length [frame_num] between zero and the number of spectral frames,
    the mask is produced, has one weight per spectral frame, gives weight
    1.0 to every frame below [frame_num] whose voice-activity sum exceeds
    zero and 0.1 to the others below it, and weight zero to every spectral
    frame from [frame_num] on. *)
Theorem vad_mask_weights (self : APC_SNR) (mix_vad : list R)
    (est_frames : nat) :
  (0 < hop self)%Z ->
  (0 <= winlen self)%Z ->
  (0 <= 1 + (Z.of_nat (length mix_vad) - winlen self) / hop self
     <= Z.of_nat est_frames)%Z ->
  exists m,
    vad_mask_row self mix_vad est_frames = Ok m /\
    length m = est_frames /\
    forall t, (t < est_frames)%nat ->
      let frame_num :=
        (1 + (Z.of_nat (length mix_vad) - winlen self) / hop self)%Z in
      ((Z.of_nat t < frame_num)%Z ->
         (0 < frame_sum self mix_vad t -> nth t m 0 = 1) /\
         (frame_sum self mix_vad t <= 0 -> nth t m 0 = 0.1)) /\
      ((frame_num <= Z.of_nat t)%Z -> nth t m 0 = 0).
Proof.
  intros Hhop Hwin Hfr.
  set (L := Z.of_nat (length mix_vad)) in *.
  set (fnum := (1 + (L - winlen self) / hop self)%Z) in *.
  assert (Hmul : (hop self * ((L - winlen self) / hop self)
                  <= L - winlen self)%Z)
    by (apply Z.mul_div_le; lia).
  set (label := fun t : nat =>
         if Rlt_dec 0 (frame_sum self mix_vad t) then 1 else 0.1).
  exists (map label (seq 0 (Z.to_nat fnum))
          ++ repeat 0 (est_frames - Z.to_nat fnum)).
  assert (Hrun : vad_mask_row self mix_vad est_frames =
                 Ok (map label (seq 0 (Z.to_nat fnum))
                     ++ repeat 0 (est_frames - Z.to_nat fnum))).
  { unfold vad_mask_row. fold L. fold fnum.
    destruct (Z.eqb_spec (hop self) 0); [lia|].
    destruct (Z.ltb_spec fnum 0); [lia|].
    destruct (Z.ltb_spec (winlen self) 0); [lia|]. cbn [orb].
    rewrite (mapM_Ok _
      (fun index : nat =>
         py_slice (Z.of_nat index * hop self)
                  (Z.of_nat index * hop self + winlen self) mix_vad)).
    2:{ intros t Ht. apply in_seq in Ht. unfold assign_row.
        rewrite length_py_slice.
        - replace (Z.of_nat t * hop self + winlen self
                   - Z.of_nat t * hop self)%Z with (winlen self) by ring.
          now rewrite Nat.eqb_refl.
        - nia.
        - fold L. nia. }
    cbn [bind]. rewrite !map_map, length_map, length_seq.
    replace (Nat.min (Z.to_nat fnum) est_frames) with (Z.to_nat fnum)
      by lia.
    unfold assign_row. rewrite length_map, length_seq, Nat.eqb_refl.
    cbn [bind]. reflexivity. }
  split; [exact Hrun|]. split.
  { rewrite length_app, length_map, length_seq, repeat_length. lia. }
  intros t Ht frame_num. subst frame_num. fold L. fold fnum. split.
  - intros Hlt.
    assert (Hnth : nth t (map label (seq 0 (Z.to_nat fnum))
                          ++ repeat 0 (est_frames - Z.to_nat fnum)) 0
                   = label t).
    { rewrite app_nth1 by (rewrite length_map, length_seq; lia).
      rewrite (nth_indep _ 0 (label 0%nat))
        by (rewrite length_map, length_seq; lia).
      rewrite map_nth, seq_nth by lia. reflexivity. }
    rewrite Hnth. unfold label.
    destruct (Rlt_dec 0 (frame_sum self mix_vad t)); split; intros; lra.
  - intros Hge.
    rewrite app_nth2 by (rewrite length_map, length_seq; lia).
    apply nth_repeat.
Qed.

End VadMask.

Lemma vad_mask_weights_witness :
  exists m,
    vad_mask_row (APC_SNR_init 2 4 256) [0; 0; 0; 0; 1; 0]%R 3 = Ok m /\
    length m = 3%nat /\
    nth 0 m 0%R = 0.1%R /\ nth 1 m 0%R = 1%R /\ nth 2 m 0%R = 0%R.
Proof.
  destruct (vad_mask_weights (APC_SNR_init 2 4 256)
              [0; 0; 0; 0; 1; 0]%R 3
              ltac:(simpl; lia) ltac:(simpl; lia) ltac:(simpl; lia))
    as (m & Hm & Hl & Hw).
  exists m. split; [exact Hm|]. split; [exact Hl|].
  cbv zeta in Hw. repeat split.
  - destruct (Hw 0%nat ltac:(lia)) as [Hin _].
    destruct (Hin ltac:(simpl; lia)) as [_ Hsilent]. apply Hsilent.
    cbv - [Rplus Rle IZR]. lra.
  - destruct (Hw 1%nat ltac:(lia)) as [Hin _].
    destruct (Hin ltac:(simpl; lia)) as [Hactive _]. apply Hactive.
    cbv - [Rplus Rlt IZR]. lra.
  - destruct (Hw 2%nat ltac:(lia)) as [_ Hout].
    apply Hout. simpl. lia.
Defined.

(** ** The engine as built by [STFT.__init__] *)

Lemma mapM_mul_window (rows : list (list R)) (w : list R) :
  Forall (fun row => length row = length w) rows ->
  mapM (fun row => np_mul_row row w) rows
  = Ok (map (fun row => mul_window row w) rows).
Proof.
  intros H. apply mapM_Ok. intros row Hin.
  rewrite Forall_forall in H. unfold np_mul_row.
  now rewrite (H row Hin), Nat.eqb_refl.
Qed.

Lemma length_rfft_eye_re (N : Z) : length (rfft_eye_re N) = Z.to_nat N.
Proof. apply length_tabulate. Qed.

Lemma length_rfft_eye_im (N : Z) : length (rfft_eye_im N) = Z.to_nat N.
Proof. apply length_tabulate. Qed.

Lemma length_fourier_kernel (n N : Z) :
  length (fourier_kernel n N) = (2 * Z.to_nat (N / 2 + 1))%nat.
Proof. apply length_tabulate. Qed.

Lemma fourier_kernel_rows (n N : Z) :
  (0 <= n <= N)%Z ->
  Forall (fun row => length row = Z.to_nat n) (fourier_kernel n N).
Proof.
  intros Hn. apply Forall_forall. intros row Hin.
  unfold fourier_kernel, transpose, tabulate in Hin.
  apply in_map_iff in Hin as (j & <- & _).
  rewrite length_map. unfold concat_axis1.
  rewrite length_map, length_combine. unfold py_slice_to.
  rewrite !length_firstn, length_rfft_eye_re, length_rfft_eye_im.
  unfold clip. destruct (Z.ltb_spec n 0); lia.
Qed.

Lemma length_transpose (cols : nat) (m : list (list R)) :
  length (transpose cols m) = cols.
Proof. apply length_tabulate. Qed.

Lemma transpose_rows (cols : nat) (m : list (list R)) :
  Forall (fun row => length row = length m) (transpose cols m).
Proof.
  apply Forall_forall. intros row Hin.
  unfold transpose, tabulate in Hin.
  apply in_map_iff in Hin as (j & <- & _). apply length_map.
Qed.

Section Built.

Variable get_window : string -> Z -> result (list R).
Variable pinv : list (list R) -> list (list R).

Lemma init_kernels_inv (n N : Z) (win : win_arg) (inverse : bool)
    (k : list (list R)) (w : list R) :
  init_conv_stft_kernels get_window pinv n N win inverse = Ok (k, w) ->
  (0 < N)%Z /\
  match win with
  | WinName name => get_window name n = Ok w
  | WinArray w' => w' = w
  end /\
  mapM (fun row => np_mul_row row w)
    (if inverse
     then transpose (2 * Z.to_nat (N / 2 + 1)) (pinv (fourier_kernel n N))
     else fourier_kernel n N) = Ok k.
Proof.
  unfold init_conv_stft_kernels. intros H.
  apply bind_Ok in H as (w0 & Hw & H).
  destruct (Z.leb_spec N 0) as [|HN]; [discriminate|].
  apply bind_Ok in H as (k0 & Hk & H).
  injection H as <- <-.
  split; [lia|]. split; [|exact Hk].
  destruct win as [name|w']; [|now injection Hw].
  destruct (String.eqb name "hann sqrt"); [discriminate | exact Hw].
Qed.

Lemma torch_eye_inv (n : Z) (e : list (list R)) :
  torch_eye n = Ok e ->
  (0 <= n)%Z /\
  e = tabulate (Z.to_nat n) (fun i =>
        tabulate (Z.to_nat n) (fun j =>
          if (i =? j)%nat then 1%R else 0%R)).
Proof.
  unfold torch_eye. destruct (Z.ltb_spec n 0) as [|Hn]; [discriminate|].
  intros H. injection H as <-. split; [lia | reflexivity].
Qed.

(** What a successful construction stores. *)
Lemma STFT_init_inv (n h : Z) (nfft0 : option Z) (win : win_arg)
    (center : bool) (s : STFT) :
  STFT_init get_window pinv n h nfft0 win center = Ok s ->
  nframe s = n /\ nhop s = h /\
  pad s = (if center then (n / 2)%Z else 0%Z) /\
  (0 < nfft s)%Z /\ (0 <= n)%Z /\
  match win with
  | WinName name => get_window name n = Ok (window s)
  | WinArray w' => w' = window s
  end /\
  mapM (fun row => np_mul_row row (window s)) (fourier_kernel n (nfft s))
    = Ok (weight s) /\
  mapM (fun row => np_mul_row row (window s))
    (transpose (2 * Z.to_nat (nfft s / 2 + 1))
       (pinv (fourier_kernel n (nfft s))))
    = Ok (inv_weight s) /\
  enframe s = tabulate (Z.to_nat n) (fun i =>
                tabulate (Z.to_nat n) (fun j =>
                  if (i =? j)%nat then 1%R else 0%R)).
Proof.
  unfold STFT_init. intros H.
  apply bind_Ok in H as (N & _ & H).
  apply bind_Ok in H as ([kw w] & Hkw & H).
  apply bind_Ok in H as ([ik w'] & Hik & H).
  apply bind_Ok in H as (eye & Heye & H).
  injection H as <-. cbn [nframe nhop pad nfft weight inv_weight window
                          enframe fst snd].
  apply init_kernels_inv in Hkw as (HN & Hw & Hkw).
  apply init_kernels_inv in Hik as (_ & Hw' & Hik).
  apply torch_eye_inv in Heye as (Hn & ->).
  assert (w' = w) as ->.
  { destruct win; congruence. }
  repeat split; trivial; lia.
Qed.

(** Construction never reads the hop. *)
Lemma STFT_init_any_hop (n h h' : Z) (nfft0 : option Z) (win : win_arg)
    (center : bool) (s : STFT) :
  STFT_init get_window pinv n h nfft0 win center = Ok s ->
  STFT_init get_window pinv n h' nfft0 win center = Ok (with_nhop s h').
Proof.
  unfold STFT_init.
  destruct (match nfft0 with
            | Some n0 => Ok n0
            | None => default_nfft n
            end) as [N|e]; cbn [bind]; [|discriminate].
  destruct (init_conv_stft_kernels get_window pinv n N win false)
    as [kw|e]; cbn [bind]; [|discriminate].
  destruct (init_conv_stft_kernels get_window pinv n N win true)
    as [ik|e]; cbn [bind]; [|discriminate].
  destruct (torch_eye n) as [eye|e]; cbn [bind]; [|discriminate].
  intros H. injection H as <-. reflexivity.
Qed.

(** With a window of [n] samples and [n <= nfft] the windowed kernels are
    the elementwise products, row by row. *)
Lemma STFT_init_weight (n h : Z) (nfft0 : option Z) (win : win_arg)
    (center : bool) (s : STFT) :
  STFT_init get_window pinv n h nfft0 win center = Ok s ->
  (n <= nfft s)%Z ->
  length (window s) = Z.to_nat n ->
  weight s = map (fun row => mul_window row (window s))
                 (fourier_kernel n (nfft s)).
Proof.
  intros H Hle Hlen.
  apply STFT_init_inv in H as (_ & _ & _ & HN & Hn & _ & Hk & _).
  rewrite mapM_mul_window in Hk; [now injection Hk|].
  rewrite Hlen. apply fourier_kernel_rows. lia.
Qed.

Lemma STFT_init_inv_weight (n h : Z) (nfft0 : option Z) (win : win_arg)
    (center : bool) (s : STFT) :
  STFT_init get_window pinv n h nfft0 win center = Ok s ->
  length (window s) = Z.to_nat n ->
  length (pinv (fourier_kernel n (nfft s))) = Z.to_nat n ->
  inv_weight s =
  map (fun row => mul_window row (window s))
      (transpose (2 * Z.to_nat (nfft s / 2 + 1))
         (pinv (fourier_kernel n (nfft s)))).
Proof.
  intros H Hlen Hp.
  apply STFT_init_inv in H as (_ & _ & _ & HN & Hn & _ & _ & Hk & _).
  rewrite mapM_mul_window in Hk; [now injection Hk|].
  rewrite Hlen, <- Hp. apply transpose_rows.
Qed.

End Built.

(** ** Finite sums and indexing *)

Section Sums.

Local Open Scope R_scope.

Lemma sum_n_S (n : nat) (f : nat -> R) :
  sum_n (S n) f = sum_n n f + f n.
Proof.
  unfold sum_n, tabulate. rewrite seq_S, map_app. cbn [map Nat.add].
  generalize (map f (seq 0 n)) as l. intros l.
  induction l as [|a l IH]; cbn [Rsum fold_right app] in *; [ring|].
  unfold Rsum in IH. rewrite IH. ring.
Qed.

Lemma sum_n_0 (f : nat -> R) : sum_n 0 f = 0.
Proof. reflexivity. Qed.

Lemma sum_n_ext (n : nat) (f g : nat -> R) :
  (forall i, (i < n)%nat -> f i = g i) -> sum_n n f = sum_n n g.
Proof.
  induction n as [|n IH]; intros H; [reflexivity|].
  rewrite !sum_n_S, IH, H by auto. reflexivity.
Qed.

Lemma sum_n_zero (n : nat) (f : nat -> R) :
  (forall i, (i < n)%nat -> f i = 0) -> sum_n n f = 0.
Proof.
  induction n as [|n IH]; intros H; [reflexivity|].
  rewrite sum_n_S, IH, H by auto. ring.
Qed.

Lemma sum_n_scal (n : nat) (c : R) (f : nat -> R) :
  sum_n n (fun i => c * f i) = c * sum_n n f.
Proof.
  induction n as [|n IH]; [rewrite !sum_n_0; ring|].
  rewrite !sum_n_S, IH. ring.
Qed.

Lemma sum_n_plus (n : nat) (f g : nat -> R) :
  sum_n n (fun i => f i + g i) = sum_n n f + sum_n n g.
Proof.
  induction n as [|n IH]; [rewrite !sum_n_0; ring|].
  rewrite !sum_n_S, IH. ring.
Qed.

Lemma sum_n_swap (n m : nat) (f : nat -> nat -> R) :
  sum_n n (fun i => sum_n m (fun j => f i j)) =
  sum_n m (fun j => sum_n n (fun i => f i j)).
Proof.
  induction n as [|n IH].
  - rewrite sum_n_0. symmetry. now apply sum_n_zero.
  - rewrite sum_n_S, IH, <- sum_n_plus.
    apply sum_n_ext. intros j _. now rewrite sum_n_S.
Qed.

(** A sum with a single non-zero term. *)
Lemma sum_n_single (n u : nat) (f : nat -> R) :
  (u < n)%nat ->
  (forall i, (i < n)%nat -> i <> u -> f i = 0) ->
  sum_n n f = f u.
Proof.
  induction n as [|n IH]; intros Hu H; [lia|].
  rewrite sum_n_S. destruct (Nat.eq_dec u n) as [->|Hne].
  - rewrite sum_n_zero; [ring|]. intros i Hi. apply H; lia.
  - rewrite IH, (H n) by (try intros; try apply H; lia). ring.
Qed.

(** A sum with two non-zero terms. *)
Lemma sum_n_pair (n u v : nat) (f : nat -> R) :
  (u < v < n)%nat ->
  (forall i, (i < n)%nat -> i <> u -> i <> v -> f i = 0) ->
  sum_n n f = f u + f v.
Proof.
  induction n as [|n IH]; intros Huv H; [lia|].
  rewrite sum_n_S. destruct (Nat.eq_dec v n) as [->|Hne].
  - rewrite (sum_n_single n u) by (try intros; try apply H; lia).
    reflexivity.
  - rewrite IH, (H n) by (try intros; try apply H; lia). ring.
Qed.

Lemma sum_n_delta (n u : nat) (f : nat -> R) :
  (u < n)%nat ->
  sum_n n (fun t => f t * (if (u =? t)%nat then 1 else 0)) = f u.
Proof.
  intros Hu. rewrite (sum_n_single n u); [|assumption|].
  - rewrite Nat.eqb_refl. ring.
  - intros i _ Hi. destruct (Nat.eqb_spec u i); [congruence | ring].
Qed.

Lemma nth_nil_R (k : nat) : nth k (@nil R) 0 = 0.
Proof. now destruct k. Qed.

Lemma nth_map_lt {A B : Type} (f : A -> B) (l : list A) (i : nat)
    (d : B) (d' : A) :
  (i < length l)%nat -> nth i (map f l) d = f (nth i l d').
Proof.
  intros Hi. rewrite (nth_indep _ d (f d')) by now rewrite length_map.
  apply map_nth.
Qed.

(** Column [j] of row [r], read through a map over rows. *)
Lemma nth_map_col (m : list (list R)) (r j : nat) :
  nth r (map (fun row => nth j row 0) m) 0 = at2 m r j.
Proof.
  unfold at2. revert r.
  induction m as [|row m IH]; intros r.
  - destruct r, j; reflexivity.
  - destruct r; simpl; [reflexivity | apply IH].
Qed.

Lemma at2_transpose (cols : nat) (m : list (list R)) (c u : nat) :
  (c < cols)%nat -> at2 (transpose cols m) c u = at2 m u c.
Proof.
  intros Hc. unfold at2 at 1, transpose.
  rewrite nth_tabulate by assumption. apply nth_map_col.
Qed.

Lemma nth_mul_window (a b : list R) (t : nat) :
  length a = length b ->
  nth t (mul_window a b) 0 = nth t a 0 * nth t b 0.
Proof.
  unfold mul_window. revert b t.
  induction a as [|x a IH]; intros [|y b] t H; try discriminate.
  - destruct t; simpl; ring.
  - destruct t as [|t]; simpl; [reflexivity|]. apply IH. simpl in H. lia.
Qed.

End Sums.

(** ** Running the engine *)

Section Run.

Local Open Scope R_scope.

Variable get_window : string -> Z -> result (list R).
Variable pinv : list (list R) -> list (list R).

(** Construction succeeds as soon as the window step yields [n] samples,
    [1 <= n <= N], and the pseudo-inverse has [n] rows. *)
Lemma STFT_init_Ok (n h N : Z) (win : win_arg) (w : list R)
    (center : bool) :
  (1 <= n <= N)%Z ->
  match win with
  | WinName name =>
      String.eqb name "hann sqrt" = false /\ get_window name n = Ok w
  | WinArray w' => w' = w
  end ->
  length w = Z.to_nat n ->
  length (pinv (fourier_kernel n N)) = Z.to_nat n ->
  exists s,
    STFT_init get_window pinv n h (Some N) win center = Ok s /\
    window s = w /\ nfft s = N.
Proof.
  intros Hn Hwin Hw Hp.
  assert (Hwin' : match win with
                  | WinName name =>
                      if String.eqb name "hann sqrt" then Raise NameError
                      else get_window name n
                  | WinArray w0 => Ok w0
                  end = Ok w).
  { destruct win as [name|w']; [|now subst].
    destruct Hwin as [-> Hg]. exact Hg. }
  unfold STFT_init, init_conv_stft_kernels. cbn [bind].
  rewrite Hwin'. cbn [bind].
  destruct (Z.leb_spec N 0) as [|_]; [lia|].
  rewrite mapM_mul_window
    by (rewrite Hw; apply fourier_kernel_rows; lia).
  rewrite mapM_mul_window
    by (rewrite Hw, <- Hp; apply transpose_rows).
  cbn [bind fst snd]. unfold torch_eye.
  destruct (Z.ltb_spec n 0) as [|_]; [lia|]. cbn [bind].
  eexists. split; [reflexivity|]. split; reflexivity.
Qed.

Variables (n h : Z) (nfft0 : option Z) (win : win_arg) (center : bool).
Variable s : STFT.

Hypothesis Hs : STFT_init get_window pinv n h nfft0 win center = Ok s.
Hypothesis Hn : (1 <= n <= nfft s)%Z.
Hypothesis Hw : length (window s) = Z.to_nat n.

Let dim : nat := Z.to_nat (nfft s / 2 + 1).

Lemma built_nframe : nframe s = n.
Proof.
  exact (proj1 (STFT_init_inv get_window pinv _ _ _ _ _ _ Hs)).
Qed.

Lemma built_nhop : nhop s = h.
Proof.
  exact (proj1 (proj2 (STFT_init_inv get_window pinv _ _ _ _ _ _ Hs))).
Qed.

Lemma built_pad : pad s = if center then (n / 2)%Z else 0%Z.
Proof.
  exact (proj1 (proj2 (proj2
           (STFT_init_inv get_window pinv _ _ _ _ _ _ Hs)))).
Qed.

Lemma built_pad_nonneg : (0 <= pad s)%Z.
Proof.
  rewrite built_pad. destruct center; [|lia].
  apply Z.div_pos; lia.
Qed.

Lemma built_weight :
  weight s = map (fun row => mul_window row (window s))
                 (fourier_kernel n (nfft s)).
Proof. eapply STFT_init_weight; [exact Hs | lia | exact Hw]. Qed.

Lemma built_weight_length : length (weight s) = (2 * dim)%nat.
Proof. rewrite built_weight, length_map. apply length_fourier_kernel. Qed.

Lemma dim_pos : (1 <= dim)%nat.
Proof.
  unfold dim. assert (0 <= nfft s / 2)%Z by (apply Z.div_pos; lia). lia.
Qed.

Lemma built_weight_rows :
  Forall (fun row => length row = Z.to_nat n) (weight s).
Proof.
  rewrite built_weight. apply Forall_forall. intros row Hin.
  apply in_map_iff in Hin as (r & <- & Hr).
  pose proof (fourier_kernel_rows n (nfft s) ltac:(lia)) as HK.
  rewrite Forall_forall in HK. unfold mul_window.
  rewrite length_map, length_combine, (HK r Hr), Hw. lia.
Qed.

Lemma built_ksize : ksize_of (weight s) = Z.to_nat n.
Proof.
  unfold ksize_of. pose proof built_weight_rows as HR.
  pose proof built_weight_length as HL. pose proof dim_pos.
  destruct (weight s) as [|row rest]; [simpl in HL; lia|].
  now inversion HR.
Qed.

Lemma length_F_pad (x : list R) :
  length (F_pad (pad s) x) = (length x + 2 * Z.to_nat (pad s))%nat.
Proof.
  unfold F_pad. rewrite !length_app, !repeat_length. lia.
Qed.

(** The number of frames the analysis yields for an input of [T]
    samples. *)
Let frames_of (T : nat) : nat :=
  S ((T + 2 * Z.to_nat (pad s) - Z.to_nat n) / Z.to_nat h).

(** The output of [conv1d] inside [transform]. *)
Let out_complex (x : list R) : list (list R) :=
  map (fun wc =>
         tabulate (frames_of (length x)) (fun k =>
           sum_n (Z.to_nat n) (fun t =>
             nth t wc 0 * nth (k * Z.to_nat h + t) (F_pad (pad s) x) 0)))
      (weight s).

Lemma transform_run (x : list R) :
  transform s x =
  if (h <=? 0)%Z then Raise RuntimeError
  else if (length x + 2 * Z.to_nat (pad s) <? Z.to_nat n)%nat
       then Raise RuntimeError
       else Ok (transpose (frames_of (length x))
                  (firstn dim (out_complex x)),
                transpose (frames_of (length x))
                  (skipn dim (out_complex x))).
Proof.
  unfold transform, conv1d. rewrite built_nhop, built_ksize, length_F_pad.
  destruct (Z.leb_spec h 0) as [|Hh]; [reflexivity|].
  destruct (Nat.ltb_spec (length x + 2 * Z.to_nat (pad s)) (Z.to_nat n))
    as [|Hlen]; [reflexivity|].
  cbn [bind]. fold (frames_of (length x)). fold (out_complex x).
  fold dim.
  assert (HL : length (out_complex x) = (2 * dim)%nat).
  { unfold out_complex. rewrite length_map. apply built_weight_length. }
  assert (Hhd : length (hd [] (out_complex x)) = frames_of (length x)).
  { unfold out_complex. pose proof built_weight_length as HW.
    pose proof dim_pos.
    destruct (weight s) as [|row rest]; [simpl in HW; lia|].
    cbn [map hd]. apply length_tabulate. }
  rewrite Hhd, length_firstn, length_skipn, HL.
  replace (Nat.min dim (2 * dim) =? 2 * dim - dim)%nat with true
    by (symmetry; apply Nat.eqb_eq; lia).
  reflexivity.
Qed.


(** C5 (amended).  Construction never reads the hop: an engine that can be
    built with one hop can be built with every hop, zero and negative hops
    included.  For an engine built for a frame of [n >= 1] samples with
    [n <= nfft] and a window of [n] samples, the padding is [n // 2] with
    centring and zero without, and analysis raises (torch's [RuntimeError])
    exactly when the hop is not positive or the padded input length
    [T + 2 pad] is shorter than one frame.  In particular, with centring,
    an even frame length and a positive hop, no input is rejected for its
    length. *)
Theorem hop_and_length_checks :
  (forall h',
      STFT_init get_window pinv n h' nfft0 win center
      = Ok (with_nhop s h')) /\
  pad s = (if center then (n / 2)%Z else 0%Z) /\
  (forall x,
      raises (transform s x) <->
      (h <= 0 \/ Z.of_nat (length x) + 2 * pad s < n)%Z) /\
  (center = true -> Z.even n = true -> (0 < h)%Z ->
   forall x, exists spec, transform s x = Ok spec).
Proof.
  pose proof built_pad_nonneg as Hp.
  assert (Hraise : forall x,
      raises (transform s x) <->
      (h <= 0 \/ Z.of_nat (length x) + 2 * pad s < n)%Z).
  { intros x. rewrite transform_run. unfold raises.
    destruct (Z.leb_spec h 0) as [Hh|Hh].
    - split; [left; lia | intros _; eexists; reflexivity].
    - destruct (Nat.ltb_spec (length x + 2 * Z.to_nat (pad s))
                  (Z.to_nat n)) as [Hl|Hl].
      + split; [right; lia | intros _; eexists; reflexivity].
      + split; [intros [e He]; discriminate | lia]. }
  split; [intros h'; eapply STFT_init_any_hop; exact Hs|].
  split; [apply built_pad|].
  split; [exact Hraise|].
  intros Hc He Hh x.
  destruct (transform s x) as [spec|e] eqn:E; [now exists spec|].
  exfalso.
  assert (Hr : raises (transform s x)) by (exists e; exact E).
  apply Hraise in Hr. rewrite built_pad, Hc in Hr.
  apply Zeven_bool_iff in He. apply Zeven_div2 in He.
  rewrite Z.div2_div in He. lia.
Qed.

Hypothesis Hinv :
  left_inverse (pinv (fourier_kernel n (nfft s)))
               (fourier_kernel n (nfft s)) (Z.to_nat n).
Hypothesis Hh : (0 < h)%Z.

Let K : list (list R) := fourier_kernel n (nfft s).
Let P : list (list R) := pinv (fourier_kernel n (nfft s)).
Let w : list R := window s.
Let nn : nat := Z.to_nat n.
Let hs : nat := Z.to_nat h.

Lemma K_row_length (c : nat) :
  (c < 2 * dim)%nat -> length (nth c K []) = nn.
Proof.
  intros Hc. pose proof (fourier_kernel_rows n (nfft s) ltac:(lia)) as HK.
  rewrite Forall_forall in HK. apply HK. apply nth_In.
  unfold K. now rewrite length_fourier_kernel.
Qed.

Lemma at2_weight (c t : nat) :
  (c < 2 * dim)%nat -> at2 (weight s) c t = at2 K c t * nth t w 0.
Proof.
  intros Hc. unfold at2. rewrite built_weight.
  rewrite (nth_map_lt _ _ _ [] [])
    by now rewrite length_fourier_kernel.
  fold K. apply nth_mul_window. rewrite K_row_length by assumption.
  unfold w, nn. now rewrite Hw.
Qed.

Lemma built_inv_weight :
  inv_weight s =
  map (fun row => mul_window row w) (transpose (2 * dim) P).
Proof.
  eapply STFT_init_inv_weight; [exact Hs | exact Hw | apply Hinv].
Qed.

Lemma built_inv_weight_length : length (inv_weight s) = (2 * dim)%nat.
Proof.
  rewrite built_inv_weight, length_map. apply length_transpose.
Qed.

Lemma length_P : length P = nn.
Proof. apply Hinv. Qed.

Lemma at2_inv_weight (c u : nat) :
  (c < 2 * dim)%nat -> at2 (inv_weight s) c u = at2 P u c * nth u w 0.
Proof.
  intros Hc. unfold at2 at 1. rewrite built_inv_weight.
  rewrite (nth_map_lt _ _ _ [] []) by now rewrite length_transpose.
  rewrite nth_mul_window.
  - f_equal. fold (at2 (transpose (2 * dim) P) c u).
    now apply at2_transpose.
  - pose proof (transpose_rows (2 * dim) P) as HT.
    rewrite Forall_forall in HT. rewrite (HT (nth c _ _)).
    + rewrite length_P. unfold w, nn. now rewrite Hw.
    + apply nth_In. now rewrite length_transpose.
Qed.

Lemma built_inv_ksize : ksize_of (inv_weight s) = nn.
Proof.
  unfold ksize_of. rewrite built_inv_weight.
  pose proof dim_pos as Hd. unfold transpose, tabulate.
  destruct (2 * dim)%nat as [|m] eqn:E; [lia|].
  cbn [seq map hd]. unfold mul_window.
  rewrite length_map, length_combine, length_map, length_P.
  unfold w, nn. rewrite Hw. lia.
Qed.

Lemma built_enframe :
  enframe s = tabulate nn (fun i =>
                tabulate nn (fun j => if (i =? j)%nat then 1 else 0)).
Proof. now apply STFT_init_inv in Hs. Qed.

Lemma built_enframe_ksize : ksize_of (enframe s) = nn.
Proof.
  unfold ksize_of. rewrite built_enframe. unfold tabulate at 1.
  assert (1 <= nn)%nat by (unfold nn; lia).
  destruct nn as [|m]; [lia|]. cbn [seq map hd]. apply length_tabulate.
Qed.

Lemma at2_enframe (m u : nat) :
  (m < nn)%nat ->
  at2 (enframe s) m u = if (m =? u)%nat then 1 else 0.
Proof.
  intros Hm. unfold at2. rewrite built_enframe.
  rewrite nth_tabulate by assumption.
  destruct (Nat.lt_ge_cases u nn) as [Hu|Hu].
  - now rewrite nth_tabulate.
  - rewrite nth_overflow by now rewrite length_tabulate.
    destruct (Nat.eqb_spec m u); [lia | reflexivity].
Qed.

Lemma at2_out_complex (x : list R) (c k : nat) :
  (c < 2 * dim)%nat -> (k < frames_of (length x))%nat ->
  at2 (out_complex x) c k =
  sum_n nn (fun t =>
    at2 K c t * nth t w 0 * nth (k * hs + t) (F_pad (pad s) x) 0).
Proof.
  intros Hc Hk. unfold at2 at 1, out_complex.
  rewrite (nth_map_lt _ _ _ [] []) by now rewrite built_weight_length.
  rewrite nth_tabulate by assumption.
  apply sum_n_ext. intros t _.
  fold (at2 (weight s) c t). now rewrite at2_weight.
Qed.

Lemma out_complex_length (x : list R) :
  length (out_complex x) = (2 * dim)%nat.
Proof. unfold out_complex. rewrite length_map. apply built_weight_length. Qed.

(** Splitting the channels, transposing, concatenating the two halves
    frame by frame and transposing back returns every entry of the
    convolution output. *)
Lemma at2_inputs (out : list (list R)) (fr c k : nat) :
  length out = (2 * dim)%nat ->
  (c < 2 * dim)%nat -> (k < fr)%nat ->
  at2 (transpose (dim + dim)
         (concat_axis1 (transpose fr (firstn dim out))
                       (transpose fr (skipn dim out)))) c k
  = at2 out c k.
Proof.
  intros HL Hc Hk.
  rewrite at2_transpose by lia. unfold at2 at 1, concat_axis1.
  rewrite (nth_map_lt _ _ _ [] ([], []))
    by (rewrite length_combine, !length_transpose; lia).
  rewrite combine_nth by now rewrite !length_transpose.
  cbn [fst snd]. unfold transpose. rewrite !nth_tabulate by assumption.
  destruct (Nat.lt_ge_cases c dim) as [Hlt|Hge].
  - rewrite app_nth1
      by (rewrite length_map, length_firstn; lia).
    rewrite nth_map_col. unfold at2. rewrite nth_firstn.
    now replace (c <? dim)%nat with true by (symmetry; apply Nat.ltb_lt; lia).
  - rewrite app_nth2
      by (rewrite length_map, length_firstn; lia).
    rewrite length_map, length_firstn, HL.
    replace (Nat.min dim (2 * dim)) with dim by lia.
    rewrite nth_map_col. unfold at2. rewrite nth_skipn.
    now replace (dim + (c - dim))%nat with c by lia.
Qed.

Lemma hd_transpose_length (fr : nat) (m : list (list R)) :
  (1 <= fr)%nat -> length (hd [] (transpose fr m)) = length m.
Proof.
  intros Hfr. unfold transpose, tabulate.
  destruct fr as [|fr]; [lia|]. cbn [seq map hd]. apply length_map.
Qed.

Lemma combine_tabulate {A B : Type} (m : nat) (f : nat -> A)
    (g : nat -> B) :
  combine (tabulate m f) (tabulate m g) = tabulate m (fun i => (f i, g i)).
Proof.
  unfold tabulate. generalize (seq 0 m) as l.
  induction l as [|a l IH]; simpl; [reflexivity | now rewrite IH].
Qed.

Lemma map_tabulate {A B : Type} (m : nat) (f : nat -> A) (g : A -> B) :
  map g (tabulate m f) = tabulate m (fun i => g (f i)).
Proof. unfold tabulate. apply map_map. Qed.

(** Length of the synthesis output before trimming. *)
Let total (x : list R) : nat :=
  ((frames_of (length x) - 1) * hs + nn)%nat.

Let trim (l : list R) : list R :=
  if (pad s =? 0)%Z then l else py_slice (pad s) (- pad s) l.

Lemma inverse_run (x : list R) :
  inverse s (transpose (frames_of (length x))
               (firstn dim (out_complex x)),
             transpose (frames_of (length x))
               (skipn dim (out_complex x))) =
  Ok (trim (tabulate (total x) (fun j =>
    sum_n (frames_of (length x)) (fun k =>
      sum_n (dim + dim) (fun c =>
        at2 (transpose (dim + dim)
               (concat_axis1
                  (transpose (frames_of (length x))
                     (firstn dim (out_complex x)))
                  (transpose (frames_of (length x))
                     (skipn dim (out_complex x))))) c k
        * tap (nth c (inv_weight s) []) j (k * hs)))
    / (sum_n (frames_of (length x)) (fun k =>
         sum_n nn (fun m =>
           at2 (map (fun wn => repeat (wn ^ 2) (frames_of (length x))) w)
               m k
           * tap (nth m (enframe s) []) j (k * hs)))
       + 1e-8)))).
Proof.
  pose proof (out_complex_length x) as HL. pose proof dim_pos as Hd.
  assert (Hfr : (1 <= frames_of (length x))%nat)
    by (unfold frames_of; lia).
  unfold inverse.
  rewrite !length_transpose, Nat.eqb_refl. cbn [negb].
  rewrite !hd_transpose_length by assumption.
  rewrite length_firstn, length_skipn, HL.
  replace (Nat.min dim (2 * dim)) with dim by lia.
  replace (2 * dim - dim)%nat with dim by lia.
  unfold conv_transpose1d.
  rewrite length_transpose, built_inv_weight_length.
  replace (dim + dim =? 2 * dim)%nat with true
    by (symmetry; apply Nat.eqb_eq; lia).
  cbn [negb]. rewrite built_nhop.
  destruct (Z.leb_spec h 0) as [|_]; [lia|].
  destruct (Nat.eqb_spec (frames_of (length x)) 0) as [|_]; [lia|].
  cbn [bind].
  rewrite length_map. fold w.
  replace (length w) with nn by (unfold w, nn; now rewrite Hw).
  rewrite built_enframe at 1. rewrite length_tabulate, Nat.eqb_refl.
  cbn [negb bind].
  rewrite built_inv_ksize, built_enframe_ksize.
  rewrite !length_tabulate, Nat.eqb_refl. cbn [negb].
  fold hs. fold (total x).
  rewrite combine_tabulate, map_tabulate. cbn [fst snd].
  reflexivity.
Qed.

Lemma nth_window_sq (u : nat) :
  nth u (map (fun v => v ^ 2) w) 0 = nth u w 0 * nth u w 0.
Proof.
  destruct (Nat.lt_ge_cases u (length w)) as [Hu|Hu].
  - rewrite (nth_map_lt _ _ _ 0 0) by assumption. ring.
  - rewrite !nth_overflow by (try rewrite length_map; assumption). ring.
Qed.

(** One frame of the overlap-add: analysis by the windowed kernel followed
    by synthesis with the windowed pseudo-inverse gives back the padded
    signal, weighted by the squared window. *)
Lemma synthesis_frame (x : list R) (j k : nat) :
  (k < frames_of (length x))%nat ->
  sum_n (dim + dim) (fun c =>
    at2 (transpose (dim + dim)
           (concat_axis1
              (transpose (frames_of (length x))
                 (firstn dim (out_complex x)))
              (transpose (frames_of (length x))
                 (skipn dim (out_complex x))))) c k
    * tap (nth c (inv_weight s) []) j (k * hs))
  = nth j (F_pad (pad s) x) 0
    * tap (map (fun v => v ^ 2) w) j (k * hs).
Proof.
  intros Hk. unfold tap.
  destruct (Nat.leb_spec (k * hs) j) as [Hle|Hgt].
  2:{ rewrite sum_n_zero; [ring|]. intros c _. ring. }
  set (u := (j - k * hs)%nat).
  rewrite nth_window_sq.
  transitivity
    (sum_n (dim + dim) (fun c =>
       sum_n nn (fun t =>
         (nth u w 0 * nth t w 0
          * nth (k * hs + t) (F_pad (pad s) x) 0)
         * (at2 P u c * at2 K c t)))).
  { apply sum_n_ext. intros c Hc.
    rewrite at2_inputs by (try apply out_complex_length; lia).
    rewrite at2_out_complex by (try assumption; lia).
    fold (at2 (inv_weight s) c u). rewrite at2_inv_weight by lia.
    rewrite Rmult_comm, <- sum_n_scal.
    apply sum_n_ext. intros t _. ring. }
  rewrite sum_n_swap.
  destruct (Nat.lt_ge_cases u nn) as [Hu|Hu].
  - transitivity
      (sum_n nn (fun t =>
         (nth u w 0 * nth t w 0 * nth (k * hs + t) (F_pad (pad s) x) 0)
         * (if (u =? t)%nat then 1 else 0))).
    { apply sum_n_ext. intros t Ht. rewrite sum_n_scal. f_equal.
      destruct Hinv as [_ Hd]. specialize (Hd u t Hu Ht).
      rewrite length_fourier_kernel in Hd. fold dim in Hd.
      replace (dim + dim)%nat with (2 * dim)%nat by lia. exact Hd. }
    rewrite sum_n_delta by assumption.
    replace (k * hs + u)%nat with j by (unfold u; lia). ring.
  - assert (Hz : nth u w 0 = 0).
    { apply nth_overflow. unfold w. rewrite Hw. exact Hu. }
    rewrite Hz. rewrite sum_n_zero; [ring|].
    intros t _. apply sum_n_zero. intros c _. ring.
Qed.

Lemma synthesis_numerator (x : list R) (j : nat) :
  sum_n (frames_of (length x)) (fun k =>
    sum_n (dim + dim) (fun c =>
      at2 (transpose (dim + dim)
             (concat_axis1
                (transpose (frames_of (length x))
                   (firstn dim (out_complex x)))
                (transpose (frames_of (length x))
                   (skipn dim (out_complex x))))) c k
      * tap (nth c (inv_weight s) []) j (k * hs)))
  = nth j (F_pad (pad s) x) 0
    * window_power w (frames_of (length x)) hs j.
Proof.
  unfold window_power. rewrite <- sum_n_scal.
  apply sum_n_ext. intros k Hk. now apply synthesis_frame.
Qed.

Lemma synthesis_denominator (fr j : nat) :
  sum_n fr (fun k =>
    sum_n nn (fun m =>
      at2 (map (fun wn => repeat (wn ^ 2) fr) w) m k
      * tap (nth m (enframe s) []) j (k * hs)))
  = window_power w fr hs j.
Proof.
  unfold window_power. apply sum_n_ext. intros k Hk. unfold tap.
  destruct (Nat.leb_spec (k * hs) j) as [Hle|Hgt].
  2:{ apply sum_n_zero. intros m _. ring. }
  set (u := (j - k * hs)%nat).
  assert (Hterm : forall m, (m < nn)%nat ->
    at2 (map (fun wn => repeat (wn ^ 2) fr) w) m k
    * nth u (nth m (enframe s) []) 0
    = nth m w 0 * nth m w 0 * (if (m =? u)%nat then 1 else 0)).
  { intros m Hm. fold (at2 (enframe s) m u).
    rewrite at2_enframe by assumption. f_equal.
    unfold at2.
    rewrite (nth_map_lt _ _ _ [] 0)
      by (unfold w; rewrite Hw; exact Hm).
    rewrite nth_repeat_lt by assumption. ring. }
  rewrite (sum_n_ext _ _ _ Hterm). rewrite nth_window_sq.
  destruct (Nat.lt_ge_cases u nn) as [Hu|Hu].
  - rewrite (sum_n_single nn u); [|assumption|].
    + rewrite Nat.eqb_refl. ring.
    + intros i _ Hi. destruct (Nat.eqb_spec i u); [congruence | ring].
  - rewrite sum_n_zero.
    + rewrite nth_overflow by (unfold w; rewrite Hw; exact Hu). ring.
    + intros m Hm. destruct (Nat.eqb_spec m u); [lia | ring].
Qed.

(** The whole forward pass, sample by sample. *)
Lemma forward_run (x : list R) :
  (nn <= length x + 2 * Z.to_nat (pad s))%nat ->
  forward s x =
  Ok (trim (tabulate (total x) (fun j =>
        nth j (F_pad (pad s) x) 0
        * window_power w (frames_of (length x)) hs j
        / (window_power w (frames_of (length x)) hs j + 1e-8)))).
Proof.
  intros Hlen. unfold forward. rewrite transform_run.
  destruct (Z.leb_spec h 0) as [|_]; [lia|].
  destruct (Nat.ltb_spec (length x + 2 * Z.to_nat (pad s)) (Z.to_nat n))
    as [|_]; [unfold nn in Hlen; lia|].
  cbn [bind]. rewrite inverse_run. f_equal. f_equal.
  unfold tabulate. apply map_ext. intros j.
  now rewrite synthesis_numerator, synthesis_denominator.
Qed.

Lemma trim_spec (l : list R) :
  (2 * Z.to_nat (pad s) <= length l)%nat ->
  length (trim l) = (length l - 2 * Z.to_nat (pad s))%nat /\
  forall i, (i < length l - 2 * Z.to_nat (pad s))%nat ->
    nth i (trim l) 0 = nth (i + Z.to_nat (pad s)) l 0.
Proof.
  intros Hl. pose proof built_pad_nonneg as Hp. unfold trim.
  destruct (Z.eqb_spec (pad s) 0) as [E|E].
  - rewrite E. cbn [Z.to_nat]. split; [lia|].
    intros i _. now rewrite Nat.add_0_r.
  - unfold py_slice, clip.
    destruct (Z.ltb_spec (pad s) 0); [lia|].
    destruct (Z.ltb_spec (- pad s) 0); [|lia].
    replace (Z.to_nat (Z.min (pad s) (Z.of_nat (length l))))
      with (Z.to_nat (pad s)) by lia.
    replace (Z.to_nat (Z.max 0 (Z.of_nat (length l) + - pad s)))
      with (length l - Z.to_nat (pad s))%nat by lia.
    split.
    + rewrite length_skipn, length_firstn. lia.
    + intros i Hi. rewrite nth_skipn, nth_firstn.
      replace (Z.to_nat (pad s) + i <? length l - Z.to_nat (pad s))%nat
        with true by (symmetry; apply Nat.ltb_lt; lia).
      f_equal. lia.
Qed.

Lemma nth_F_pad (x : list R) (i : nat) :
  (i < length x)%nat ->
  nth (i + Z.to_nat (pad s)) (F_pad (pad s) x) 0 = nth i x 0.
Proof.
  intros Hi. unfold F_pad.
  rewrite app_nth2 by (rewrite repeat_length; lia).
  rewrite repeat_length, app_nth1 by lia. f_equal. lia.
Qed.

Lemma total_le (x : list R) :
  (nn <= length x + 2 * Z.to_nat (pad s))%nat ->
  (total x <= length x + 2 * Z.to_nat (pad s))%nat.
Proof.
  intros Hlen. unfold total, frames_of. fold hs. fold nn.
  assert (Hhs : hs <> 0%nat) by (unfold hs; lia).
  pose proof (Nat.Div0.mul_div_le (length x + 2 * Z.to_nat (pad s) - nn) hs).
  lia.
Qed.

Lemma two_pad_le : (2 * Z.to_nat (pad s) <= nn)%nat.
Proof.
  rewrite built_pad. unfold nn. destruct center; [|simpl; lia].
  assert (0 <= n / 2)%Z by (apply Z.div_pos; lia).
  assert (2 * (n / 2) <= n)%Z by (apply Z.mul_div_le; lia). lia.
Qed.

(** The forward pass returns, and every output sample is the input sample
    times [c / (c + 1e-8)], where [c] is the window power at that
    sample. *)
Lemma forward_samples (x : list R) :
  (nn <= length x + 2 * Z.to_nat (pad s))%nat ->
  exists y,
    forward s x = Ok y /\
    length y = (total x - 2 * Z.to_nat (pad s))%nat /\
    (length y <= length x)%nat /\
    forall i, (i < length y)%nat ->
      nth i y 0 =
      nth i x 0
      * window_power w (frames_of (length x)) hs (i + Z.to_nat (pad s))
      / (window_power w (frames_of (length x)) hs (i + Z.to_nat (pad s))
         + 1e-8).
Proof.
  intros Hlen. rewrite forward_run by assumption.
  pose proof two_pad_le as Hp. pose proof (total_le x Hlen) as Ht.
  assert (Htot : (nn <= total x)%nat) by (unfold total; apply Nat.le_add_l).
  eexists. split; [reflexivity|].
  destruct (trim_spec
    (tabulate (total x) (fun j =>
        nth j (F_pad (pad s) x) 0
        * window_power w (frames_of (length x)) hs j
        / (window_power w (frames_of (length x)) hs j + 1e-8))))
    as [HL Hnth]; [rewrite length_tabulate; lia|].
  rewrite length_tabulate in HL, Hnth.
  split; [exact HL|]. split; [lia|].
  intros i Hi. rewrite HL in Hi. rewrite Hnth by assumption.
  rewrite nth_tabulate by lia.
  rewrite nth_F_pad by lia. reflexivity.
Qed.

End Run.

(** ** The square-root Hann window at half-frame hop *)

Section SqrtHann.

Local Open Scope R_scope.

Variable H : nat.
Hypothesis HH : (1 <= H)%nat.

Lemma hann_value (u : nat) :
  (u < 2 * H)%nat ->
  nth u (hann (2 * H)) 0 =
  1 / 2 - 1 / 2 * cos (2 * PI * INR u / INR (2 * H)).
Proof.
  intros Hu. unfold hann.
  destruct (Nat.leb_spec (2 * H) 1); [lia|].
  now rewrite nth_tabulate.
Qed.

Lemma hann_nonneg (u : nat) : 0 <= nth u (hann (2 * H)) 0.
Proof.
  destruct (Nat.lt_ge_cases u (2 * H)) as [Hu|Hu].
  - rewrite hann_value by assumption.
    pose proof (COS_bound (2 * PI * INR u / INR (2 * H))). lra.
  - rewrite nth_overflow; [lra|]. unfold hann.
    destruct (Nat.leb_spec (2 * H) 1); [lia|].
    now rewrite length_tabulate.
Qed.

Lemma length_hann (m : nat) : length (hann m) = m.
Proof.
  unfold hann. destruct (m <=? 1)%nat;
    [apply repeat_length | apply length_tabulate].
Qed.

Lemma length_hann_sqrt (m : nat) : length (hann_sqrt m) = m.
Proof. unfold hann_sqrt. rewrite length_map. apply length_hann. Qed.

(** The squared square-root window is the Hann window. *)
Lemma hann_sqrt_sq (u : nat) :
  nth u (map (fun v => v ^ 2) (hann_sqrt (2 * H))) 0
  = nth u (hann (2 * H)) 0.
Proof.
  destruct (Nat.lt_ge_cases u (2 * H)) as [Hu|Hu].
  - unfold hann_sqrt.
    rewrite (nth_map_lt _ _ _ 0 0)
      by now rewrite length_map, length_hann.
    rewrite (nth_map_lt _ _ _ 0 0) by now rewrite length_hann.
    apply pow2_sqrt, hann_nonneg.
  - rewrite !nth_overflow;
      [reflexivity | now rewrite length_hann
                   | now rewrite length_map, length_hann_sqrt].
Qed.

(** Two Hann samples half a frame apart sum to one. *)
Lemma hann_half_shift (r : nat) :
  (r < H)%nat ->
  nth (r + H) (hann (2 * H)) 0 + nth r (hann (2 * H)) 0 = 1.
Proof.
  intros Hr. rewrite !hann_value by lia.
  assert (HI : INR H <> 0) by (apply not_0_INR; lia).
  replace (2 * PI * INR (r + H) / INR (2 * H))
    with (2 * PI * INR r / INR (2 * H) + PI).
  - rewrite neg_cos. lra.
  - rewrite plus_INR, mult_INR. simpl INR. field. assumption.
Qed.

(** Constant overlap-add: away from the first half frame and before the
    last one, the window power of the square-root Hann window at hop [H]
    is one. *)
Lemma window_power_sqrt_hann (fr j : nat) :
  (H <= j < fr * H)%nat ->
  window_power (hann_sqrt (2 * H)) fr H j = 1.
Proof.
  intros [Hlo Hhi]. unfold window_power.
  assert (HH0 : H <> 0%nat) by lia.
  set (q := (j / H)%nat). set (r := (j mod H)%nat).
  assert (Hj : j = (q * H + r)%nat).
  { unfold q, r. rewrite Nat.mul_comm. apply Nat.div_mod_eq. }
  assert (Hr : (r < H)%nat) by (apply Nat.mod_upper_bound; assumption).
  assert (Hq1 : (1 <= q)%nat).
  { unfold q. apply Nat.div_le_lower_bound; lia. }
  assert (Hq2 : (q < fr)%nat).
  { unfold q. apply Nat.Div0.div_lt_upper_bound. lia. }
  rewrite (sum_n_pair fr (q - 1) q); [|lia|].
  - unfold tap.
    assert (E1 : ((q - 1) * H <= j)%nat) by nia.
    assert (E2 : (q * H <= j)%nat) by nia.
    apply Nat.leb_le in E1, E2. rewrite E1, E2.
    replace (j - (q - 1) * H)%nat with (r + H)%nat by nia.
    replace (j - q * H)%nat with r by nia.
    rewrite !hann_sqrt_sq. now apply hann_half_shift.
  - intros k Hk Hk1 Hk2. unfold tap.
    destruct (Nat.leb_spec (k * H) j) as [Hle|Hgt]; [|reflexivity].
    assert (Hkq : (k + 2 <= q)%nat).
    { destruct (Nat.lt_ge_cases q k) as [Hqk|Hqk]; [|lia].
      assert ((q + 1) * H <= k * H)%nat
        by (apply Nat.mul_le_mono_r; lia). nia. }
    assert ((k + 2) * H <= q * H)%nat by (apply Nat.mul_le_mono_r; lia).
    apply nth_overflow. rewrite length_map, length_hann_sqrt. nia.
Qed.

End SqrtHann.

(** ** The pseudo-inverse of the Fourier kernel is a left inverse

    The unwindowed kernel has a left inverse (the inverse real transform)
    whenever [nframe <= nfft]; hence any matrix satisfying the Moore-Penrose
    identity [k p k = k] is a left inverse of it too. *)

Section FourierInverse.

Local Open Scope R_scope.

Lemma sum_n_S_first (n : nat) (f : nat -> R) :
  sum_n (S n) f = f 0%nat + sum_n n (fun i => f (S i)).
Proof.
  induction n as [|n IH].
  - rewrite sum_n_S, !sum_n_0. ring.
  - rewrite sum_n_S, IH, sum_n_S. ring.
Qed.

(** Telescoping: [2 sin(th/2) cos(f th) = sin((f + 1/2) th) - sin((f - 1/2) th)]. *)
Lemma cos_sum_telescope (th : R) (k : nat) :
  2 * sin (th / 2) * sum_n k (fun i => cos (INR (S i) * th))
  = sin ((INR k + 1 / 2) * th) - sin (th / 2).
Proof.
  induction k as [|k IH].
  - rewrite sum_n_0. simpl INR. replace ((0 + 1 / 2) * th) with (th / 2) by lra. ring.
  - rewrite sum_n_S, Rmult_plus_distr_l, IH.
    rewrite !S_INR.
    replace ((INR k + 1 + 1 / 2) * th) with ((INR k + 1) * th + th / 2) by lra.
    replace ((INR k + 1 / 2) * th) with ((INR k + 1) * th - th / 2) by lra.
    rewrite sin_plus, sin_minus. ring.
Qed.

Lemma sin_nat_PI (d : nat) : sin (INR d * PI) = 0.
Proof.
  induction d as [|d IH].
  - simpl. rewrite Rmult_0_l. apply sin_0.
  - rewrite S_INR. replace ((INR d + 1) * PI) with (INR d * PI + PI) by ring.
    rewrite neg_sin, IH. ring.
Qed.

Lemma weighted_sum_odd (m : nat) (g : nat -> R) :
  sum_n (S m) (fun f => bin_weight (2 * m + 1) f * g f)
  = g 0%nat + 2 * sum_n m (fun i => g (S i)).
Proof.
  rewrite sum_n_S_first, <- sum_n_scal. f_equal.
  - unfold bin_weight. simpl. ring.
  - apply sum_n_ext. intros i Hi. unfold bin_weight.
    destruct (Nat.eqb_spec (S i) 0); [lia|].
    destruct (Nat.eqb_spec (2 * S i) (2 * m + 1)); [lia|]. reflexivity.
Qed.

Lemma weighted_sum_even (m : nat) (g : nat -> R) :
  sum_n (S (S m)) (fun f => bin_weight (2 * S m) f * g f)
  = g 0%nat + 2 * sum_n m (fun i => g (S i)) + g (S m).
Proof.
  rewrite sum_n_S_first, sum_n_S, <- sum_n_scal.
  replace (bin_weight (2 * S m) 0 * g 0%nat) with (g 0%nat)
    by (unfold bin_weight; simpl; ring).
  replace (bin_weight (2 * S m) (S m) * g (S m)) with (g (S m)).
  2:{ unfold bin_weight. destruct (Nat.eqb_spec (S m) 0); [lia|].
      rewrite Nat.eqb_refl. ring. }
  rewrite <- Rplus_assoc. f_equal. f_equal.
  apply sum_n_ext. intros i Hi. unfold bin_weight.
  destruct (Nat.eqb_spec (S i) 0); [lia|].
  destruct (Nat.eqb_spec (2 * S i) (2 * S m)); [lia|]. reflexivity.
Qed.

Lemma cos_weighted_sum (N d : nat) :
  (1 <= N)%nat -> (d < N)%nat ->
  sum_n (S (N / 2)) (fun f =>
    bin_weight N f * cos (INR f * (2 * PI * INR d / INR N)))
  = if (d =? 0)%nat then INR N else 0.
Proof.
  intros HN Hd.
  assert (HNR : 0 < INR N) by (apply lt_0_INR; lia).
  set (th := 2 * PI * INR d / INR N).
  destruct (Nat.eqb_spec d 0) as [->|Hd0].
  - assert (Eth : th = 0) by (unfold th; simpl; field; lra).
    rewrite Eth.
    destruct (Nat.Even_or_Odd N) as [[m Hm]|[m Hm]].
    + destruct m as [|m]; [lia|]. subst N.
      replace (2 * S m / 2)%nat with (S m) by (apply Nat.div_unique_exact; lia).
      rewrite (weighted_sum_even m (fun f => cos (INR f * 0))).
      rewrite (sum_n_ext _ _ (fun _ => 1)) by (intros; rewrite Rmult_0_r; apply cos_0).
      rewrite !Rmult_0_r, cos_0.
      assert (E1 : sum_n m (fun _ => 1) = INR m).
      { clear. induction m as [|m IH]; [reflexivity|]. rewrite sum_n_S, IH, S_INR. ring. }
      rewrite E1, mult_INR, !S_INR. simpl INR. ring.
    + subst N.
      replace ((2 * m + 1) / 2)%nat with m.
      2:{ apply (Nat.div_unique _ _ _ 1%nat); lia. }
      rewrite (weighted_sum_odd m (fun f => cos (INR f * 0))).
      rewrite (sum_n_ext _ _ (fun _ => 1)) by (intros; rewrite Rmult_0_r; apply cos_0).
      rewrite !Rmult_0_r, cos_0.
      assert (E1 : sum_n m (fun _ => 1) = INR m).
      { clear. induction m as [|m IH]; [reflexivity|]. rewrite sum_n_S, IH, S_INR. ring. }
      rewrite E1, plus_INR, mult_INR. simpl INR. ring.
  - assert (Hdpos : 0 < INR d) by (apply lt_0_INR; lia).
    assert (HdN : INR d < INR N) by (apply lt_INR; lia).
    assert (Hhalf : 0 < sin (th / 2)).
    { apply sin_gt_0.
      - unfold th. apply Rdiv_lt_0_compat; [|lra].
        apply Rdiv_lt_0_compat; [|lra].
        apply Rmult_lt_0_compat; [|lra]. pose proof PI_RGT_0. lra.
      - unfold th. pose proof PI_RGT_0 as HPI.
        replace (2 * PI * INR d / INR N / 2) with (PI * (INR d / INR N)) by (field; lra).
        rewrite <- (Rmult_1_r PI) at 2. apply Rmult_lt_compat_l; [lra|].
        apply Rmult_lt_reg_r with (INR N); [lra|].
        unfold Rdiv. rewrite Rmult_assoc, Rinv_l by lra. lra. }
    apply Rmult_eq_reg_l with (sin (th / 2)); [|lra].
    rewrite Rmult_0_r.
    destruct (Nat.Even_or_Odd N) as [[m Hm]|[m Hm]].
    + destruct m as [|m]; [lia|]. subst N.
      replace (2 * S m / 2)%nat with (S m) by (apply Nat.div_unique_exact; lia).
      rewrite (weighted_sum_even m (fun f => cos (INR f * th))).
      pose proof (cos_sum_telescope th m) as HT.
      simpl (INR 0). rewrite Rmult_0_l, cos_0.
      assert (Em : INR (S m) * th = INR d * PI).
      { unfold th. rewrite mult_INR. simpl (INR 2).
        rewrite mult_INR in HNR. simpl (INR 2) in HNR. field. lra. }
      assert (Es : sin ((INR m + 1 / 2) * th) = - cos (INR (S m) * th) * sin (th / 2)).
      { replace ((INR m + 1 / 2) * th) with (INR (S m) * th - th / 2) by (rewrite S_INR; lra).
        rewrite sin_minus, Em, sin_nat_PI. ring. }
      rewrite Es in HT. nra.
    + subst N.
      replace ((2 * m + 1) / 2)%nat with m.
      2:{ apply (Nat.div_unique _ _ _ 1%nat); lia. }
      rewrite (weighted_sum_odd m (fun f => cos (INR f * th))).
      pose proof (cos_sum_telescope th m) as HT.
      simpl (INR 0). rewrite Rmult_0_l, cos_0.
      assert (Es : sin ((INR m + 1 / 2) * th) = 0).
      { replace ((INR m + 1 / 2) * th) with (INR d * PI).
        - apply sin_nat_PI.
        - unfold th. rewrite plus_INR, mult_INR in *. simpl INR in *. field. lra. }
      rewrite Es in HT. nra.
Qed.

Lemma sum_n_add (a b : nat) (f : nat -> R) :
  sum_n (a + b) f = sum_n a f + sum_n b (fun i => f (a + i)%nat).
Proof.
  induction b as [|b IH].
  - rewrite Nat.add_0_r, sum_n_0. ring.
  - rewrite Nat.add_succ_r, !sum_n_S, IH. ring.
Qed.

Section KernelEntries.

Variables n N : Z.
Hypothesis HnN : (1 <= n <= N)%Z.

Let F : nat := Z.to_nat (N / 2 + 1).

Lemma fourier_kernel_row (t : nat) :
  (t < Z.to_nat n)%nat ->
  nth t (concat_axis1 (py_slice_to n (rfft_eye_re N))
                      (py_slice_to n (rfft_eye_im N))) []
  = tabulate F (fun f => cos (2 * PI * INR f * INR t / IZR N))
    ++ tabulate F (fun f => - sin (2 * PI * INR f * INR t / IZR N)).
Proof.
  intros Ht. unfold concat_axis1, py_slice_to.
  rewrite length_rfft_eye_re, length_rfft_eye_im.
  replace (clip (Z.of_nat (Z.to_nat N)) n) with (Z.to_nat n)
    by (unfold clip; destruct (Z.ltb_spec n 0); lia).
  rewrite (nth_map_lt _ _ _ [] ([], []))
    by (rewrite length_combine, !length_firstn,
                length_rfft_eye_re, length_rfft_eye_im; lia).
  rewrite combine_nth
    by (rewrite !length_firstn, length_rfft_eye_re, length_rfft_eye_im; lia).
  cbn [fst snd]. rewrite !nth_firstn.
  replace (t <? Z.to_nat n)%nat with true by (symmetry; apply Nat.ltb_lt; lia).
  unfold rfft_eye_re, rfft_eye_im. rewrite !nth_tabulate by lia.
  reflexivity.
Qed.

Lemma at2_fourier_kernel_re (f t : nat) :
  (f < F)%nat -> (t < Z.to_nat n)%nat ->
  at2 (fourier_kernel n N) f t = cos (2 * PI * INR f * INR t / IZR N).
Proof.
  intros Hf Ht. unfold fourier_kernel. fold F.
  rewrite at2_transpose by lia. unfold at2.
  rewrite fourier_kernel_row by assumption.
  rewrite app_nth1 by (rewrite length_tabulate; lia).
  now rewrite nth_tabulate.
Qed.

Lemma at2_fourier_kernel_im (f t : nat) :
  (f < F)%nat -> (t < Z.to_nat n)%nat ->
  at2 (fourier_kernel n N) (F + f) t
  = - sin (2 * PI * INR f * INR t / IZR N).
Proof.
  intros Hf Ht. unfold fourier_kernel. fold F.
  rewrite at2_transpose by lia. unfold at2.
  rewrite fourier_kernel_row by assumption.
  rewrite app_nth2 by (rewrite length_tabulate; lia).
  rewrite length_tabulate.
  replace (F + f - F)%nat with f by lia.
  now rewrite nth_tabulate.
Qed.

Lemma at2_irfft_re (t f : nat) :
  (f < F)%nat -> (t < Z.to_nat n)%nat ->
  at2 (irfft_matrix n N) t f
  = bin_weight (Z.to_nat N) f
    * cos (2 * PI * INR f * INR t / IZR N) / IZR N.
Proof.
  intros Hf Ht. unfold at2, irfft_matrix. fold F.
  rewrite nth_tabulate by assumption.
  rewrite app_nth1 by (rewrite length_tabulate; lia).
  now rewrite nth_tabulate.
Qed.

Lemma at2_irfft_im (t f : nat) :
  (f < F)%nat -> (t < Z.to_nat n)%nat ->
  at2 (irfft_matrix n N) t (F + f)
  = bin_weight (Z.to_nat N) f
    * (- sin (2 * PI * INR f * INR t / IZR N)) / IZR N.
Proof.
  intros Hf Ht. unfold at2, irfft_matrix. fold F.
  rewrite nth_tabulate by assumption.
  rewrite app_nth2 by (rewrite length_tabulate; lia).
  rewrite length_tabulate.
  replace (F + f - F)%nat with f by lia.
  now rewrite nth_tabulate.
Qed.

Lemma cos_abs_diff (f t t' : nat) (th : R) :
  cos (INR f * th * INR t) * cos (INR f * th * INR t')
  + sin (INR f * th * INR t) * sin (INR f * th * INR t')
  = cos (INR f * (th * INR (Nat.max t t' - Nat.min t t'))).
Proof.
  rewrite <- cos_minus.
  destruct (Nat.le_ge_cases t t') as [Hle|Hge].
  - rewrite Nat.max_r, Nat.min_l by assumption.
    rewrite minus_INR by assumption.
    rewrite <- cos_neg. f_equal. ring.
  - rewrite Nat.max_l, Nat.min_r by assumption.
    rewrite minus_INR by assumption. f_equal. ring.
Qed.

Lemma irfft_left_inverse :
  left_inverse (irfft_matrix n N) (fourier_kernel n N) (Z.to_nat n).
Proof.
  split; [apply length_tabulate|].
  intros t t' Ht Ht'.
  rewrite length_fourier_kernel. fold F.
  replace (2 * F)%nat with (F + F)%nat by lia.
  rewrite sum_n_add, <- sum_n_plus.
  assert (HN : 0 < IZR N) by (apply IZR_lt; lia).
  set (d := (Nat.max t t' - Nat.min t t')%nat).
  transitivity
    (/ IZR N * sum_n F (fun f =>
       bin_weight (Z.to_nat N) f
       * cos (INR f * (2 * PI * INR d / INR (Z.to_nat N))))).
  { rewrite <- sum_n_scal. apply sum_n_ext. intros f Hf.
    rewrite at2_irfft_re, at2_irfft_im by assumption.
    rewrite at2_fourier_kernel_re, at2_fourier_kernel_im by assumption.
    rewrite (INR_IZR_INZ (Z.to_nat N)), Z2Nat.id by lia.
    pose proof (cos_abs_diff f t t' (2 * PI / IZR N)) as HC. fold d in HC.
    replace (INR f * (2 * PI * INR d / IZR N))
      with (INR f * (2 * PI / IZR N * INR d)) by (field; lra).
    rewrite <- HC.
    replace (2 * PI * INR f * INR t / IZR N)
      with (INR f * (2 * PI / IZR N) * INR t) by (field; lra).
    replace (2 * PI * INR f * INR t' / IZR N)
      with (INR f * (2 * PI / IZR N) * INR t') by (field; lra).
    field. lra. }
  assert (EF : F = S (Z.to_nat N / 2)).
  { unfold F. rewrite Z2Nat.inj_add, Z2Nat.inj_div by
      (try apply Z.div_pos; lia).
    change (Z.to_nat 2) with 2%nat. change (Z.to_nat 1) with 1%nat.
    apply Nat.add_1_r. }
  rewrite EF, cos_weighted_sum by (unfold d; lia).
  destruct (Nat.eqb_spec t t') as [->|Hne].
  - replace (d =? 0)%nat with true by (symmetry; apply Nat.eqb_eq; unfold d; lia).
    rewrite (INR_IZR_INZ (Z.to_nat N)), Z2Nat.id by lia. field. lra.
  - replace (d =? 0)%nat with false by (symmetry; apply Nat.eqb_neq; unfold d; lia).
    ring.
Qed.

End KernelEntries.

Lemma left_inverse_penrose (p k : list (list R)) (n : nat) :
  left_inverse p k n -> penrose_identity p k n.
Proof.
  intros [Hlen Hl]. split; [exact Hlen|].
  intros c t' Hc Ht'.
  rewrite (sum_n_ext _ _
             (fun t => at2 k c t * (if (t' =? t)%nat then 1 else 0))).
  - now apply sum_n_delta.
  - intros t Ht. rewrite Hl by assumption.
    rewrite Nat.eqb_sym. reflexivity.
Qed.

Lemma penrose_left_inverse (p l k : list (list R)) (n : nat) :
  penrose_identity p k n -> left_inverse l k n -> left_inverse p k n.
Proof.
  intros [Hlen Hp] [_ Hl]. split; [exact Hlen|].
  intros t t' Ht Ht'.
  set (pk := fun u => sum_n (length k) (fun c' => at2 p u c' * at2 k c' t')).
  change (pk t = if (t =? t')%nat then 1 else 0).
  rewrite <- (sum_n_delta n t pk Ht).
  rewrite (sum_n_ext _ _
             (fun u => sum_n (length k) (fun c =>
                         at2 l t c * (at2 k c u * pk u)))).
  2:{ intros u Hu. rewrite <- (Hl t u Ht Hu).
      rewrite <- sum_n_scal.
      apply sum_n_ext. intros c _. ring. }
  rewrite sum_n_swap.
  rewrite (sum_n_ext _ _ (fun c => at2 l t c * at2 k c t')).
  - now apply Hl.
  - intros c Hc. rewrite sum_n_scal. f_equal. now apply Hp.
Qed.

End FourierInverse.

(** ** C1: the round trip *)

Section RoundTrip.

Local Open Scope R_scope.

Lemma tap_sq_nonneg (w : list R) (j off : nat) :
  0 <= tap (map (fun v => v ^ 2) w) j off.
Proof.
  unfold tap. destruct (off <=? j)%nat; [|lra].
  destruct (Nat.lt_ge_cases (j - off) (length w)) as [Hu|Hu].
  - rewrite (nth_map_lt _ _ _ 0 0) by assumption. apply pow2_ge_0.
  - rewrite nth_overflow by now rewrite length_map. lra.
Qed.

Lemma window_power_nonneg (w : list R) (fr st j : nat) :
  0 <= window_power w fr st j.
Proof.
  unfold window_power. induction fr as [|fr IH].
  - rewrite sum_n_0. lra.
  - rewrite sum_n_S. pose proof (tap_sq_nonneg w j (fr * st)). lra.
Qed.

End RoundTrip.

(** C1 (amended).  Take an engine built for a frame of [n >= 1] samples with
    [n <= nfft], a window of [n] samples used for analysis and synthesis, a
    pseudo-inverse [p] of the unwindowed kernel [k] (what is used of it is
    the Moore-Penrose identity [k p k = k]), and a positive hop.  For every
    signal of at least one frame the forward pass
    returns; its output keeps [(frames - 1) * hop + n - 2 pad] samples, no
    more than the input has; read in exact arithmetic, output sample [i] is
    [x[i] * c / (c + 1e-8)], where [c] is the overlap-added squared window
    at that sample: zero where [c] is zero; and with the square-root Hann
    window, centring, an even frame length and a hop of half a frame,
    [c = 1] at every output sample, so that the sample is
    [x[i] / (1 + 1e-8)].  No tolerance is stated: the rounding of the
    float32 arithmetic, which grows with [|x[i]|], is outside the
    embedding. *)
Theorem round_trip_error
    (get_window : string -> Z -> result (list R))
    (pinv : list (list R) -> list (list R))
    (n h : Z) (nfft0 : option Z) (win : win_arg) (center : bool)
    (s : STFT) (x : list R) :
  STFT_init get_window pinv n h nfft0 win center = Ok s ->
  (1 <= n <= nfft s)%Z ->
  length (window s) = Z.to_nat n ->
  penrose_identity (pinv (fourier_kernel n (nfft s)))
                   (fourier_kernel n (nfft s)) (Z.to_nat n) ->
  (0 < h)%Z ->
  (Z.to_nat n <= length x)%nat ->
  exists y,
    forward s x = Ok y /\
    length y = output_length s (length x) /\
    (length y <= length x)%nat /\
    forall i, (i < length y)%nat ->
      let c := window_power (window s) (frames_for s (length x))
                 (Z.to_nat (nhop s)) (i + Z.to_nat (pad s)) in
      (nth i y 0 = nth i x 0 * c / (c + 1e-8))%R /\
      (c = 0 -> nth i y 0 = 0)%R /\
      (window s = hann_sqrt (Z.to_nat n) -> center = true ->
       Z.even n = true -> h = (n / 2)%Z ->
       c = 1 /\ nth i y 0 = nth i x 0 / (1 + 1e-8))%R.
Proof.
  intros Hs Hn Hw Hpen Hh Hx.
  assert (Hinv : left_inverse (pinv (fourier_kernel n (nfft s)))
                   (fourier_kernel n (nfft s)) (Z.to_nat n)).
  { eapply penrose_left_inverse; [exact Hpen|].
    apply irfft_left_inverse. exact Hn. }
  pose proof (built_nframe _ _ _ _ _ _ _ _ Hs) as En.
  pose proof (built_nhop _ _ _ _ _ _ _ _ Hs) as Eh.
  pose proof (built_pad _ _ _ _ _ _ _ _ Hs) as Ep.
  destruct (forward_samples _ _ _ _ _ _ _ _ Hs Hn Hw Hinv Hh x)
    as (y & Hy & Hlen & Hle & Hnth); [lia|].
  exists y. split; [exact Hy|].
  assert (Hlen' : length y = output_length s (length x)).
  { unfold output_length, frames_for. now rewrite En, Eh. }
  split; [exact Hlen'|]. split; [exact Hle|].
  intros i Hi c.
  assert (Hc : nth i y 0%R = (nth i x 0 * c / (c + 1e-8))%R).
  { subst c. unfold frames_for. rewrite En, Eh. now apply Hnth. }
  split; [exact Hc|]. split.
  - intros Hz. rewrite Hc, Hz. unfold Rdiv. ring.
  - intros Ewin Ec Hev Ehalf.
    cut (c = 1%R).
    { intros H1. split; [exact H1|]. rewrite Hc, H1. unfold Rdiv. ring. }
    subst c.
    apply Zeven_bool_iff, Zeven_div2 in Hev. rewrite Z.div2_div in Hev.
    assert (Hhalf : (1 <= Z.to_nat (n / 2))%nat) by lia.
    assert (E2 : Z.to_nat n = (2 * Z.to_nat (n / 2))%nat) by lia.
    rewrite Ewin, E2, Eh, Ehalf.
    apply window_power_sqrt_hann; [exact Hhalf|].
    rewrite Ep, Ec. split; [lia|].
    rewrite Hlen' in Hi. unfold output_length in Hi.
    rewrite En, Eh, Ep, Ec, Ehalf in Hi.
    assert (1 <= frames_for s (length x))%nat by (unfold frames_for; lia).
    nia.
Qed.

(** ** A two-sample engine, run on concrete signals *)

Section TwoSampleEngine.

Local Open Scope R_scope.

Lemma fourier_kernel_2_2 :
  fourier_kernel 2 2 = [[1; 1]; [1; -1]; [-0; -0]; [-0; -0]].
Proof.
  cbv - [cos sin PI Rmult Rdiv Rplus Ropp Rminus INR IZR Rinv].
  replace (2 * PI * INR 0 * INR 0 / 2) with 0 by (simpl; lra).
  replace (2 * PI * INR 0 * INR 1 / 2) with 0 by (simpl; lra).
  replace (2 * PI * INR 1 * INR 0 / 2) with 0 by (simpl; lra).
  replace (2 * PI * INR 1 * INR 1 / 2) with PI by (simpl; lra).
  now rewrite cos_0, sin_0, cos_PI, sin_PI.
Qed.

Lemma hann_2 : hann 2 = [0; 1].
Proof.
  cbv - [cos sin PI Rmult Rdiv Rplus Ropp Rminus INR IZR Rinv].
  replace (2 * PI * INR 0 / INR 2) with 0 by (simpl; lra).
  replace (2 * PI * INR 1 / INR 2) with PI by (simpl; lra).
  rewrite cos_0, cos_PI. f_equal; [lra|]. f_equal. lra.
Qed.

Lemma hann_sqrt_2 : hann_sqrt 2 = [0; 1].
Proof.
  unfold hann_sqrt. rewrite hann_2. cbn [map].
  now rewrite sqrt_0, sqrt_1.
Qed.

Lemma pinv_orth_left_inverse_2 :
  left_inverse (Lib.pinv_orth 2 2 (fourier_kernel 2 2))
               (fourier_kernel 2 2) 2.
Proof.
  rewrite fourier_kernel_2_2. split; [reflexivity|].
  intros t t' Ht Ht'.
  destruct t as [|[|t]]; [| |lia];
    (destruct t' as [|[|t']]; [| |lia]);
    cbv - [Rmult Rdiv Rplus Ropp Rminus IZR Rinv]; lra.
Qed.

(** The engine for frames of two samples and transform size two exists
    for every hop, with the Hann window by name or the square-root Hann
    window as an array. *)
Lemma two_sample_engine_hann (h : Z) :
  exists s,
    STFT_init Lib.get_window_hann (Lib.pinv_orth 2 2) 2 h (Some 2%Z)
      (WinName "hann") true = Ok s /\
    window s = hann 2 /\ nfft s = 2%Z.
Proof.
  apply STFT_init_Ok; [lia | | apply length_hann | reflexivity].
  split; reflexivity.
Qed.

Lemma two_sample_engine_sqrt (h : Z) :
  exists s,
    STFT_init Lib.get_window_hann (Lib.pinv_orth 2 2) 2 h (Some 2%Z)
      (WinArray (hann_sqrt 2)) true = Ok s /\
    window s = hann_sqrt 2 /\ nfft s = 2%Z.
Proof.
  apply STFT_init_Ok;
    [lia | reflexivity | apply length_hann_sqrt | reflexivity].
Qed.

End TwoSampleEngine.

Section ConcreteRuns.

Local Open Scope R_scope.

Lemma two_sample_window_power_at_2 :
  window_power [0; 1] 2 2 2 = 0.
Proof. cbv - [Rmult Rdiv Rplus Ropp Rminus IZR Rinv]. lra. Qed.

(** C1, as stated, fails: with the square-root Hann window on both sides,
    frames of two samples and a hop of one whole frame, the second sample
    of the one-frame signal [[0; 1]] only ever meets the zero of the
    window; the forward pass returns 0 for it, an error of 1. *)
Lemma round_trip_loses_sample_at_full_frame_hop :
  exists s y,
    STFT_init Lib.get_window_hann (Lib.pinv_orth 2 2) 2 2 (Some 2%Z)
      (WinArray (hann_sqrt 2)) true = Ok s /\
    forward s [0; 1] = Ok y /\
    length y = 2%nat /\
    1e-4 < Rabs (nth 1 y 0 - nth 1 [0; 1] 0).
Proof.
  destruct (two_sample_engine_sqrt 2) as (s & Hs & Hw & HN).
  assert (Hn : (1 <= 2 <= nfft s)%Z) by (rewrite HN; lia).
  assert (Hwl : length (window s) = Z.to_nat 2)
    by (rewrite Hw; apply length_hann_sqrt).
  assert (Hinv : left_inverse
            (Lib.pinv_orth 2 2 (fourier_kernel 2 (nfft s)))
            (fourier_kernel 2 (nfft s)) (Z.to_nat 2))
    by (rewrite HN; exact pinv_orth_left_inverse_2).
  assert (Hp : pad s = 1%Z)
    by (rewrite (built_pad _ _ _ _ _ _ _ _ Hs); reflexivity).
  destruct (forward_samples _ _ _ _ _ _ _ _ Hs Hn Hwl Hinv
              ltac:(lia) [0; 1])
    as (y & Hy & Hlen & _ & Hnth); [simpl; lia|].
  rewrite Hp in Hlen, Hnth. rewrite Hw, hann_sqrt_2 in Hnth.
  change (length y = 2%nat) in Hlen.
  exists s, y. split; [exact Hs|]. split; [exact Hy|].
  split; [exact Hlen|].
  rewrite (Hnth 1%nat) by lia.
  change (window_power [0; 1] _ _ _) with (window_power [0; 1] 2 2 2).
  rewrite two_sample_window_power_at_2. cbn [nth].
  replace (1 * 0 / (0 + 1e-8) - 1) with (-1) by lra.
  unfold Rabs. destruct (Rcase_abs (-1)); lra.
Qed.

Lemma round_trip_error_witness :
  exists s y,
    STFT_init Lib.get_window_hann (Lib.pinv_orth 2 2) 2 1 (Some 2%Z)
      (WinArray (hann_sqrt 2)) true = Ok s /\
    forward s [3; 5] = Ok y /\
    length y = 2%nat /\
    forall i, (i < 2)%nat ->
      nth i y 0 = nth i [3; 5] 0 / (1 + 1e-8).
Proof.
  destruct (two_sample_engine_sqrt 1) as (s & Hs & Hw & HN).
  assert (Hn : (1 <= 2 <= nfft s)%Z) by (rewrite HN; lia).
  assert (Hwl : length (window s) = Z.to_nat 2)
    by (rewrite Hw; apply length_hann_sqrt).
  assert (Hinv : left_inverse
            (Lib.pinv_orth 2 2 (fourier_kernel 2 (nfft s)))
            (fourier_kernel 2 (nfft s)) (Z.to_nat 2))
    by (rewrite HN; exact pinv_orth_left_inverse_2).
  destruct (round_trip_error Lib.get_window_hann (Lib.pinv_orth 2 2)
              2 1 (Some 2%Z) (WinArray (hann_sqrt 2)) true s [3; 5]
              Hs Hn Hwl (left_inverse_penrose _ _ _ Hinv)
              ltac:(lia) ltac:(simpl; lia))
    as (y & Hy & Hlen & _ & Hall).
  assert (Hlen2 : length y = 2%nat).
  { rewrite Hlen. unfold output_length, frames_for.
    rewrite (built_nframe _ _ _ _ _ _ _ _ Hs),
            (built_nhop _ _ _ _ _ _ _ _ Hs),
            (built_pad _ _ _ _ _ _ _ _ Hs).
    reflexivity. }
  exists s, y. split; [exact Hs|]. split; [exact Hy|].
  split; [exact Hlen2|].
  intros i Hi. destruct (Hall i ltac:(lia)) as (_ & _ & Hone).
  exact (proj2 (Hone Hw eq_refl eq_refl eq_refl)).
Defined.

(** C5, as stated, fails on both counts: the engine for frames of two
    samples is built with hop 0 (no error at construction), and the
    engine with hop 1 analyses a signal of one sample, shorter than a
    frame (the two padding samples make up for it). *)
Lemma construction_accepts_zero_hop_and_short_input :
  (exists s,
      STFT_init Lib.get_window_hann (Lib.pinv_orth 2 2) 2 0 (Some 2%Z)
        (WinName "hann") true = Ok s) /\
  (exists s spec,
      STFT_init Lib.get_window_hann (Lib.pinv_orth 2 2) 2 1 (Some 2%Z)
        (WinName "hann") true = Ok s /\
      transform s [1] = Ok spec).
Proof.
  split.
  - destruct (two_sample_engine_hann 0) as (s & Hs & _). now exists s.
  - destruct (two_sample_engine_hann 1) as (s & Hs & Hw & HN).
    assert (Hn : (1 <= 2 <= nfft s)%Z) by (rewrite HN; lia).
    assert (Hwl : length (window s) = Z.to_nat 2)
      by (rewrite Hw; apply length_hann).
    exists s. rewrite (transform_run _ _ _ _ _ _ _ _ Hs Hn Hwl).
    rewrite (built_pad _ _ _ _ _ _ _ _ Hs).
    eexists. split; [exact Hs | reflexivity].
Qed.

Lemma hop_and_length_checks_witness :
  exists s,
    STFT_init Lib.get_window_hann (Lib.pinv_orth 2 2) 2 1 (Some 2%Z)
      (WinName "hann") true = Ok s /\
    (forall h',
        STFT_init Lib.get_window_hann (Lib.pinv_orth 2 2) 2 h' (Some 2%Z)
          (WinName "hann") true = Ok (with_nhop s h')) /\
    (forall x, raises (transform s x) <->
               (1 <= 0 \/ Z.of_nat (length x) + 2 * pad s < 2)%Z) /\
    (forall x, exists spec, transform s x = Ok spec).
Proof.
  destruct (two_sample_engine_hann 1) as (s & Hs & Hw & HN).
  assert (Hn : (1 <= 2 <= nfft s)%Z) by (rewrite HN; lia).
  assert (Hwl : length (window s) = Z.to_nat 2)
    by (rewrite Hw; apply length_hann).
  destruct (hop_and_length_checks Lib.get_window_hann (Lib.pinv_orth 2 2)
              2 1 (Some 2%Z) (WinName "hann") true s Hs Hn Hwl)
    as (Hany & _ & Hraise & Hcentred).
  exists s. split; [exact Hs|]. split; [exact Hany|].
  split; [exact Hraise|].
  apply Hcentred; [reflexivity | reflexivity | lia].
Defined.

End ConcreteRuns.

(** * Further properties of the STFT engine *)

(** ** The frame-aligned length [nLen] *)

(** X1.  For a positive hop [nLen] rounds a length down to a whole number
    of hops: the result is a multiple of the hop, at most the length and
    less than one hop below it, and [nLen] leaves it unchanged. *)
Theorem nLen_rounds_down (s : STFT) (l : Z) :
  (0 < nhop s)%Z ->
  exists v,
    nLen s l = Ok v /\
    (v <= l < v + nhop s)%Z /\
    (nhop s | v)%Z /\
    nLen s v = Ok v.
Proof.
  intros Hh. exists (l / nhop s * nhop s)%Z. unfold nLen.
  destruct (Z.eqb_spec (nhop s) 0) as [E|_]; [lia|].
  split; [reflexivity|]. split.
  - pose proof (Z.mul_div_le l (nhop s) Hh).
    pose proof (Z.mul_succ_div_gt l (nhop s) Hh). lia.
  - split.
    + exists (l / nhop s)%Z. reflexivity.
    + rewrite Z.div_mul by lia. reflexivity.
Qed.

Lemma nLen_rounds_down_witness :
  exists v,
    nLen (mkSTFT 512 256 256 512 [] [] [] []) 10000 = Ok v /\
    (v <= 10000 < v + 256)%Z /\ (256 | v)%Z /\
    nLen (mkSTFT 512 256 256 512 [] [] [] []) v = Ok v.
Proof.
  apply (nLen_rounds_down (mkSTFT 512 256 256 512 [] [] [] []) 10000).
  simpl. lia.
Defined.

Section Analysis.

Local Open Scope R_scope.

Variable get_window : string -> Z -> result (list R).
Variable pinv : list (list R) -> list (list R).
Variables (n h : Z) (nfft0 : option Z) (win : win_arg) (center : bool).
Variable s : STFT.

Hypothesis Hs : STFT_init get_window pinv n h nfft0 win center = Ok s.
Hypothesis Hn : (1 <= n <= nfft s)%Z.
Hypothesis Hw : length (window s) = Z.to_nat n.

Let dim : nat := Z.to_nat (nfft s / 2 + 1).

Let out_complex (x : list R) : list (list R) :=
  map (fun wc =>
         tabulate (frames_for s (length x)) (fun k =>
           sum_n (Z.to_nat n) (fun t =>
             nth t wc 0 * nth (k * Z.to_nat h + t) (F_pad (pad s) x) 0)))
      (weight s).

Lemma frames_for_built (T : nat) :
  frames_for s T
  = S ((T + 2 * Z.to_nat (pad s) - Z.to_nat n) / Z.to_nat h).
Proof.
  unfold frames_for.
  now rewrite (built_nframe _ _ _ _ _ _ _ _ Hs),
              (built_nhop _ _ _ _ _ _ _ _ Hs).
Qed.

Lemma transform_Ok (x : list R) :
  (0 < h)%Z ->
  (Z.to_nat n <= length x + 2 * Z.to_nat (pad s))%nat ->
  transform s x =
  Ok (transpose (frames_for s (length x)) (firstn dim (out_complex x)),
      transpose (frames_for s (length x)) (skipn dim (out_complex x))).
Proof.
  intros Hh Hlen.
  rewrite (transform_run _ _ _ _ _ _ _ _ Hs Hn Hw).
  destruct (Z.leb_spec h 0); [lia|].
  destruct (Nat.ltb_spec (length x + 2 * Z.to_nat (pad s)) (Z.to_nat n));
    [lia|].
  unfold out_complex. rewrite frames_for_built. reflexivity.
Qed.


Lemma at2_firstn (m : list (list R)) (d c k : nat) :
  (c < d)%nat -> at2 (firstn d m) c k = at2 m c k.
Proof.
  intros Hc. unfold at2. rewrite nth_firstn.
  destruct (Nat.ltb_spec c d); [reflexivity | lia].
Qed.

Lemma at2_skipn (m : list (list R)) (d c k : nat) :
  at2 (skipn d m) c k = at2 m (d + c) k.
Proof. unfold at2. now rewrite nth_skipn. Qed.

Lemma at2_out (x : list R) (c k : nat) :
  (c < 2 * dim)%nat -> (k < frames_for s (length x))%nat ->
  at2 (out_complex x) c k =
  sum_n (Z.to_nat n) (fun t =>
    at2 (fourier_kernel n (nfft s)) c t * nth t (window s) 0
    * nth (k * Z.to_nat h + t) (F_pad (pad s) x) 0).
Proof.
  intros Hc Hk. unfold out_complex. rewrite frames_for_built in *.
  now apply (at2_out_complex _ _ _ _ _ _ _ _ Hs Hn Hw).
Qed.


(** X5.  Bin [f] of frame [k] is the discrete Fourier transform of the
    windowed frame. *)
Theorem transform_is_windowed_dft (x : list R) :
  (0 < h)%Z ->
  (Z.to_nat n <= length x + 2 * Z.to_nat (pad s))%nat ->
  exists re im,
    transform s x = Ok (re, im) /\
    forall k f : nat,
      (k < frames_for s (length x))%nat ->
      (f < Z.to_nat (nfft s / 2 + 1))%nat ->
      at2 re k f =
        sum_n (Z.to_nat n) (fun t =>
          cos (2 * PI * INR f * INR t / IZR (nfft s))
          * nth t (window s) 0
          * nth (k * Z.to_nat h + t) (F_pad (pad s) x) 0) /\
      at2 im k f =
        sum_n (Z.to_nat n) (fun t =>
          - sin (2 * PI * INR f * INR t / IZR (nfft s))
          * nth t (window s) 0
          * nth (k * Z.to_nat h + t) (F_pad (pad s) x) 0).
Proof.
  intros Hh Hlen. rewrite (transform_Ok x Hh Hlen).
  eexists. eexists. split; [reflexivity|].
  intros k f Hk Hf. fold dim in Hf. split.
  - rewrite at2_transpose by assumption.
    rewrite at2_firstn by assumption.
    rewrite at2_out by (assumption || lia).
    apply sum_n_ext. intros t Ht.
    now rewrite (at2_fourier_kernel_re n (nfft s) Hn f t Hf Ht).
  - rewrite at2_transpose by assumption.
    rewrite at2_skipn.
    rewrite at2_out by (assumption || lia).
    apply sum_n_ext. intros t Ht. unfold dim.
    now rewrite (at2_fourier_kernel_im n (nfft s) Hn f t Hf Ht).
Qed.

Lemma nth_F_pad_shift (p : Z) (x : list R) (j : nat) :
  nth j (F_pad p x) 0 =
  if (Z.to_nat p <=? j)%nat then nth (j - Z.to_nat p) x 0 else 0.
Proof.
  unfold F_pad. destruct (Nat.leb_spec (Z.to_nat p) j) as [Hj|Hj].
  - rewrite app_nth2 by (rewrite repeat_length; lia).
    rewrite repeat_length.
    destruct (Nat.lt_ge_cases (j - Z.to_nat p) (length x)) as [Hx|Hx].
    + now rewrite app_nth1.
    + rewrite app_nth2 by lia. rewrite nth_repeat.
      now rewrite nth_overflow.
  - rewrite app_nth1 by (rewrite repeat_length; lia). apply nth_repeat.
Qed.

Lemma nth_lincomb (a b : R) (x y : list R) (i : nat) :
  length x = length y ->
  nth i (map (fun p => a * fst p + b * snd p) (combine x y)) 0
  = a * nth i x 0 + b * nth i y 0.
Proof.
  intros Hxy. destruct (Nat.lt_ge_cases i (length x)) as [Hi|Hi].
  - rewrite (nth_map_lt _ _ _ 0 (0, 0))
      by (rewrite length_combine; lia).
    now rewrite combine_nth.
  - rewrite !nth_overflow;
      [lra | lia | lia | rewrite length_map, length_combine; lia].
Qed.

Lemma nth_F_pad_lincomb (a b : R) (x y : list R) (j : nat) :
  length x = length y ->
  nth j (F_pad (pad s)
           (map (fun p => a * fst p + b * snd p) (combine x y))) 0
  = a * nth j (F_pad (pad s) x) 0 + b * nth j (F_pad (pad s) y) 0.
Proof.
  intros Hxy. rewrite !nth_F_pad_shift.
  destruct (Z.to_nat (pad s) <=? j)%nat; [|lra].
  now apply nth_lincomb.
Qed.

(** X6.  The analysis is linear: the spectrum of [a x + b y] is [a] times the
    spectrum of [x] plus [b] times the spectrum of [y], bin by bin. *)
Theorem transform_linear (a b : R) (x y : list R) :
  (0 < h)%Z ->
  length x = length y ->
  (Z.to_nat n <= length x + 2 * Z.to_nat (pad s))%nat ->
  exists sx sy sz,
    transform s x = Ok sx /\
    transform s y = Ok sy /\
    transform s (map (fun p => a * fst p + b * snd p) (combine x y))
      = Ok sz /\
    forall k f : nat,
      (k < frames_for s (length x))%nat ->
      (f < Z.to_nat (nfft s / 2 + 1))%nat ->
      at2 (fst sz) k f = a * at2 (fst sx) k f + b * at2 (fst sy) k f /\
      at2 (snd sz) k f = a * at2 (snd sx) k f + b * at2 (snd sy) k f.
Proof.
  intros Hh Hxy Hlen.
  set (z := map (fun p => a * fst p + b * snd p) (combine x y)).
  assert (Hz : length z = length x).
  { unfold z. rewrite length_map, length_combine. lia. }
  rewrite (transform_Ok x Hh Hlen).
  rewrite (transform_Ok y Hh) by (rewrite <- Hxy; exact Hlen).
  rewrite (transform_Ok z Hh) by (rewrite Hz; exact Hlen).
  rewrite Hz, <- Hxy.
  eexists. eexists. eexists.
  split; [reflexivity|]. split; [reflexivity|]. split; [reflexivity|].
  assert (Hout : forall c k : nat,
             (c < 2 * dim)%nat -> (k < frames_for s (length x))%nat ->
             at2 (out_complex z) c k
             = a * at2 (out_complex x) c k + b * at2 (out_complex y) c k).
  { intros c k Hc Hk.
    rewrite (at2_out z) by (assumption || now rewrite Hz).
    rewrite (at2_out x) by assumption.
    rewrite (at2_out y) by (assumption || now rewrite <- Hxy).
    rewrite <- !sum_n_scal, <- sum_n_plus.
    apply sum_n_ext. intros t _. unfold z.
    rewrite nth_F_pad_lincomb by assumption. ring. }
  intros k f Hk Hf. fold dim in Hf. cbn [fst snd]. split.
  - rewrite !at2_transpose by assumption.
    rewrite !at2_firstn by assumption. apply Hout; [lia | assumption].
  - rewrite !at2_transpose by assumption.
    rewrite !at2_skipn. apply Hout; [lia | assumption].
Qed.


Hypothesis Hpen :
  penrose_identity (pinv (fourier_kernel n (nfft s)))
                   (fourier_kernel n (nfft s)) (Z.to_nat n).

Lemma built_left_inverse :
  left_inverse (pinv (fourier_kernel n (nfft s)))
               (fourier_kernel n (nfft s)) (Z.to_nat n).
Proof.
  eapply penrose_left_inverse; [exact Hpen|].
  apply irfft_left_inverse. exact Hn.
Qed.





(** X9.  A spectrum whose real and imaginary parts differ in their number of
    frames, or whose rows do not hold [2 * (nfft // 2 + 1)] bins together,
    is rejected. *)
Theorem inverse_rejects_shape_mismatch (r i : list (list R)) :
  length r <> length i \/
  (length (hd [] r) + length (hd [] i) <> 2 * Z.to_nat (nfft s / 2 + 1))%nat ->
  inverse s (r, i) = Raise RuntimeError.
Proof.
  intros Hc.
  pose proof (built_inv_weight_length _ _ _ _ _ _ _ _ Hs Hw
                built_left_inverse) as Lw.
  unfold inverse.
  destruct (Nat.eqb_spec (length r) (length i)) as [E|E]; cbn [negb];
    [|reflexivity].
  destruct Hc as [Hc|Hc]; [contradiction|].
  unfold conv_transpose1d. rewrite length_transpose, Lw.
  destruct (Nat.eqb_spec (length (hd [] r) + length (hd [] i))
              (2 * Z.to_nat (nfft s / 2 + 1))); [contradiction|].
  reflexivity.
Qed.

End Analysis.

(** ** Construction errors and the pseudo-inverse *)

Section InitErrors.

Variable get_window : string -> Z -> result (list R).
Variable pinv : list (list R) -> list (list R).

Lemma mapM_hd_Raise {A B : Type} (f : A -> result B) (a : A) (l : list A)
    (e : PyError) :
  f a = Raise e -> mapM f (a :: l) = Raise e.
Proof. intros H. cbn [mapM]. now rewrite H. Qed.

(** X12.  Construction fails for a negative frame length, for a transform size
    that is not positive, and for a zero frame length with the default
    transform size. *)
Theorem STFT_init_rejects_bad_sizes (n h : Z) (nfft0 : option Z)
    (win : win_arg) (center : bool) :
  (n < 0)%Z \/ (exists N, nfft0 = Some N /\ (N <= 0)%Z) \/
  (n = 0%Z /\ nfft0 = None) ->
  raises (STFT_init get_window pinv n h nfft0 win center).
Proof.
  intros Hc. unfold STFT_init.
  assert (Hk : forall N inv, (N <= 0)%Z ->
             raises (init_conv_stft_kernels get_window pinv n N win inv)).
  { intros N inv HN. unfold init_conv_stft_kernels.
    destruct (match win with
              | WinName name =>
                  if (name =? "hann sqrt")%string then Raise NameError
                  else get_window name n
              | WinArray w => Ok w
              end) as [w|e]; cbn [bind].
    - destruct (Z.leb_spec N 0); [|lia]. now exists ValueError.
    - now exists e. }
  destruct Hc as [Hneg|[(N & -> & HN)|[-> ->]]].
  - destruct nfft0 as [N|]; cbn [bind].
    + destruct (init_conv_stft_kernels get_window pinv n N win false)
        as [kw|e]; cbn [bind]; [|now exists e].
      destruct (init_conv_stft_kernels get_window pinv n N win true)
        as [ik|e]; cbn [bind]; [|now exists e].
      unfold torch_eye. destruct (Z.ltb_spec n 0); [|lia].
      now exists RuntimeError.
    + unfold default_nfft. destruct (Z.ltb_spec n 0); [|lia].
      now exists ValueError.
  - cbn [bind]. destruct (Hk N false HN) as [e He]. rewrite He.
    now exists e.
  - cbn [default_nfft Z.ltb Z.eqb Z.compare bind].
    destruct (Hk 0%Z false ltac:(lia)) as [e He]. rewrite He.
    now exists e.
Qed.

(** X13.  A window array that has neither the frame length nor length one is
    rejected with [ValueError] (the kernel rows cannot be multiplied by
    it), unless the frame length is one. *)
Theorem STFT_init_rejects_window_length (n h N : Z) (w : list R)
    (center : bool) :
  (0 <= n <= N)%Z -> (0 < N)%Z ->
  length w <> Z.to_nat n -> length w <> 1%nat -> n <> 1%Z ->
  STFT_init get_window pinv n h (Some N) (WinArray w) center
  = Raise ValueError.
Proof.
  intros Hn HN Hw Hw1 Hn1. unfold STFT_init. cbn [bind].
  unfold init_conv_stft_kernels at 1. cbn [bind].
  destruct (Z.leb_spec N 0); [lia|].
  pose proof (fourier_kernel_rows n N Hn) as Hrows.
  pose proof (length_fourier_kernel n N) as Hlen.
  assert (Hd : (1 <= N / 2 + 1)%Z)
    by (pose proof (Z.div_pos N 2); lia).
  destruct (fourier_kernel n N) as [|row k]; [cbn [length] in Hlen; lia|].
  rewrite (mapM_hd_Raise _ row k ValueError); [reflexivity|].
  apply Forall_inv in Hrows. unfold np_mul_row. rewrite Hrows.
  destruct (Nat.eqb_spec (Z.to_nat n) (length w)); [congruence|].
  destruct (Nat.eqb_spec (length w) 1); [contradiction|].
  destruct (Nat.eqb_spec (Z.to_nat n) 1); [lia|]. reflexivity.
Qed.

End InitErrors.

(** X11.  The unwindowed kernel has independent columns: every matrix that
    satisfies the Moore-Penrose identity [k p k = k] against it is a left
    inverse of it, [p k = I]. *)
Theorem pinv_kernel_left_inverse (n N : Z) (p : list (list R)) :
  (1 <= n <= N)%Z ->
  penrose_identity p (fourier_kernel n N) (Z.to_nat n) ->
  left_inverse p (fourier_kernel n N) (Z.to_nat n).
Proof.
  intros Hn Hp. eapply penrose_left_inverse; [exact Hp|].
  now apply irfft_left_inverse.
Qed.

(** ** Runs of the two-sample engine *)

Section EngineRuns.

Local Open Scope R_scope.

(** The two-sample engine with the square-root Hann window, centred, and
    the facts every run of it needs. *)
Lemma two_sample_setup (h : Z) :
  exists s,
    STFT_init Lib.get_window_hann (Lib.pinv_orth 2 2) 2 h (Some 2%Z)
      (WinArray (hann_sqrt 2)) true = Ok s /\
    (1 <= 2 <= nfft s)%Z /\
    length (window s) = Z.to_nat 2 /\
    penrose_identity (Lib.pinv_orth 2 2 (fourier_kernel 2 (nfft s)))
                     (fourier_kernel 2 (nfft s)) (Z.to_nat 2) /\
    pad s = 1%Z /\ nfft s = 2%Z.
Proof.
  destruct (two_sample_engine_sqrt h) as (s & Hs & Hw & HN).
  exists s. split; [exact Hs|].
  split; [rewrite HN; lia|].
  split; [rewrite Hw; apply length_hann_sqrt|].
  split.
  - rewrite HN. apply left_inverse_penrose, pinv_orth_left_inverse_2.
  - split; [|exact HN].
    rewrite (built_pad _ _ _ _ _ _ _ _ Hs). reflexivity.
Qed.


Lemma transform_is_windowed_dft_witness :
  exists s re im,
    STFT_init Lib.get_window_hann (Lib.pinv_orth 2 2) 2 1 (Some 2%Z)
      (WinArray (hann_sqrt 2)) true = Ok s /\
    transform s [3; 5] = Ok (re, im) /\
    at2 re 1 0 =
      sum_n 2 (fun t =>
        cos (2 * PI * INR 0 * INR t / IZR (nfft s))
        * nth t (window s) 0
        * nth (1 * 1 + t) (F_pad (pad s) [3; 5]) 0).
Proof.
  destruct (two_sample_setup 1) as (s & Hs & Hn & Hw & _ & Hp & HN).
  destruct (transform_is_windowed_dft _ _ _ _ _ _ _ s Hs Hn Hw [3; 5]
              ltac:(lia) ltac:(rewrite Hp; simpl; lia))
    as (re & im & Ht & Hv).
  exists s, re, im. split; [exact Hs|]. split; [exact Ht|].
  apply (Hv 1%nat 0%nat).
  - unfold frames_for.
    rewrite (built_nframe _ _ _ _ _ _ _ _ Hs),
            (built_nhop _ _ _ _ _ _ _ _ Hs), Hp.
    simpl. lia.
  - rewrite HN. simpl. lia.
Defined.


Lemma transform_linear_witness :
  exists s sx sy sz,
    STFT_init Lib.get_window_hann (Lib.pinv_orth 2 2) 2 1 (Some 2%Z)
      (WinArray (hann_sqrt 2)) true = Ok s /\
    transform s [3; 5] = Ok sx /\
    transform s [1; 4] = Ok sy /\
    transform s [2 * 3 + 1 * 1; 2 * 5 + 1 * 4] = Ok sz /\
    at2 (fst sz) 1 1 = 2 * at2 (fst sx) 1 1 + 1 * at2 (fst sy) 1 1.
Proof.
  destruct (two_sample_setup 1) as (s & Hs & Hn & Hw & _ & Hp & HN).
  destruct (transform_linear _ _ _ _ _ _ _ s Hs Hn Hw 2 1 [3; 5] [1; 4]
              ltac:(lia) eq_refl ltac:(rewrite Hp; simpl; lia))
    as (sx & sy & sz & Hx & Hy & Hz & Hv).
  exists s, sx, sy, sz. split; [exact Hs|]. split; [exact Hx|].
  split; [exact Hy|]. split; [exact Hz|].
  apply (Hv 1%nat 1%nat).
  - unfold frames_for.
    rewrite (built_nframe _ _ _ _ _ _ _ _ Hs),
            (built_nhop _ _ _ _ _ _ _ _ Hs), Hp.
    simpl. lia.
  - rewrite HN. simpl. lia.
Defined.





Lemma inverse_rejects_shape_mismatch_witness :
  exists s,
    STFT_init Lib.get_window_hann (Lib.pinv_orth 2 2) 2 1 (Some 2%Z)
      (WinArray (hann_sqrt 2)) true = Ok s /\
    inverse s ([[1; 2; 3]], [[0; 0; 0]]) = Raise RuntimeError.
Proof.
  destruct (two_sample_setup 1) as (s & Hs & Hn & Hw & Hpen & _ & HN).
  exists s. split; [exact Hs|].
  apply (inverse_rejects_shape_mismatch _ _ _ _ _ _ _ s Hs Hn Hw Hpen).
  right. rewrite HN. simpl. lia.
Defined.

Lemma STFT_init_rejects_bad_sizes_witness :
  raises (STFT_init Lib.get_window_hann (Lib.pinv_orth 2 2) (-1) 1 None
            (WinName "hann") true).
Proof.
  apply STFT_init_rejects_bad_sizes. left. lia.
Defined.

Lemma STFT_init_rejects_window_length_witness :
  STFT_init Lib.get_window_hann (Lib.pinv_orth 2 2) 2 1 (Some 2%Z)
    (WinArray [1; 2; 3]) true = Raise ValueError.
Proof.
  apply STFT_init_rejects_window_length;
    [lia | lia | simpl; lia | simpl; lia | lia].
Defined.

Lemma pinv_kernel_left_inverse_witness :
  left_inverse (Lib.pinv_orth 2 2 (fourier_kernel 2 2))
               (fourier_kernel 2 2) (Z.to_nat 2).
Proof.
  apply pinv_kernel_left_inverse; [lia|].
  apply left_inverse_penrose, pinv_orth_left_inverse_2.
Defined.

End EngineRuns.

(** * Further properties of the loss compositor *)

(** ** The SNR floor *)

Section SnrFloor.

Local Open Scope R_scope.
Import SnrSpec.

Lemma log10_eps_default : log10 eps_default = -8.
Proof.
  assert (E : eps_default = / 10 ^ 8) by (unfold eps_default; lra).
  rewrite E. unfold log10. rewrite ln_Rinv by (apply pow_lt; lra).
  pose proof (log10_pow10 8) as H. unfold log10 in H.
  pose proof ln10_pos.
  unfold Rdiv. rewrite Ropp_mult_distr_l_reverse.
  unfold Rdiv in H. rewrite H. simpl. lra.
Qed.

Lemma ratio_floor (t n : R) :
  0 <= t -> 0 <= n ->
  -80 <= 10 * log10 (t / (n + eps_default) + eps_default).
Proof.
  intros Ht Hn. pose proof eps_default_pos as He.
  assert (Hq : 0 <= t / (n + eps_default)).
  { apply Rmult_le_pos; [exact Ht|].
    apply Rlt_le, Rinv_0_lt_compat. lra. }
  pose proof (log10_le eps_default (t / (n + eps_default) + eps_default)
                He ltac:(lra)) as Hl.
  rewrite log10_eps_default in Hl. lra.
Qed.

Lemma snr_floor (est clean : list R) : -80 <= snr est clean eps_default.
Proof. unfold snr. apply ratio_floor; apply norm2_nonneg. Qed.

Lemma Rsum_lower (c : R) (l : list R) :
  Forall (fun v => c <= v) l -> c * INR (length l) <= Rsum l.
Proof.
  induction 1 as [|v l Hv _ IH].
  - simpl. lra.
  - change (Rsum (v :: l)) with (v + Rsum l).
    change (length (v :: l)) with (S (length l)). rewrite S_INR. lra.
Qed.

Lemma mean_lower (c : R) (l : list R) :
  l <> [] -> Forall (fun v => c <= v) l -> c <= mean l.
Proof.
  intros Hl H. unfold mean.
  assert (0 < INR (length l)).
  { apply lt_0_INR. destruct l; [contradiction | simpl; lia]. }
  apply div_le_r; [assumption|]. now apply Rsum_lower.
Qed.

Lemma mean_const (c : R) {A : Type} (l : list A) :
  l <> [] -> mean (map (fun _ => c) l) = c.
Proof.
  intros Hl. unfold mean. rewrite length_map.
  assert (0 < INR (length l)).
  { apply lt_0_INR. destruct l; [contradiction | simpl; lia]. }
  assert (E : Rsum (map (fun _ => c) l) = c * INR (length l)).
  { clear. induction l as [|a l IH]; [simpl; lra|].
    change (Rsum (map (fun _ => c) (a :: l)))
      with (c + Rsum (map (fun _ => c) l)).
    change (length (a :: l)) with (S (length l)).
    rewrite S_INR, IH. ring. }
  rewrite E. field. lra.
Qed.

Lemma Rsum_squares_nonneg (row : list R) :
  0 <= Rsum (map (fun v => v * v) row).
Proof.
  induction row as [|v row IH]; [simpl; lra|].
  change (Rsum (map (fun v => v * v) (v :: row)))
    with (v * v + Rsum (map (fun v => v * v) row)).
  pose proof (Rle_0_sqr v) as Hv. unfold Rsqr in Hv. lra.
Qed.

Lemma mapM_Forall {A B : Type} (f : A -> result B) (l : list A)
    (c : list B) :
  mapM f l = Ok c -> Forall (fun z => exists a, In a l /\ f a = Ok z) c.
Proof.
  revert c. induction l as [|a l IH]; intros c H.
  - injection H as <-. constructor.
  - cbn [mapM] in H. apply bind_Ok in H as (b & Hb & H).
    apply bind_Ok in H as (bs & Hbs & H). injection H as <-.
    constructor.
    + exists a. split; [now left | exact Hb].
    + eapply Forall_impl; [|exact (IH bs Hbs)].
      intros z (a' & Hin & Hz). exists a'. split; [now right | exact Hz].
Qed.

Lemma broadcast_index_bound (la lb n i : nat) :
  broadcast_dim la lb = Ok n -> (i < n)%nat ->
  (broadcast_index la i < la)%nat /\ (broadcast_index lb i < lb)%nat.
Proof.
  unfold broadcast_dim, broadcast_index. intros Hn Hi.
  destruct (Nat.eqb_spec la lb) as [E|E].
  - injection Hn as <-. subst lb.
    destruct (Nat.eqb_spec la 1); lia.
  - destruct (Nat.eqb_spec la 1) as [E1|E1].
    + injection Hn as <-. destruct (Nat.eqb_spec lb 1); lia.
    + destruct (Nat.eqb_spec lb 1) as [E2|E2]; [|discriminate Hn].
      injection Hn as <-. lia.
Qed.

Lemma broadcast_axis_entries {A B C : Type} (f : A -> B -> result C)
    (da : A) (db : B) (a : list A) (b : list B) (c : list C) :
  broadcast_axis f da db a b = Ok c ->
  Forall (fun z => exists x y, In x a /\ In y b /\ f x y = Ok z) c.
Proof.
  unfold broadcast_axis. intros H.
  apply bind_Ok in H as (n & Hn & H).
  apply mapM_Forall in H.
  eapply Forall_impl; [|exact H].
  intros z (i & Hi & Hz). apply in_seq in Hi.
  destruct (broadcast_index_bound _ _ _ i Hn ltac:(lia)) as [Ba Bb].
  exists (nth (broadcast_index (length a) i) a da),
         (nth (broadcast_index (length b) i) b db).
  split; [now apply nth_In|]. split; [now apply nth_In | exact Hz].
Qed.

Lemma broadcast2_entries (f : R -> R -> R) (P Q : R -> Prop)
    (a b c : list (list R)) :
  Forall (Forall P) a -> Forall (Forall Q) b ->
  broadcast2 f a b = Ok c ->
  Forall (Forall (fun z => exists x y, P x /\ Q y /\ z = f x y)) c.
Proof.
  intros Ha Hb H. unfold broadcast2 in H.
  apply broadcast_axis_entries in H.
  eapply Forall_impl; [|exact H].
  intros row (ra & rb & Hra & Hrb & Hrow).
  apply broadcast_axis_entries in Hrow.
  eapply Forall_impl; [|exact Hrow].
  intros z (x & y & Hx & Hy & Hz). injection Hz as <-.
  rewrite Forall_forall in Ha, Hb.
  pose proof (Ha ra Hra) as Pa. pose proof (Hb rb Hrb) as Qb.
  rewrite Forall_forall in Pa, Qb.
  exists x, y. split; [now apply Pa|]. split; [now apply Qb | reflexivity].
Qed.

Lemma sum_keepdim_squares (x sq : list (list R)) :
  broadcast2 Rmult x x = Ok sq ->
  Forall (Forall (fun v => 0 <= v)) (sum_keepdim sq).
Proof.
  rewrite broadcast2_self. intros [= <-].
  unfold sum_keepdim. rewrite map_map.
  apply Forall_map, Forall_forall. intros row _.
  constructor; [|constructor]. apply Rsum_squares_nonneg.
Qed.

(** Whatever is broadcast, every entry of the local [snr] is at least
    -80 dB. *)
Lemma snr_local_floor (est clean : tensor3) (l : list R) :
  snr_local est clean eps_default = Ok l ->
  Forall (fun v => -80 <= v) l.
Proof.
  unfold snr_local. intros H.
  apply bind_Ok in H as (s1 & _ & H).
  apply bind_Ok in H as (s2 & _ & H).
  apply bind_Ok in H as (s1_s2 & _ & H).
  apply bind_Ok in H as (s2_s2 & _ & H).
  apply bind_Ok in H as (ratio & _ & H).
  apply bind_Ok in H as (s_target & _ & H).
  apply bind_Ok in H as (e_nosie & _ & H).
  apply bind_Ok in H as (target_sq & Ht & H).
  apply bind_Ok in H as (noise_sq & Hn & H).
  apply bind_Ok in H as (snr & Hsnr & H). injection H as <-.
  apply sum_keepdim_squares in Ht, Hn.
  pose proof (broadcast2_entries _ _ _ _ _ _ Ht Hn Hsnr) as Hall.
  apply Forall_concat.
  eapply Forall_impl; [|exact Hall].
  intros row Hrow. eapply Forall_impl; [|exact Hrow].
  intros z (t & n & Ht0 & Hn0 & ->). now apply ratio_floor.
Qed.

Lemma mean_floor (c : R) (l : list R) :
  c <= 0 -> Forall (fun v => c <= v) l -> c <= mean l.
Proof.
  intros Hc H. destruct l as [|v l].
  - unfold mean. simpl. unfold Rdiv. rewrite Rmult_0_l. exact Hc.
  - apply mean_lower; [discriminate | exact H].
Qed.

(** X14.  Every batch item's signal-to-noise ratio is at least -80 dB, so
    whenever [stft_snr] returns a loss, broadcasting or not, the loss is at
    most 80; it does return one for a non-empty batch of spectra of one
    shape. *)
Theorem stft_snr_floor (est clean : tensor3) :
  Forall (fun v => -80 <= v) (snr_tensor est clean eps_default) /\
  (forall l, stft_snr est clean eps_default = Ok l -> l <= 80) /\
  (forall B C T : nat,
     (1 <= B)%nat -> has_shape est B C T -> has_shape clean B C T ->
     exists l, stft_snr est clean eps_default = Ok l /\ l <= 80).
Proof.
  assert (H : Forall (fun v => -80 <= v)
                (snr_tensor est clean eps_default)).
  { rewrite snr_tensor_spec. apply Forall_forall. intros v Hv.
    apply in_map_iff in Hv as (p & <- & _). apply snr_floor. }
  assert (Hret : forall l, stft_snr est clean eps_default = Ok l -> l <= 80).
  { intros l Hl. unfold stft_snr in Hl.
    apply bind_Ok in Hl as (snr & Hsnr & Hl). injection Hl as <-.
    pose proof (mean_floor (-80) snr ltac:(lra)
                  (snr_local_floor _ _ _ Hsnr)).
    lra. }
  split; [exact H|]. split; [exact Hret|].
  intros B C T HB He Hc. eexists. split.
  - apply (stft_snr_same_shape est clean eps_default B C T HB He Hc).
  - apply Hret.
    apply (stft_snr_same_shape est clean eps_default B C T HB He Hc).
Qed.

Lemma sum_prod_dot (a b : list (list R)) :
  sum_prod a b = map (fun p => dot (fst p) (snd p)) (combine a b).
Proof. reflexivity. Qed.

Lemma snr_uncorrelated (est clean : list R) :
  dot est clean = 0 -> snr est clean eps_default = -80.
Proof.
  intros Hd. unfold snr.
  assert (Ht : norm2 (target est clean eps_default) = 0).
  { unfold target. rewrite Hd. unfold Rdiv at 1. rewrite Rmult_0_l.
    unfold norm2, dot. generalize clean as c.
    induction c as [|v c IH]; [reflexivity|].
    cbn [map combine fst snd]. 
    change (Rsum (?a :: ?l)) with (a + Rsum l).
    cbn [fst snd]. rewrite IH. ring. }
  rewrite Ht. unfold Rdiv at 1. rewrite Rmult_0_l, Rplus_0_l.
  rewrite log10_eps_default. lra.
Qed.

(** X15.  When the estimate is uncorrelated with the clean spectrum in
    every item of a non-empty batch of spectra of one shape (a silent
    estimate, for one), the loss is exactly 80. *)
Theorem stft_snr_uncorrelated (est clean : tensor3) (B C T : nat) :
  (1 <= B)%nat -> has_shape est B C T -> has_shape clean B C T ->
  Forall (fun v => v = 0)
    (sum_prod (reshape_rows est) (reshape_rows clean)) ->
  stft_snr est clean eps_default = Ok 80.
Proof.
  intros HB He Hc H0.
  rewrite (stft_snr_same_shape est clean eps_default B C T HB He Hc).
  assert (E : snr_tensor est clean eps_default
              = map (fun _ => -80) (combine est clean)).
  { rewrite snr_tensor_spec. apply map_ext_in. intros p Hp.
    apply snr_uncorrelated.
    rewrite sum_prod_dot, combine_map_concat, map_map in H0.
    rewrite Forall_forall in H0. apply H0.
    apply in_map_iff. exists p. split; [reflexivity | exact Hp]. }
  rewrite E, mean_const.
  - f_equal. lra.
  - pose proof (has_shape_nonempty est B C T HB He).
    pose proof (has_shape_nonempty clean B C T HB Hc).
    destruct est; [contradiction|]. destruct clean; [contradiction|].
    discriminate.
Qed.

End SnrFloor.

(** ** [power] *)

Lemma mapM_raises {A B : Type} (f : A -> result B) (l : list A) :
  raises (mapM f l) <-> Exists (fun a => raises (f a)) l.
Proof.
  induction l as [|a l IH].
  - split.
    + intros [e He]. discriminate He.
    + intros H. inversion H.
  - cbn [mapM]. split.
    + intros [e He]. destruct (f a) as [b|e'] eqn:Ea.
      * cbn [bind] in He. right. apply IH.
        destruct (mapM f l) as [bs|e'']; [discriminate He|].
        now exists e''.
      * left. now exists e'.
    + intros H. inversion H as [a' l' [e He]|a' l' Hl]; subst.
      * rewrite He. now exists e.
      * destruct (f a) as [b|e']; [|now exists e'].
        cbn [bind]. apply IH in Hl as [e He]. rewrite He. now exists e.
Qed.

Lemma mapM_raise_same {A B : Type} (f : A -> result B) (l : list A)
    (e0 : PyError) :
  (forall a e, f a = Raise e -> e = e0) ->
  forall e, mapM f l = Raise e -> e = e0.
Proof.
  intros Hf. induction l as [|a l IH]; intros e He; [discriminate He|].
  cbn [mapM] in He. destruct (f a) as [b|e'] eqn:Ea.
  - cbn [bind] in He. destruct (mapM f l) as [bs|e'']; [discriminate He|].
    cbn [bind] in He. injection He as <-. now apply IH.
  - cbn [bind] in He. injection He as <-. now apply (Hf a).
Qed.

Section Power.

Local Open Scope R_scope.

Lemma nth_zipWith {A B C : Type} (f : A -> B -> C) (a : list A)
    (b : list B) (i : nat) (da : A) (db : B) (dc : C) :
  (i < length a)%nat -> length a = length b ->
  nth i (zipWith f a b) dc = f (nth i a da) (nth i b db).
Proof.
  intros Hi Hab. unfold zipWith.
  rewrite (nth_map_lt _ _ _ dc (da, db)) by (rewrite length_combine; lia).
  now rewrite combine_nth.
Qed.

Lemma div2_chunk (F : nat) : Nat.div2 (2 * F + 1) = F.
Proof. rewrite Nat.add_1_r. apply Nat.div2_succ_double. Qed.

(** X16.  On a spectrum of [2 F] channels of [T] frames each, [power] returns
    [F] rows: the squared real part plus the squared imaginary part of
    every bin. *)
Theorem power1_even_channels (x : list (list R)) (F T : nat) :
  length x = (2 * F)%nat ->
  Forall (fun row => length row = T) x ->
  exists p,
    power1 x = Ok p /\
    length p = F /\
    forall f t : nat, (f < F)%nat -> (t < T)%nat ->
      at2 p f t = at2 x f t ^ 2 + at2 x (F + f) t ^ 2.
Proof.
  intros Hx Hrows. unfold power1. rewrite Hx, div2_chunk.
  destruct (Nat.eqb_spec (2 * F) 1); [lia|].
  assert (Lre : length (firstn F x) = F) by (rewrite length_firstn; lia).
  assert (Lim : length (skipn F x) = F) by (rewrite length_skipn; lia).
  rewrite Lre, Lim, Nat.eqb_refl.
  eexists. split; [reflexivity|]. split.
  - unfold zipWith. rewrite length_map, length_combine. lia.
  - intros f t Hf Ht. unfold at2.
    rewrite (nth_zipWith _ _ _ _ [] []) by lia.
    rewrite nth_firstn, nth_skipn.
    destruct (Nat.ltb_spec f F); [|lia].
    rewrite Forall_forall in Hrows.
    assert (L1 : length (nth f x []) = T)
      by (apply Hrows, nth_In; lia).
    assert (L2 : length (nth (F + f) x []) = T)
      by (apply Hrows, nth_In; lia).
    now rewrite (nth_zipWith _ _ _ _ 0 0) by lia.
Qed.

Lemma power1_raises (x : list (list R)) :
  raises (power1 x) <->
  Nat.odd (length x) = true /\ (3 <= length x)%nat.
Proof.
  unfold power1.
  destruct (Nat.Even_or_Odd (length x)) as [[F HF]|[F HF]].
  - rewrite HF, div2_chunk.
    destruct (Nat.eqb_spec (2 * F) 1); [lia|].
    rewrite length_firstn, length_skipn, HF.
    replace (Nat.min F (2 * F)) with F by lia.
    replace (2 * F - F)%nat with F by lia.
    rewrite Nat.eqb_refl. split.
    + intros [e He]. discriminate He.
    + intros [Ho _]. rewrite Nat.odd_even in Ho. discriminate Ho.
  - rewrite HF.
    replace (2 * F + 1 + 1)%nat with (2 * S F)%nat by lia.
    rewrite Nat.div2_double.
    destruct (Nat.eqb_spec (2 * F + 1) 1) as [E1|E1].
    + split.
      * intros [e He]. discriminate He.
      * intros [_ H3]. lia.
    + rewrite length_firstn, length_skipn, HF.
      destruct (Nat.eqb_spec (Nat.min (S F) (2 * F + 1))
                  (2 * F + 1 - S F)); [lia|].
      split.
      * intros _. split; [|lia].
        rewrite Nat.add_1_r, Nat.odd_succ. apply Nat.even_even.
      * intros _. now exists RuntimeError.
Qed.

(** X17.  [power] fails exactly when some batch item has an odd number of
    channels, three or more; the error is then [RuntimeError]. *)
Theorem power_raises_iff (x : tensor3) :
  (raises (power x) <->
   Exists (fun item => Nat.odd (length item) = true
                       /\ (3 <= length item)%nat) x) /\
  (forall e, power x = Raise e -> e = RuntimeError).
Proof.
  split.
  - unfold power. etransitivity; [apply mapM_raises|].
    rewrite !Exists_exists. split; intros (item & Hin & H);
      exists item; (split; [exact Hin|]); now apply power1_raises.
  - apply mapM_raise_same. intros a e. unfold power1.
    destruct (length a =? 1)%nat; [discriminate|].
    destruct (length _ =? length _)%nat; [discriminate|].
    now intros [= <-].
Qed.

End Power.

(** ** The voice-activity mask and the two forward passes *)

Section VadEdges.

Local Open Scope R_scope.

Lemma assign_row_inv (width : nat) (src l : list R) :
  assign_row width src = Ok l ->
  length l = width /\ forall v, In v l -> In v src.
Proof.
  unfold assign_row.
  destruct (Nat.eqb_spec (length src) width) as [E|E].
  - intros [= <-]. split; [exact E | auto].
  - destruct (Nat.eqb_spec (length src) 1) as [E1|E1]; [|discriminate].
    intros [= <-]. split; [apply repeat_length|].
    intros v Hv. apply repeat_spec in Hv. subst v.
    destruct src; [discriminate E1 | now left].
Qed.

(** X18.  Whenever the mask is produced it has one weight per spectral frame,
    and every weight is 0, 0.1 or 1. *)
Theorem vad_mask_only_three_weights (self : APC_SNR) (mix_vad : list R)
    (est_frames : nat) (m : list R) :
  vad_mask_row self mix_vad est_frames = Ok m ->
  length m = est_frames /\
  Forall (fun v => v = 0 \/ v = 0.1 \/ v = 1) m.
Proof.
  unfold vad_mask_row.
  destruct (hop self =? 0)%Z; [discriminate|].
  destruct (_ || _)%bool; [discriminate|].
  intros H. apply bind_Ok in H as (frames & _ & H).
  apply bind_Ok in H as (label & Hl & H). injection H as <-.
  apply assign_row_inv in Hl as [Hlen Hin].
  split.
  - rewrite length_app, repeat_length, Hlen. lia.
  - apply Forall_app. split.
    + apply Forall_forall. intros v Hv. apply Hin in Hv.
      apply in_map_iff in Hv as (u & <- & _).
      destruct (Rlt_dec 0 u); auto.
    + apply Forall_forall. intros v Hv. apply repeat_spec in Hv. auto.
Qed.

Lemma vad_frames_Ok (self : APC_SNR) (mix_vad : list R) :
  (0 < hop self)%Z -> (0 <= winlen self)%Z ->
  (1 <= 1 + (Z.of_nat (length mix_vad) - winlen self) / hop self)%Z ->
  mapM (fun index : nat =>
          assign_row (Z.to_nat (winlen self))
            (py_slice (Z.of_nat index * hop self)
                      (Z.of_nat index * hop self + winlen self) mix_vad))
       (seq 0 (Z.to_nat
                 (1 + (Z.of_nat (length mix_vad) - winlen self) / hop self)))
  = Ok (map (fun index : nat =>
               py_slice (Z.of_nat index * hop self)
                        (Z.of_nat index * hop self + winlen self) mix_vad)
          (seq 0 (Z.to_nat
                    (1 + (Z.of_nat (length mix_vad) - winlen self)
                         / hop self)))).
Proof.
  intros Hhop Hwin Hfr.
  set (L := Z.of_nat (length mix_vad)) in *.
  assert (Hmul : (hop self * ((L - winlen self) / hop self)
                  <= L - winlen self)%Z)
    by (apply Z.mul_div_le; lia).
  apply mapM_Ok. intros t Ht. apply in_seq in Ht. unfold assign_row.
  rewrite length_py_slice.
  - replace (Z.of_nat t * hop self + winlen self
             - Z.of_nat t * hop self)%Z with (winlen self) by ring.
    now rewrite Nat.eqb_refl.
  - nia.
  - fold L. nia.
Qed.

(** X19.  A voice-activity row that yields two or more frames, and more frames
    than the spectrum has, cannot be written into the mask: the forward
    pass fails with [RuntimeError]. *)
Theorem vad_mask_rejects_long_mask (self : APC_SNR) (mix_vad : list R)
    (est_frames : nat) :
  (0 < hop self)%Z ->
  (0 <= winlen self)%Z ->
  (2 <= 1 + (Z.of_nat (length mix_vad) - winlen self) / hop self)%Z ->
  (Z.of_nat est_frames
   < 1 + (Z.of_nat (length mix_vad) - winlen self) / hop self)%Z ->
  vad_mask_row self mix_vad est_frames = Raise RuntimeError.
Proof.
  intros Hhop Hwin H2 Hlong. unfold vad_mask_row.
  destruct (Z.eqb_spec (hop self) 0); [lia|].
  destruct (Z.ltb_spec
              (1 + (Z.of_nat (length mix_vad) - winlen self) / hop self) 0);
    [lia|].
  destruct (Z.ltb_spec (winlen self) 0); [lia|]. cbn [orb].
  rewrite vad_frames_Ok by lia. cbn [bind].
  unfold assign_row. rewrite !length_map, length_seq.
  destruct (Nat.eqb_spec
              (Z.to_nat (1 + (Z.of_nat (length mix_vad) - winlen self)
                             / hop self))
              (Nat.min
                 (Z.to_nat (1 + (Z.of_nat (length mix_vad) - winlen self)
                                / hop self))
                 est_frames)); [lia|].
  destruct (Nat.eqb_spec
              (Z.to_nat (1 + (Z.of_nat (length mix_vad) - winlen self)
                             / hop self)) 1); [lia|].
  reflexivity.
Qed.

End VadEdges.

Section Compose.

Local Open Scope R_scope.

Variable ConvSTFT : conv_cfg -> list (list R) -> tensor3.
Variable scaler : tensor3 -> tensor3 -> tensor3 * tensor3.
Variable pmsqe : tensor3 -> tensor3 -> list R.
Variable pmsqe_vad : tensor3 -> tensor3 -> list (list R) -> list R.

(** X20.  The voice-activity variant returns the same SNR loss as the
    multi-resolution compositor built with no auxiliary hops; only the
    perceptual score differs (it is masked). *)
Theorem apc_forward_snr_is_single_resolution
    (model_hop model_winlen mag_bins : Z)
    (est clean mix_vad : list (list R)) (l p : R) :
  apc_forward ConvSTFT scaler pmsqe_vad
    (APC_SNR_init model_hop model_winlen mag_bins) est clean mix_vad
  = Ok (l, p) ->
  exists m p',
    APC_SNR_multi_filter_init model_hop model_winlen mag_bins (PyTuple [])
      = Ok m /\
    multi_forward ConvSTFT scaler pmsqe m est clean = Ok (l, p').
Proof.
  unfold apc_forward. cbn [APC_SNR_init apc_model_stft].
  intros H. apply bind_Ok in H as (mask & _ & H).
  apply bind_Ok in H as (ps & Hps & H).
  apply bind_Ok in H as (l0 & Hl & H). injection H as <- _.
  unfold pmsqe_score_vad in Hps.
  apply bind_Ok in Hps as (me & Hme & Hps).
  apply bind_Ok in Hps as (mc & Hmc & _).
  eexists. eexists. split; [reflexivity|].
  unfold multi_forward, pmsqe_score.
  cbn [model_stft stfts seq_items map fold_left length].
  rewrite Hme, Hmc. cbn [bind]. rewrite Hl.
  cbn [bind fst snd Nat.add INR].
  f_equal. f_equal. field.
Qed.

Lemma pmsqe_score_raises (a b : tensor3) :
  raises (pmsqe_score pmsqe a b) <->
  raises (power a) \/ raises (power b).
Proof.
  unfold pmsqe_score. destruct (power a) as [ma|e]; cbn [bind].
  - destruct (power b) as [mb|e]; cbn [bind].
    + split.
      * intros [e He]. discriminate He.
      * intros [[e He]|[e He]]; discriminate He.
    + split; [intros _; right | intros _]; now exists e.
  - split; [intros _; left | intros _]; now exists e.
Qed.

Lemma resolution_score_power_raises (et cl : list (list R))
    (cfg : conv_cfg) :
  raises (power (ConvSTFT cfg et)) \/ raises (power (ConvSTFT cfg cl)) ->
  raises (resolution_score ConvSTFT scaler pmsqe et cl cfg).
Proof.
  intros H. apply pmsqe_score_raises in H as [e He].
  unfold resolution_score. rewrite He. now exists e.
Qed.

(** X21.  When [power] fails on the estimate's or the clean signal's
    spectrum at one of the compositor's resolutions (the model engine or
    an auxiliary one), the forward pass fails as a whole: no partial score
    is returned. *)
Theorem multi_forward_fails_with_power (self : APC_SNR_multi_filter)
    (et cl : list (list R)) :
  Exists (fun cfg => raises (power (ConvSTFT cfg et))
                     \/ raises (power (ConvSTFT cfg cl)))
         (model_stft self :: stfts self) ->
  raises (multi_forward ConvSTFT scaler pmsqe self et cl).
Proof.
  intros Hex.
  assert (Hmap : raises (mapM (resolution_score ConvSTFT scaler pmsqe et cl)
                           (model_stft self :: stfts self))).
  { apply mapM_raises. rewrite Exists_exists in *.
    destruct Hex as (cfg & Hin & H). exists cfg.
    split; [exact Hin | now apply resolution_score_power_raises]. }
  revert Hmap. cbn [mapM]. unfold multi_forward.
  unfold resolution_score at 1.
  destruct (pmsqe_score pmsqe (ConvSTFT (model_stft self) et)
              (ConvSTFT (model_stft self) cl)) as [p0|e]; cbn [bind];
    [|intros _; now exists e].
  destruct (stft_snr _ _ eps_default) as [l0|e]; cbn [bind];
    [|intros _; now exists e].
  rewrite fold_accumulate.
  destruct (mapM (resolution_score ConvSTFT scaler pmsqe et cl)
              (stfts self)) as [rs|e]; cbn [bind].
  - intros [e He]. discriminate He.
  - intros _. now exists e.
Qed.

End Compose.

(** ** Concrete runs of the loss *)

Section LossRuns.

Local Open Scope R_scope.

Lemma stft_snr_floor_witness :
  exists l, stft_snr [[[1; 2]]] [[[2; 1]]] eps_default = Ok l /\ l <= 80.
Proof.
  apply (proj2 (proj2 (stft_snr_floor [[[1; 2]]] [[[2; 1]]])) 1%nat 1%nat
           2%nat);
    [lia | |]; (split; [reflexivity | repeat constructor]).
Defined.

Lemma stft_snr_uncorrelated_witness :
  stft_snr [[[0; 0]]] [[[1; 2]]] eps_default = Ok 80.
Proof.
  apply (stft_snr_uncorrelated [[[0; 0]]] [[[1; 2]]] 1 1 2);
    [lia | split; [reflexivity | repeat constructor]
     | split; [reflexivity | repeat constructor] |].
  constructor; [|constructor].
  cbv - [Rmult Rplus IZR]. lra.
Defined.

Lemma power1_even_channels_witness :
  exists p,
    power1 [[1; 2]; [3; 4]] = Ok p /\
    length p = 1%nat /\
    at2 p 0 1 = 2 ^ 2 + 4 ^ 2.
Proof.
  destruct (power1_even_channels [[1; 2]; [3; 4]] 1 2 eq_refl
              ltac:(repeat constructor))
    as (p & Hp & Hl & Hv).
  exists p. split; [exact Hp|]. split; [exact Hl|].
  apply (Hv 0%nat 1%nat); lia.
Defined.

Lemma power_raises_iff_witness :
  power [[[1]; [2]; [3]]] = Raise RuntimeError.
Proof.
  destruct (power_raises_iff [[[1]; [2]; [3]]]) as [Hiff Herr].
  destruct (proj2 Hiff) as [e He].
  - constructor. split; [reflexivity | simpl; lia].
  - rewrite He. f_equal. now apply Herr.
Defined.

Lemma vad_mask_only_three_weights_witness :
  exists m,
    vad_mask_row (APC_SNR_init 2 4 256) [0; 0; 0; 0; 1; 0] 3 = Ok m /\
    length m = 3%nat /\
    Forall (fun v => v = 0 \/ v = 0.1 \/ v = 1) m.
Proof.
  assert (H : exists m,
             vad_mask_row (APC_SNR_init 2 4 256) [0; 0; 0; 0; 1; 0] 3
             = Ok m) by (eexists; reflexivity).
  destruct H as [m H]. exists m. split; [exact H|].
  exact (vad_mask_only_three_weights _ _ _ _ H).
Defined.

Lemma vad_mask_rejects_long_mask_witness :
  vad_mask_row (APC_SNR_init 2 4 256) [0; 0; 0; 0; 1; 0; 1; 1] 2
  = Raise RuntimeError.
Proof.
  apply vad_mask_rejects_long_mask; simpl; lia.
Defined.

Lemma multi_forward_fails_with_power_witness :
  raises (multi_forward Lib.three_channel_stft Lib.unit_scaler
            Lib.zero_pmsqe (mkMulti (PyList []) (mkCfg 512 128 512) [])
            [[1; 2]] [[1; 2]]).
Proof.
  apply multi_forward_fails_with_power.
  constructor. left. exists RuntimeError. reflexivity.
Defined.

Lemma apc_forward_snr_is_single_resolution_witness :
  exists l p m p',
    apc_forward Lib.one_bin_stft Lib.unit_scaler Lib.zero_pmsqe_vad
      (APC_SNR_init 2 4 256) [[1; 2; 3; 4; 5; 6]] [[1; 2; 3; 4; 5; 7]]
      [[0; 0; 0; 0; 1; 0]] = Ok (l, p) /\
    APC_SNR_multi_filter_init 2 4 256 (PyTuple []) = Ok m /\
    multi_forward Lib.one_bin_stft Lib.unit_scaler Lib.zero_pmsqe m
      [[1; 2; 3; 4; 5; 6]] [[1; 2; 3; 4; 5; 7]] = Ok (l, p').
Proof.
  assert (H : exists lp,
             apc_forward Lib.one_bin_stft Lib.unit_scaler
               Lib.zero_pmsqe_vad (APC_SNR_init 2 4 256)
               [[1; 2; 3; 4; 5; 6]] [[1; 2; 3; 4; 5; 7]]
               [[0; 0; 0; 0; 1; 0]] = Ok lp).
  { unfold apc_forward. cbv zeta.
    set (est := Lib.one_bin_stft _ [[1; 2; 3; 4; 5; 6]]).
    set (cl := Lib.one_bin_stft _ [[1; 2; 3; 4; 5; 7]]).
    set (sc := Lib.unit_scaler est cl).
    rewrite (stft_snr_same_shape (mul3 est (fst sc)) (mul3 cl (snd sc))
               eps_default 1 2 6);
      [ | lia | split; [reflexivity | repeat constructor]
        | split; [reflexivity | repeat constructor] ].
    set (v := (- mean _)%R). clearbody v.
    eexists. reflexivity. }
  destruct H as [[l p] H].
  destruct (apc_forward_snr_is_single_resolution Lib.one_bin_stft
              Lib.unit_scaler Lib.zero_pmsqe Lib.zero_pmsqe_vad
              2 4 256 _ _ _ l p H) as (m & p' & Hm & Hf).
  exists l, p, m, p'. split; [exact H|]. split; [exact Hm | exact Hf].
Defined.

End LossRuns.
